(** * floodmap.app: the interaction engine of [web/src/App.tsx]

    A shallow embedding of the React component [App]: its state hooks, its
    event handlers, the heatmap layer configuration and the longitude loop of
    the popup click handler, followed by the properties checked against them.

    Conventions.
    - A JavaScript [number] is an IEEE 754 binary64 value: Rocq's primitive
      [float].  The arithmetic of the popup loop is written once over the
      interface [JsNumber]; [float] is the instance the program runs on.
      The instance [Q] computes without rounding; it is a reference the
      binary64 results are compared with, and no property of the program is
      stated on it.
    - A handler reads the values captured by the render it was created in
      and enqueues state updates and side effects.  It is a function from the
      render snapshot [AppState] to the list of [Command]s it issues, in
      source order; [run] applies the state updates.
    - A [while] loop is a fixpoint on a step budget: [None] means the budget
      ran out before the loop condition became false. *)

From Stdlib Require Import ZArith QArith Qabs Qround Qpower Zpower List String Floats
  Bool Lia Lqa.
Import ListNotations.

Set Warnings "-inexact-float".

(* ================================================================= *)
(** ** JavaScript numbers *)

(** The operations the popup loop applies to numbers: literals, [+], [-],
    [Math.abs] and [>]. *)
Class JsNumber (num : Type) := {
  numOfZ : Z -> num;
  nadd : num -> num -> num;
  nsub : num -> num -> num;
  nabs : num -> num;
  ngt : num -> num -> bool
}.

(** An integer literal as a binary64 value. *)
Definition floatOfZ (z : Z) : float :=
  match z with
  | Zneg p => PrimFloat.opp (PrimFloat.of_uint63 (Uint63.of_Z (Zpos p)))
  | _ => PrimFloat.of_uint63 (Uint63.of_Z z)
  end.

(** The numbers of the program.  [a > b] is [b < a]; both are false when
    either side is NaN. *)
#[export] Instance float_JsNumber : JsNumber float := {|
  numOfZ := floatOfZ;
  nadd := PrimFloat.add;
  nsub := PrimFloat.sub;
  nabs := PrimFloat.abs;
  ngt := fun a b => PrimFloat.ltb b a
|}.

(** The same operations on the rationals, with no rounding: a reference
    for what the loop computes when none of its steps rounds.  The program
    does not run on it. *)
#[export] Instance exact_JsNumber : JsNumber Q := {|
  numOfZ := inject_Z;
  nadd := Qplus;
  nsub := Qminus;
  nabs := Qabs;
  ngt := fun a b => negb (Qle_bool a b)
|}.

(* ================================================================= *)
(** ** Hazard categories and layer configuration *)

Open Scope string_scope.
Open Scope list_scope.

Record Option := { value : string; label : string }.

Definition hazardOptions : list Option := [
  {| value := "FLOODED_ROAD"; label := "Flooded Road" |};
  {| value := "TREE_DOWN"; label := "Tree Down" |};
  {| value := "OTHER"; label := "Other" |}
].

Definition MAX_HEATMAP_LEVEL : float := 9.

(** A paint property of the form
    [['interpolate', ['linear'], input, x1, y1, x2, y2, ...]]: the input
    expression and the stops, each an input value with its output. *)
Inductive Interpolation := linear.

Inductive ExprInput :=
| Get (property : string)
| Zoom
| HeatmapDensity.

Inductive StopValue :=
| num_stop (v : float)
| color_stop (c : string).

Record Interpolate := {
  interpolation : Interpolation;
  input : ExprInput;
  stops : list (float * StopValue)
}.

Record HeatmapPaint := {
  heatmap_weight : Interpolate;
  heatmap_intensity : Interpolate;
  heatmap_color : Interpolate;
  heatmap_radius : Interpolate;
  heatmap_opacity : Interpolate
}.

Record HeatmapLayer := {
  layer_id : string;
  maxzoom : float;
  layer_type : string;
  paint : HeatmapPaint
}.

Definition heatmapLayer : HeatmapLayer := {|
  layer_id := "heatmap";
  maxzoom := MAX_HEATMAP_LEVEL;
  layer_type := "heatmap";
  paint := {|
    heatmap_weight :=
      {| interpolation := linear; input := Get "mag";
         stops := [(0, num_stop 0); (6, num_stop 1)]%float |};
    heatmap_intensity :=
      {| interpolation := linear; input := Zoom;
         stops := [(0, num_stop 1); (MAX_HEATMAP_LEVEL, num_stop 3)]%float |};
    heatmap_color :=
      {| interpolation := linear; input := HeatmapDensity;
         stops := [(0, color_stop "rgba(33,102,172,0)");
                   (0.2, color_stop "rgb(103,169,207)");
                   (0.4, color_stop "rgb(209,229,240)");
                   (0.6, color_stop "rgb(253,219,199)");
                   (0.8, color_stop "rgb(239,138,98)");
                   (0.9, color_stop "rgb(255,201,101)")]%float |};
    heatmap_radius :=
      {| interpolation := linear; input := Zoom;
         stops := [(0, num_stop 2); (MAX_HEATMAP_LEVEL, num_stop 20)]%float |};
    heatmap_opacity :=
      {| interpolation := linear; input := Zoom;
         stops := [(7, num_stop 1); (MAX_HEATMAP_LEVEL, num_stop 0)]%float |}
  |}
|}.

(** The output configured at input value [x], when [x] is a stop. *)
Definition stopAt (x : float) (e : Interpolate) : option StopValue :=
  match find (fun st => PrimFloat.eqb (fst st) x) (stops e) with
  | Some st => Some (snd st)
  | None => None
  end.

(* ================================================================= *)
(** ** Hazards, the cached response and the create request *)

(** A feature of the hazard collection, with the members the program reads:
    [geometry.coordinates], [properties.hazardType], [properties.createdAt]. *)
Record Feature := {
  coordinates : list float;
  feature_hazardType : string;
  createdAt : string
}.

Record FeatureCollection := {
  collection_type : string;
  collection_features : list Feature
}.

(** The value cached under the key [/hazards]: an object of which the
    program reads the members [type], [geojson] and [features]; a member
    that is missing is [None]. *)
Record HazardData := {
  data_type : option string;
  geojson : option FeatureCollection;
  features : option (list Feature)
}.

Record HazardBody := {
  body_lat : float;
  body_lng : float;
  body_hazardType : string;
  body_notes : string
}.

Record HttpRequest := {
  url : string;
  method : string;
  authorization : string;
  body : HazardBody
}.

(** [SaveHazard]: the POST request it sends (the path is relative to
    [API_URL]). *)
Definition SaveHazard (lat lng : float) (hazardType notes token : string) : HttpRequest := {|
  url := "/hazards";
  method := "POST";
  authorization := ("Bearer " ++ token)%string;
  body := {| body_lat := lat; body_lng := lng;
             body_hazardType := hazardType; body_notes := notes |}
|}.

(* ================================================================= *)
(** ** State of the component and the commands of its handlers *)

(** What one render of [App] sees: its six state hooks, [isAuthenticated]
    of the identity provider, and [data], the cached value of [/hazards]
    ([None] while nothing is cached). *)
Record AppState := {
  drawPoint : bool;
  lng : float;
  lat : float;
  hazardType : Option;
  isAuthenticated : bool;
  accessToken : option string;
  notes : string;
  data : option HazardData
}.

Definition initialState : AppState := {|
  drawPoint := false;
  lng := 143.8503;
  lat := (-37.5622);
  hazardType := hd {| value := ""; label := "" |} hazardOptions;
  isAuthenticated := false;
  accessToken := None;
  notes := "";
  data := None
|}.

Inductive JsError :=
| TypeError
| OtherError (message : string).

(** What a handler does, in the order it does it: state setters, the form
    event's [preventDefault], [toast.error], the cache's [mutate] (with the
    request its callback sends, the [data] the callback has captured and the
    [revalidate] option), [map.addImage], and [throw], which ends the
    handler. *)
Inductive Command :=
| setDrawPoint (b : bool)
| setLng (x : float)
| setLat (x : float)
| selectHazardType (o : Option)
| setAccessToken (t : string)
| setNotes (text : string)
| preventDefault
| toast_error (message : string) (duration : Z)
| mutate (key : string) (request : HttpRequest) (captured : option HazardData)
    (revalidate : bool)
| addImage (name : string)
| throw (e : option JsError).

Definition Handler : Type := AppState -> list Command.

(** The state after one command.  Only the setters change it: [mutate] is
    handed a callback whose value exists once the request it awaits has
    resolved, and no [optimisticData], so the cached [data] is as it was
    until then. *)
Definition step (s : AppState) (c : Command) : AppState :=
  match c with
  | setDrawPoint b =>
      {| drawPoint := b; lng := lng s; lat := lat s; hazardType := hazardType s;
         isAuthenticated := isAuthenticated s; accessToken := accessToken s;
         notes := notes s; data := data s |}
  | setLng x =>
      {| drawPoint := drawPoint s; lng := x; lat := lat s; hazardType := hazardType s;
         isAuthenticated := isAuthenticated s; accessToken := accessToken s;
         notes := notes s; data := data s |}
  | setLat x =>
      {| drawPoint := drawPoint s; lng := lng s; lat := x; hazardType := hazardType s;
         isAuthenticated := isAuthenticated s; accessToken := accessToken s;
         notes := notes s; data := data s |}
  | selectHazardType o =>
      {| drawPoint := drawPoint s; lng := lng s; lat := lat s; hazardType := o;
         isAuthenticated := isAuthenticated s; accessToken := accessToken s;
         notes := notes s; data := data s |}
  | setAccessToken t =>
      {| drawPoint := drawPoint s; lng := lng s; lat := lat s; hazardType := hazardType s;
         isAuthenticated := isAuthenticated s; accessToken := Some t;
         notes := notes s; data := data s |}
  | setNotes text =>
      {| drawPoint := drawPoint s; lng := lng s; lat := lat s; hazardType := hazardType s;
         isAuthenticated := isAuthenticated s; accessToken := accessToken s;
         notes := text; data := data s |}
  | preventDefault | toast_error _ _ | mutate _ _ _ _ | addImage _ | throw _ => s
  end.

Definition run (s : AppState) (cmds : list Command) : AppState :=
  fold_left step cmds s.

(** The state the next render sees after handler [h] ran in state [s]. *)
Definition dispatch (s : AppState) (h : Handler) : AppState := run s (h s).

(** The notifications, the requests and the exceptions among commands. *)
Definition toasts (cmds : list Command) : list string :=
  flat_map (fun c => match c with toast_error m _ => [m] | _ => [] end) cmds.

Definition requests (cmds : list Command) : list HttpRequest :=
  flat_map (fun c => match c with mutate _ r _ _ => [r] | _ => [] end) cmds.

Definition throws (cmds : list Command) : bool :=
  existsb (fun c => match c with throw _ => true | _ => false end) cmds.

(* ================================================================= *)
(** ** The handlers of [App] *)

Record ViewState := {
  longitude : float;
  latitude : float;
  zoom : float
}.

Record ViewStateChangeEvent := { viewState : ViewState }.

Definition updateMapCenterCoordinates (event : ViewStateChangeEvent) : Handler :=
  fun _ =>
    [ setLat (latitude (viewState event));
      setLng (longitude (viewState event)) ].

Definition handleHazardOptionSelected (v : string) : Handler :=
  fun _ =>
    setNotes "" ::
    match find (fun option => String.eqb (value option) v) hazardOptions with
    | Some option => [selectHazardType option]
    | None => []
    end.

Definition resetHazardForm : Handler :=
  fun _ => [setDrawPoint false].

Definition toggleDrawPoint : Handler :=
  fun s =>
    if negb (isAuthenticated s) then
      [toast_error "Login to add a hazard." 3000]
    else
      [setDrawPoint (negb (drawPoint s))].

Definition submitHazardForm : Handler :=
  fun s =>
    preventDefault ::
    match accessToken s with
    | None => [toast_error "Login to add hazards." 3000]
    | Some token =>
        mutate "/hazards"
          (SaveHazard (lat s) (lng s) (value (hazardType s)) (notes s) token)
          (data s) true
        :: resetHazardForm s
    end.

(** The callback of [map.loadImage] in [loadExtras]. *)
Definition onImageLoaded (name : string) (error : option JsError) (image : bool)
  : list Command :=
  match error with
  | Some e => [throw (Some e)]
  | None => if image then [addImage name] else [throw None]
  end.

(** The callback handed to [mutate]: [response] is how the awaited
    [SaveHazard] request ended, [Some newHazard] when it resolved and [None]
    when it rejected (the rejection is passed on).  Reading [data.type] of a
    missing [data] and spreading a missing [data.features] are type errors.
    The object built has the members [type] and [features] only. *)
Definition mutateCallback (captured : option HazardData) (response : option Feature)
  : JsError + HazardData :=
  match response with
  | None => inl (OtherError "request failed")
  | Some newHazard =>
      match captured with
      | None => inl TypeError
      | Some d =>
          match features d with
          | None => inl TypeError
          | Some fs =>
              inr {| data_type := data_type d;
                     geojson := None;
                     features := Some (fs ++ [newHazard]) |}
          end
      end
  end.

(** The [Source] element of the render:
    [data && data.geojson.features.length > 0 && <Source data={data.geojson}>].
    [inr None] is no element; reading [features] of a missing [geojson] is a
    type error. *)
Definition renderSource (d : option HazardData) : JsError + option FeatureCollection :=
  match d with
  | None => inr None
  | Some d =>
      match geojson d with
      | None => inl TypeError
      | Some g =>
          if (0 <? List.length (collection_features g))%nat then inr (Some g) else inr None
      end
  end.

(** The feature sequence the map renders from. *)
Definition renderedFeatures (s : AppState) : list Feature :=
  match renderSource (data s) with
  | inr (Some g) => collection_features g
  | _ => []
  end.

(** The hazard being drafted in state [s], as a feature. *)
Definition draftFeature (s : AppState) (created : string) : Feature := {|
  coordinates := [lng s; lat s];
  feature_hazardType := value (hazardType s);
  createdAt := created
|}.

(* ================================================================= *)
(** ** PopupController: the click handler of [loadExtras] *)

Section PopupLoop.

Context {num : Type} `{JsNumber num}.

(** The loop condition [Math.abs(e.lngLat.lng - coordinates[0]) > 180]. *)
Definition tooFar (clickLng c0 : num) : bool :=
  ngt (nabs (nsub clickLng c0)) (numOfZ 180).

(** The loop body [coordinates[0] += e.lngLat.lng > coordinates[0] ? 360 : -360]. *)
Definition shiftLng (clickLng c0 : num) : num :=
  nadd c0 (if ngt clickLng c0 then numOfZ 360 else numOfZ (-360)).

(** [while (tooFar) { shiftLng }], with a step budget. *)
Fixpoint normalizeLng (fuel : nat) (clickLng c0 : num) : option num :=
  if tooFar clickLng c0 then
    match fuel with
    | O => None
    | S fuel' => normalizeLng fuel' clickLng (shiftLng clickLng c0)
    end
  else Some c0.

(** The coordinate array handed to [setLngLat]: the copy of the feature's
    coordinates with its first entry normalised.  With no first entry the
    comparison is on NaN, the loop body never runs and the copy is
    unchanged. *)
Definition popupCoordinates (fuel : nat) (clickLng : num) (coords : list num)
  : option (list num) :=
  match coords with
  | [] => Some []
  | c0 :: rest =>
      match normalizeLng fuel clickLng c0 with
      | Some c => Some (c :: rest)
      | None => None
      end
  end.

End PopupLoop.

(* ================================================================= *)
(** ** The symbol layer, the draft marker and the map images *)

(** A layout property of the form
    [['match', input, label1, output1, ..., fallback]]. *)
Record MatchExpr := {
  match_input : ExprInput;
  match_cases : list (string * string);
  match_fallback : string
}.

Record SymbolLayout := {
  icon_image : MatchExpr;
  icon_size : float
}.

Record SymbolLayer := {
  symbol_id : string;
  symbol_type : string;
  symbol_source : string;
  minzoom : float;
  layout : SymbolLayout
}.

Definition symbolLayer : SymbolLayer := {|
  symbol_id := "point";
  symbol_type := "symbol";
  symbol_source := "pin";
  minzoom := 4;
  layout := {|
    icon_image :=
      {| match_input := Get "hazardType";
         match_cases := [("FLOODED_ROAD", "flood-pin"); ("TREE_DOWN", "warning-pin")];
         match_fallback := "warning-pin" |};
    icon_size := 0.75
  |}
|}.

(** The value of a [match] expression at input [v]: the output of the first
    label equal to [v], the fallback when there is none. *)
Definition evalMatch (e : MatchExpr) (v : string) : string :=
  match find (fun c => String.eqb (fst c) v) (match_cases e) with
  | Some c => snd c
  | None => match_fallback e
  end.

(** The image the symbol layer draws feature [f] with. *)
Definition iconImage (f : Feature) : string :=
  evalMatch (icon_image (layout symbolLayer)) (feature_hazardType f).

(** The image of the draft [Marker]:
    [hazardType.value === 'TREE_DOWN' ? "/warning-pin.svg" : "/flood-pin.svg"]. *)
Definition markerImage (s : AppState) : string :=
  if String.eqb (value (hazardType s)) "TREE_DOWN"
  then "/warning-pin.svg" else "/flood-pin.svg".

(** The two [map.loadImage] calls of [loadExtras]: what each callback does,
    given how its load ended (the error, and whether an image came). *)
Definition loadExtras (flood warning : option JsError * bool) : list (list Command) :=
  [ onImageLoaded "flood-pin" (fst flood) (snd flood);
    onImageLoaded "warning-pin" (fst warning) (snd warning) ].

Definition imagesAdded (callbacks : list (list Command)) : list string :=
  flat_map (flat_map (fun c => match c with addImage n => [n] | _ => [] end)) callbacks.

(* ================================================================= *)
(** ** Events of the component *)

(** The [onChange] of the notes text area. *)
Definition handleNotesChanged (text : string) : Handler :=
  fun _ => [setNotes text].

(** The effect that fetches the access token runs after a render in which
    [isAuthenticated] or [getAccessTokenSilently] has changed; it returns at
    once when the user is not authenticated in that render, and otherwise
    calls [getUserAccessToken]. *)
Definition accessTokenEffectFetches (s : AppState) : bool :=
  if negb (isAuthenticated s) then false else true.

(** [getUserAccessToken], from the point where the awaited
    [getAccessTokenSilently] settles: the token it resolved with ([Some]) is
    stored, with no further test of [isAuthenticated]; when it rejected
    ([None]) the error is logged and nothing is stored. *)
Definition getUserAccessToken (result : option string) : Handler :=
  fun _ =>
    match result with
    | Some token => [setAccessToken token]
    | None => []
    end.

(** What can happen to the component: the events its elements are wired to,
    a token fetch settling (at any later time, whatever the state is by
    then), and the two values it reads from outside changing (the identity
    provider's [isAuthenticated], the cached [data]). *)
Inductive UiEvent :=
| onMove (event : ViewStateChangeEvent)
| clickAddHazard
| changeHazardType (v : string)
| changeNotes (text : string)
| clickReset
| submitForm
| tokenFetched (result : option string)
| authChanged (authenticated : bool)
| cacheChanged (d : option HazardData).

Definition handlerOf (ev : UiEvent) : Handler :=
  match ev with
  | onMove event => updateMapCenterCoordinates event
  | clickAddHazard => toggleDrawPoint
  | changeHazardType v => handleHazardOptionSelected v
  | changeNotes text => handleNotesChanged text
  | clickReset => resetHazardForm
  | submitForm => submitHazardForm
  | tokenFetched result => getUserAccessToken result
  | authChanged _ | cacheChanged _ => fun _ => []
  end.

(** The outside values after the event. *)
Definition environment (s : AppState) (ev : UiEvent) : AppState :=
  match ev with
  | authChanged b =>
      {| drawPoint := drawPoint s; lng := lng s; lat := lat s; hazardType := hazardType s;
         isAuthenticated := b; accessToken := accessToken s;
         notes := notes s; data := data s |}
  | cacheChanged d =>
      {| drawPoint := drawPoint s; lng := lng s; lat := lat s; hazardType := hazardType s;
         isAuthenticated := isAuthenticated s; accessToken := accessToken s;
         notes := notes s; data := d |}
  | _ => s
  end.

(** The state the next render sees after event [ev] in state [s]. *)
Definition react (s : AppState) (ev : UiEvent) : AppState :=
  run (environment s ev) (handlerOf ev s).

(** Whether the element the event comes from is shown in state [s], once
    the transitions have finished: the toolbar with the Add Hazard button
    has [show={!drawPoint}], the form (category select, Reset, Create) has
    [show={drawPoint}], and the notes text area is rendered inside the form
    when the category is OTHER.  While a leave transition runs (75 ms for
    the toolbar, 150 ms for the form) the element is still mounted, so
    [enabled] describes runs that are possible, not all of them: what no
    event can do is stated on [react], without it. *)
Definition enabled (s : AppState) (ev : UiEvent) : bool :=
  match ev with
  | clickAddHazard => negb (drawPoint s)
  | changeHazardType _ | clickReset | submitForm => drawPoint s
  | changeNotes _ => drawPoint s && String.eqb (value (hazardType s)) "OTHER"
  | onMove _ | tokenFetched _ | authChanged _ | cacheChanged _ => true
  end.

(** A sequence of events from state [s], each from an element shown at that
    point; [None] when one of them is not. *)
Fixpoint runEvents (s : AppState) (trace : list UiEvent) : option AppState :=
  match trace with
  | [] => Some s
  | ev :: rest => if enabled s ev then runEvents (react s ev) rest else None
  end.

(** The notes are empty unless the category is OTHER. *)
Definition notesNeedOther (s : AppState) : Prop :=
  notes s = "" \/ value (hazardType s) = "OTHER".

(* ================================================================= *)
(** ** Binary64 longitudes on a dyadic grid *)

(** The binary64 number of value [k / 2^p], built by the standard library's
    specification of the format: [k] at the exponent [-p], normalised.  A
    [k] of at most 53 bits needs no rounding. *)
Definition gridSF (p k : Z) : spec_float :=
  binary_normalize prec emax k (- p)%Z false.

Definition gridFloat (p k : Z) : float := SF2Prim (gridSF p k).

(** [x] is the binary64 number of value [k / 2^p]. *)
Definition onGrid (p k : Z) (x : float) : Prop := Prim2SF x = gridSF p k.

(** The 53-bit mantissa and the exponent of that number, for [k] not 0. *)
Definition gridMantissa (k : Z) : positive :=
  Z.to_pos (Z.abs k * 2 ^ (53 - Zdigits2 k))%Z.

Definition gridExponent (p k : Z) : Z := (Zdigits2 k - 53 - p)%Z.

(** A number of passes that is enough for the longitudes [kL / 2^p] and
    [kF / 2^p]: the gap in whole turns, plus one. *)
Definition gridTurns (p kL kF : Z) : nat :=
  Z.to_nat (Z.abs (kL - kF) / (360 * 2 ^ p) + 1)%Z.

(** The rational a finite binary64 number stands for. *)
Definition exactValue (x : float) : option Q :=
  match Prim2SF x with
  | S754_zero _ => Some 0%Q
  | S754_finite s m e =>
      Some ((if s then - inject_Z (Zpos m) else inject_Z (Zpos m)) * Qpower 2 e)%Q
  | _ => None
  end.


(* ================================================================= *)
(** ** Binary64 rounding, in units of 2^-1074 *)

(** Every finite binary64 number is a whole number of units of 2^-1074,
    the least positive one.  Counted in units, the numbers that need no
    rounding are those of at most 53 bits and those whose bits below the
    53 leading ones are all 0; the others are rounded to the nearest such
    number, the one with an even 53-bit part when two are as near. *)

(** [N / 2^n] rounded to the nearest integer, ties to even. *)
Definition roundShift (N n : Z) : Z :=
  (let q := N / 2 ^ n in
   let r := N mod 2 ^ n in
   if 2 * r <? 2 ^ n then q
   else if 2 ^ n <? 2 * r then q + 1
   else if Z.even q then q else q + 1)%Z.

(** Binary64 rounding of a magnitude given in units of 2^-1074: a number of
    more than 53 bits keeps its 53 leading bits, rounded to nearest. *)
Definition roundUnits (N : Z) : Z :=
  (if Zdigits2 N <=? 53 then N
   else roundShift N (Zdigits2 N - 53) * 2 ^ (Zdigits2 N - 53))%Z.

Definition round64 (N : Z) : Z :=
  match N with
  | Z0 => 0%Z
  | Zpos _ => roundUnits N
  | Zneg p => (- roundUnits (Zpos p))%Z
  end.

(** The binary64 number of magnitude [R] units and sign [s], for [R] that
    needs no rounding. *)
Definition canonSF (s : bool) (R : Z) : spec_float :=
  let k := Z.max 0 (Zdigits2 R - 53) in
  match (R / 2 ^ k)%Z with
  | Zpos m => S754_finite s m (k - 1074)
  | _ => S754_zero s
  end.

Definition unitsSF (a : Z) : spec_float :=
  match a with
  | Z0 => S754_zero false
  | Zpos _ => canonSF false a
  | Zneg p => canonSF true (Zpos p)
  end.

(** The record [shr] reaches after [k] shifts of [M]. *)
Definition shiftedRecord (M k : Z) : shr_record :=
  (let r := M mod 2 ^ k in
   {| shr_m := M / 2 ^ k;
      shr_r := 2 ^ k <=? 2 * r;
      shr_s := negb (r =? (if 2 ^ k <=? 2 * r then 2 ^ (k - 1) else 0)) |})%Z.

(** [x] is the binary64 number of [a] units of 2^-1074 (either zero when
    [a] is 0). *)
Definition hasUnits (a : Z) (x : spec_float) : Prop :=
  round64 a = a /\ (x = unitsSF a \/ (a = 0%Z /\ x = S754_zero true)).

(** A whole number of degrees, in units of 2^-1074 degrees. *)
Definition degrees (z : Z) : Z := (z * 2 ^ 1074)%Z.

(** Half the distance from 180 to the next binary64 number, 2^-46, in
    units. *)
Definition halfStep180 : Z := (2 ^ 1028)%Z.


(* ================================================================= *)
(** ** Concrete states and events used below *)

Definition otherOption : Option := {| value := "OTHER"; label := "Other" |}.

Definition ballaratPin : Feature := {|
  coordinates := [143.8503; (-37.5622)]%float;
  feature_hazardType := "TREE_DOWN";
  createdAt := "2022-10-14T03:00:00Z"
|}.

(** The response of [GET /hazards] with one hazard in it. *)
Definition fetchedData : HazardData := {|
  data_type := Some "FeatureCollection";
  geojson := Some {| collection_type := "FeatureCollection";
                     collection_features := [ballaratPin] |};
  features := None
|}.

(** A cached value that also carries a top-level [features] member. *)
Definition flatData : HazardData := {|
  data_type := Some "FeatureCollection";
  geojson := Some {| collection_type := "FeatureCollection";
                     collection_features := [ballaratPin] |};
  features := Some [ballaratPin]
|}.

(** Reporting mode, logged in with a token, category OTHER with notes. *)
Definition reportingState : AppState := {|
  drawPoint := true;
  lng := 144.25;
  lat := (-36.75);
  hazardType := otherOption;
  isAuthenticated := true;
  accessToken := Some "token";
  notes := "debris on shoulder";
  data := Some fetchedData
|}.

Definition reportingFlatState : AppState := {|
  drawPoint := true;
  lng := 144.25;
  lat := (-36.75);
  hazardType := otherOption;
  isAuthenticated := true;
  accessToken := Some "token";
  notes := "debris on shoulder";
  data := Some flatData
|}.

(** Logged in, but the token has not arrived. *)
Definition tokenPendingState : AppState := {|
  drawPoint := true;
  lng := 144.25;
  lat := (-36.75);
  hazardType := otherOption;
  isAuthenticated := true;
  accessToken := None;
  notes := "debris on shoulder";
  data := Some fetchedData
|}.

Definition moveTo (x y z : float) : ViewStateChangeEvent :=
  {| viewState := {| longitude := x; latitude := y; zoom := z |} |}.

(** A finite number at which adding or subtracting 360 is absorbed by
    rounding: 2^64. *)
Definition lng_2p64 : float := 18446744073709551616.

(** Whole-degree longitudes from [-bound] to [bound]. *)
Definition wholeDegrees (bound : Z) : list Z :=
  map (fun n => (Z.of_nat n - bound)%Z) (seq 0 (Z.to_nat (2 * bound + 1))).

(** At a pair of whole-degree longitudes, four passes end the loop on
    binary64 and in exact arithmetic, on the same number. *)
Definition agreesAt (zl zf : Z) : bool :=
  match normalizeLng 4 (floatOfZ zl) (floatOfZ zf),
        normalizeLng 4 (inject_Z zl) (inject_Z zf) with
  | Some r, Some q => PrimFloat.eqb r (floatOfZ (Qnum q)) && Pos.eqb (Qden q) 1
  | _, _ => false
  end.

Definition agreesOnGrid (clickBound featureBound : Z) : bool :=
  forallb (fun zl => forallb (agreesAt zl) (wholeDegrees featureBound))
          (wholeDegrees clickBound).

(** Log in, receive a token, open the form, choose OTHER, type notes. *)
Definition reportOtherTrace : list UiEvent :=
  [ authChanged true; tokenFetched (Some "token"); clickAddHazard;
    changeHazardType "OTHER"; changeNotes "debris on shoulder" ].

(** The state that sequence leads to from the initial state. *)
Definition reportedOtherState : AppState := {|
  drawPoint := true;
  lng := 143.8503;
  lat := (-37.5622);
  hazardType := otherOption;
  isAuthenticated := true;
  accessToken := Some "token";
  notes := "debris on shoulder";
  data := None
|}.

(** The form just opened, with a token. *)
Definition tokenReadyState : AppState := {|
  drawPoint := true;
  lng := 143.8503;
  lat := (-37.5622);
  hazardType := hd {| value := ""; label := "" |} hazardOptions;
  isAuthenticated := true;
  accessToken := Some "token";
  notes := "";
  data := Some fetchedData
|}.

(* ================================================================= *)
(** * Properties *)

(* ================================================================= *)
(** ** The loop, for any arithmetic *)

Section PopupLoopFacts.

Context {num : Type} `{JsNumber num}.

Lemma normalizeLng_done (fuel : nat) (clickLng c0 : num) :
  tooFar clickLng c0 = false -> normalizeLng fuel clickLng c0 = Some c0.
Proof. intros Hnear. destruct fuel; simpl; rewrite Hnear; reflexivity. Qed.

Lemma normalizeLng_step (fuel : nat) (clickLng c0 : num) :
  tooFar clickLng c0 = true ->
  normalizeLng (S fuel) clickLng c0 = normalizeLng fuel clickLng (shiftLng clickLng c0).
Proof. intros Hfar. simpl. rewrite Hfar. reflexivity. Qed.

(** More budget never changes a result. *)
Lemma normalizeLng_more_fuel (clickLng : num) :
  forall fuel extra c0 r,
    normalizeLng fuel clickLng c0 = Some r ->
    normalizeLng (fuel + extra) clickLng c0 = Some r.
Proof.
  induction fuel as [|fuel IH]; intros extra c0 r Hrun.
  - simpl in Hrun. destruct (tooFar clickLng c0) eqn:Hfar; [discriminate|].
    injection Hrun as <-. apply normalizeLng_done, Hfar.
  - simpl in *. destruct (tooFar clickLng c0); [|exact Hrun].
    apply IH. exact Hrun.
Qed.

(** A coordinate the body maps to itself while the condition holds is never
    left: no budget is enough. *)
Lemma normalizeLng_stuck (clickLng c0 : num) :
  tooFar clickLng c0 = true ->
  shiftLng clickLng c0 = c0 ->
  forall fuel, normalizeLng fuel clickLng c0 = None.
Proof.
  intros Hfar Hfix fuel. induction fuel as [|fuel IH]; simpl; rewrite Hfar.
  - reflexivity.
  - rewrite Hfix. exact IH.
Qed.

(** A result is a coordinate at which the loop condition is false. *)
Lemma normalizeLng_result_near (clickLng : num) :
  forall fuel c0 r,
    normalizeLng fuel clickLng c0 = Some r -> tooFar clickLng r = false.
Proof.
  induction fuel as [|fuel IH]; intros c0 r Hrun; simpl in Hrun;
    destruct (tooFar clickLng c0) eqn:Hfar.
  - discriminate.
  - injection Hrun as <-. exact Hfar.
  - eapply IH, Hrun.
  - injection Hrun as <-. exact Hfar.
Qed.

End PopupLoopFacts.

(* ================================================================= *)
(** ** The loop in the reference arithmetic without rounding *)

Section Exact.

Open Scope Q_scope.

Lemma ngt_exact (a b : Q) : ngt a b = true <-> b < a.
Proof.
  simpl. rewrite negb_true_iff. split.
  - intros Hle. apply Qnot_le_lt. intros Hab.
    apply Qle_bool_iff in Hab. congruence.
  - intros Hlt. destruct (Qle_bool a b) eqn:Hle; [|reflexivity].
    apply Qle_bool_iff in Hle. lra.
Qed.

Lemma ngt_exact_false (a b : Q) : ngt a b = false <-> a <= b.
Proof.
  simpl. rewrite negb_false_iff. apply Qle_bool_iff.
Qed.

Lemma tooFar_exact (L c : Q) : tooFar L c = true <-> 180 < Qabs (L - c).
Proof. unfold tooFar. rewrite ngt_exact. reflexivity. Qed.

Lemma tooFar_exact_false (L c : Q) : tooFar L c = false <-> Qabs (L - c) <= 180.
Proof. unfold tooFar. rewrite ngt_exact_false. reflexivity. Qed.

Lemma shiftLng_exact_up (L c : Q) : c < L -> shiftLng L c == c + 360.
Proof.
  intros Hlt. unfold shiftLng. apply ngt_exact in Hlt. rewrite Hlt.
  reflexivity.
Qed.

Lemma shiftLng_exact_down (L c : Q) : L <= c -> shiftLng L c == c - 360.
Proof.
  intros Hle. unfold shiftLng. apply ngt_exact_false in Hle. rewrite Hle.
  reflexivity.
Qed.

(** One pass through the body, taken when the gap exceeds 180, moves the
    coordinate by one turn towards the click and brings a gap of at most
    B + 360 down to at most B. *)
Lemma shiftLng_exact_gap (L c B : Q) :
  180 < Qabs (L - c) ->
  Qabs (L - c) <= B + 360 ->
  180 <= B ->
  Qabs (L - shiftLng L c) <= B /\
  (shiftLng L c == c + 360 \/ shiftLng L c == c - 360).
Proof.
  intros Hfar Hbound HB.
  destruct (Qlt_le_dec c L) as [Hlt|Hle].
  - pose proof (shiftLng_exact_up L c Hlt) as Hs. split; [|left; exact Hs].
    rewrite Hs. apply Qabs_Qle_condition.
    apply Qabs_Qle_condition in Hbound.
    assert (Hpos : 180 < L - c).
    { revert Hfar. apply Qabs_case; intros; lra. }
    split; lra.
  - pose proof (shiftLng_exact_down L c Hle) as Hs. split; [|right; exact Hs].
    rewrite Hs. apply Qabs_Qle_condition.
    apply Qabs_Qle_condition in Hbound.
    assert (Hneg : L - c < - (180)).
    { revert Hfar. apply Qabs_case; intros; lra. }
    split; lra.
Qed.

(** With a gap of at most 180 + 360 n, a budget of n passes is enough; the
    result is the start moved by a whole number of turns and lies within
    180 of the click. *)
Lemma normalizeLng_exact_run (L : Q) :
  forall (n : nat) (c : Q),
    Qabs (L - c) <= 180 + 360 * inject_Z (Z.of_nat n) ->
    exists (r : Q) (k : Z),
      normalizeLng n L c = Some r /\
      r == c + inject_Z k * 360 /\
      Qabs (L - r) <= 180.
Proof.
  induction n as [|n IH]; intros c Hgap.
  - assert (Hnear : Qabs (L - c) <= 180).
    { change (inject_Z (Z.of_nat 0)) with 0 in Hgap. lra. }
    exists c, 0%Z.
    split; [apply normalizeLng_done, tooFar_exact_false, Hnear|].
    split; [|exact Hnear].
    change (inject_Z 0) with 0. lra.
  - destruct (tooFar L c) eqn:Hcond.
    + rewrite (normalizeLng_step _ _ _ Hcond).
      apply tooFar_exact in Hcond.
      assert (Hstep : inject_Z (Z.of_nat (S n)) == inject_Z (Z.of_nat n) + 1).
      { rewrite Nat2Z.inj_succ. unfold Z.succ. rewrite inject_Z_plus.
        reflexivity. }
      rewrite Hstep in Hgap.
      destruct (shiftLng_exact_gap L c (180 + 360 * inject_Z (Z.of_nat n)))
        as [Hgap' Hmove]; [exact Hcond | lra | |].
      { assert (0 <= inject_Z (Z.of_nat n)).
        { change 0 with (inject_Z 0). rewrite <- Zle_Qle. lia. }
        lra. }
      destruct (IH _ Hgap') as (r & k & Hrun & Hr & Hnear).
      destruct Hmove as [Hup|Hdown].
      * exists r, (k + 1)%Z. split; [exact Hrun|]. split; [|exact Hnear].
        rewrite Hr, Hup, inject_Z_plus. change (inject_Z 1) with 1. lra.
      * exists r, (k - 1)%Z. split; [exact Hrun|]. split; [|exact Hnear].
        rewrite Hr, Hdown. unfold Z.sub.
        rewrite inject_Z_plus, inject_Z_opp. change (inject_Z 1) with 1. lra.
    + exists c, 0%Z. split; [apply normalizeLng_done, Hcond|].
      apply tooFar_exact_false in Hcond. split; [|exact Hcond].
      change (inject_Z 0) with 0. lra.
Qed.

End Exact.

(* ================================================================= *)
(** ** The loop on binary64 numbers *)

Example normalizeLng_one_turn :
  normalizeLng 4 170%float (-170)%float = Some 190%float.
Proof. vm_compute. reflexivity. Qed.

Example normalizeLng_near_is_identity :
  normalizeLng 0 10%float 20%float = Some 20%float.
Proof. vm_compute. reflexivity. Qed.

Example popupCoordinates_keeps_latitude :
  popupCoordinates 4 (-200)%float [170; (-37.5)]%float = Some [(-190); (-37.5)]%float.
Proof. vm_compute. reflexivity. Qed.

Lemma in_wholeDegrees (bound z : Z) :
  (- bound <= z <= bound)%Z -> In z (wholeDegrees bound).
Proof.
  intros Hz. unfold wholeDegrees. apply in_map_iff.
  exists (Z.to_nat (z + bound)). split.
  - rewrite Z2Nat.id by lia. lia.
  - apply in_seq. lia.
Qed.

Lemma agreesOnGrid_sound (clickBound featureBound zl zf : Z) :
  agreesOnGrid clickBound featureBound = true ->
  (- clickBound <= zl <= clickBound)%Z ->
  (- featureBound <= zf <= featureBound)%Z ->
  agreesAt zl zf = true.
Proof.
  unfold agreesOnGrid. intros Hgrid Hl Hf.
  rewrite forallb_forall in Hgrid.
  specialize (Hgrid zl (in_wholeDegrees clickBound zl Hl)).
  rewrite forallb_forall in Hgrid.
  exact (Hgrid zf (in_wholeDegrees featureBound zf Hf)).
Qed.

Lemma agreesOnGrid_540_180 : agreesOnGrid 540 180 = true.
Proof. vm_compute. reflexivity. Qed.

(** For a click at a whole-degree longitude up to one and a half turns
    either side and a feature at a whole-degree longitude between -180 and
    180, the binary64 loop and the exact loop end within four passes on the
    same number. *)
Lemma float_agrees_with_exact (zl zf : Z) :
  (-540 <= zl <= 540)%Z -> (-180 <= zf <= 180)%Z ->
  exists (r : float) (q : Q),
    normalizeLng 4 (floatOfZ zl) (floatOfZ zf) = Some r /\
    normalizeLng 4 (inject_Z zl) (inject_Z zf) = Some q /\
    Qden q = 1%positive /\
    PrimFloat.eqb r (floatOfZ (Qnum q)) = true.
Proof.
  intros Hl Hf.
  pose proof (agreesOnGrid_sound 540 180 zl zf agreesOnGrid_540_180 Hl Hf) as Hgrid.
  unfold agreesAt in Hgrid.
  destruct (normalizeLng 4 (floatOfZ zl) (floatOfZ zf)) as [r|]; [|discriminate].
  destruct (normalizeLng 4 (inject_Z zl) (inject_Z zf)) as [q|]; [|discriminate].
  apply andb_true_iff in Hgrid as [Hr Hden].
  exists r, q. repeat split; try assumption.
  apply Pos.eqb_eq, Hden.
Qed.

(** The loop condition, on the specification of binary64. *)
Lemma tooFar_float_spec (L c : float) :
  tooFar L c
  = SFltb (Prim2SF (floatOfZ 180)) (SFabs (SF64sub (Prim2SF L) (Prim2SF c))).
Proof.
  unfold tooFar. cbn [ngt nabs nsub numOfZ float_JsNumber].
  rewrite FloatAxioms.ltb_spec, FloatAxioms.abs_spec, FloatAxioms.sub_spec. reflexivity.
Qed.

(* ================================================================= *)
(** ** Binary64 arithmetic that needs no rounding *)

Section GridArithmetic.

Local Open Scope Z_scope.

Lemma digits2_pos_bounds (m : positive) :
  2 ^ (Zpos (digits2_pos m) - 1) <= Zpos m < 2 ^ Zpos (digits2_pos m).
Proof.
  induction m as [m IH|m IH|]; cbn [digits2_pos].
  - rewrite Pos2Z.inj_succ.
    replace (Z.succ (Zpos (digits2_pos m)) - 1) with (Z.succ (Zpos (digits2_pos m) - 1)) by lia.
    rewrite !Z.pow_succ_r by lia. lia.
  - rewrite Pos2Z.inj_succ.
    replace (Z.succ (Zpos (digits2_pos m)) - 1) with (Z.succ (Zpos (digits2_pos m) - 1)) by lia.
    rewrite !Z.pow_succ_r by lia. lia.
  - cbn. lia.
Qed.

Lemma digits2_pos_unique (m : positive) (d : Z) :
  2 ^ (d - 1) <= Zpos m < 2 ^ d -> Zpos (digits2_pos m) = d.
Proof.
  intros [Hlo Hhi]. pose proof (digits2_pos_bounds m) as [Hlo' Hhi'].
  assert (Hd : 0 < d).
  { destruct (Z_lt_le_dec 0 d) as [|Hneg]; [assumption|].
    exfalso. destruct (Z.eq_dec d 0) as [->|Hnz].
    - cbn in Hhi. lia.
    - rewrite Z.pow_neg_r in Hhi by lia. lia. }
  destruct (Z.lt_trichotomy (Zpos (digits2_pos m)) d) as [Hlt|[Heq|Hgt]]; [|exact Heq|].
  - exfalso. assert (2 ^ Zpos (digits2_pos m) <= 2 ^ (d - 1)) by (apply Z.pow_le_mono_r; lia). lia.
  - exfalso. assert (2 ^ d <= 2 ^ (Zpos (digits2_pos m) - 1)) by (apply Z.pow_le_mono_r; lia). lia.
Qed.

Lemma iter_xO_value (m d : positive) :
  Zpos (Pos.iter xO m d) = Zpos m * 2 ^ Zpos d.
Proof.
  change (Pos.iter xO m d) with (shift_pos d m).
  rewrite shift_pos_correct. change (Zpower_pos 2 d) with (2 ^ Zpos d). lia.
Qed.

Lemma iter_shr_1_exact (n m : positive) :
  iter_pos shr_1 n (Build_shr_record (Zpos (Pos.iter xO m n)) false false)
  = Build_shr_record (Zpos m) false false.
Proof.
  revert m. induction n as [n IH|n IH|]; intros m; cbn [iter_pos Pos.iter].
  - cbn [shr_1 orb]. rewrite IH, IH. reflexivity.
  - rewrite IH, IH. reflexivity.
  - reflexivity.
Qed.

(** The float that [binary_round] gives a number that needs no rounding:
    the number is [M * 2^e], and also [m0 * 2^e0] with [m0] of 53 digits. *)
Lemma binary_round_exact (s : bool) (M : positive) (e : Z) (m0 : positive) (e0 : Z) :
  2 ^ 52 <= Zpos m0 < 2 ^ 53 ->
  -1074 <= e0 <= 971 ->
  (e0 <= e /\ Zpos m0 = Zpos M * 2 ^ (e - e0)) \/
  (e < e0 /\ Zpos M = Zpos m0 * 2 ^ (e0 - e)) ->
  binary_round prec emax s M e = S754_finite s m0 e0.
Proof.
  intros Hm0 He0 Hrel.
  assert (Hd0 : Zpos (digits2_pos m0) = 53).
  { apply digits2_pos_unique. exact Hm0. }
  assert (Hfexp0 : fexp prec emax (53 + e0) = e0).
  { unfold fexp, SpecFloat.emin, prec, emax. lia. }
  assert (Haux : binary_round_aux prec emax s (Zpos m0) e0 loc_Exact = S754_finite s m0 e0).
  { unfold binary_round_aux, shr_fexp. cbn [Zdigits2 shr_record_of_loc].
    rewrite Hd0, Hfexp0, Z.sub_diag. cbn [shr loc_of_shr_record shr_m round_nearest_even].
    cbn [Zdigits2 shr_record_of_loc]. rewrite Hd0, Hfexp0, Z.sub_diag. cbn [shr shr_m].
    assert (Hle : (e0 <=? emax - prec) = true) by (apply Z.leb_le; unfold emax, prec; lia).
    rewrite Hle. reflexivity. }
  assert (HdM : Zpos (digits2_pos M) + e = 53 + e0).
  { destruct Hrel as [[Hle Hval]|[Hlt Hval]].
    - assert (Hpow : 0 < 2 ^ (e - e0)) by (apply Z.pow_pos_nonneg; lia).
      assert (Hj : e - e0 <= 52).
      { destruct (Z_le_gt_dec (e - e0) 52) as [|Hbig]; [assumption|exfalso].
        assert (2 ^ 53 <= 2 ^ (e - e0)) by (apply Z.pow_le_mono_r; lia). nia. }
      assert (HM : Zpos (digits2_pos M) = 53 - (e - e0)).
      { apply digits2_pos_unique.
        assert (H52 : 2 ^ 52 = 2 ^ (53 - (e - e0) - 1) * 2 ^ (e - e0)).
        { rewrite <- Z.pow_add_r by lia. f_equal; lia. }
        assert (H53 : 2 ^ 53 = 2 ^ (53 - (e - e0)) * 2 ^ (e - e0)).
        { rewrite <- Z.pow_add_r by lia. f_equal; lia. }
        split; nia. }
      lia.
    - assert (Hpow : 0 < 2 ^ (e0 - e)) by (apply Z.pow_pos_nonneg; lia).
      assert (HM : Zpos (digits2_pos M) = 53 + (e0 - e)).
      { apply digits2_pos_unique.
        assert (H52 : 2 ^ (53 + (e0 - e) - 1) = 2 ^ 52 * 2 ^ (e0 - e)).
        { rewrite <- Z.pow_add_r by lia. f_equal; lia. }
        assert (H53 : 2 ^ (53 + (e0 - e)) = 2 ^ 53 * 2 ^ (e0 - e)).
        { rewrite <- Z.pow_add_r by lia. f_equal; lia. }
        split; nia. }
      lia. }
  unfold binary_round. rewrite HdM, Hfexp0.
  destruct Hrel as [[Hle Hval]|[Hlt Hval]].
  - unfold shl_align. destruct (e0 - e) as [|j|j] eqn:Hj.
    + assert (e = e0) by lia. subst e. rewrite Z.sub_diag in Hval.
      assert (M = m0) by (cbn in Hval; lia). subst M. exact Haux.
    + lia.
    + assert (Hje : e - e0 = Zpos j) by lia. rewrite Hje in Hval.
      assert (HMm : Pos.iter xO M j = m0).
      { apply Pos2Z.inj. rewrite iter_xO_value. lia. }
      rewrite HMm. exact Haux.
  - unfold shl_align. destruct (e0 - e) as [|j|j] eqn:Hj; try lia.
    assert (HMm : M = Pos.iter xO m0 j).
    { apply Pos2Z.inj. rewrite iter_xO_value. lia. }
    unfold binary_round_aux, shr_fexp. cbn [Zdigits2 shr_record_of_loc].
    rewrite HdM, Hfexp0, Hj. cbn [shr]. rewrite HMm, iter_shr_1_exact.
    cbn [loc_of_shr_record shr_m round_nearest_even].
    cbn [Zdigits2 shr_record_of_loc].
    replace (e + Zpos j) with e0 by lia.
    rewrite Hd0, Hfexp0, Z.sub_diag. cbn [shr shr_m].
    assert (Hle : (e0 <=? emax - prec) = true) by (apply Z.leb_le; unfold emax, prec; lia).
    rewrite Hle. reflexivity.
Qed.

Lemma Zdigits2_bounds (k : Z) :
  k <> 0 -> 2 ^ (Zdigits2 k - 1) <= Z.abs k < 2 ^ Zdigits2 k.
Proof.
  destruct k as [|q|q]; intros Hk; [contradiction| |]; cbn [Zdigits2 Z.abs];
    apply digits2_pos_bounds.
Qed.

Lemma Zdigits2_range (k : Z) :
  k <> 0 -> Z.abs k < 2 ^ 53 -> 1 <= Zdigits2 k <= 53.
Proof.
  intros Hk Hlt. pose proof (Zdigits2_bounds k Hk) as [Hlo Hhi].
  assert (Hpos : 0 < Zdigits2 k) by (destruct k; [contradiction| |]; cbn; lia).
  split; [lia|].
  destruct (Z_le_gt_dec (Zdigits2 k) 53) as [|Hbig]; [assumption|exfalso].
  assert (2 ^ 53 <= 2 ^ (Zdigits2 k - 1)) by (apply Z.pow_le_mono_r; lia). lia.
Qed.

Lemma gridMantissa_value (k : Z) :
  k <> 0 -> Z.abs k < 2 ^ 53 ->
  Zpos (gridMantissa k) = Z.abs k * 2 ^ (53 - Zdigits2 k) /\
  2 ^ 52 <= Zpos (gridMantissa k) < 2 ^ 53.
Proof.
  intros Hk Hlt. pose proof (Zdigits2_bounds k Hk) as [Hlo Hhi].
  pose proof (Zdigits2_range k Hk Hlt) as Hd.
  assert (Hpow : 0 < 2 ^ (53 - Zdigits2 k)) by (apply Z.pow_pos_nonneg; lia).
  assert (Hval : Zpos (gridMantissa k) = Z.abs k * 2 ^ (53 - Zdigits2 k)).
  { unfold gridMantissa. rewrite Z2Pos.id; [reflexivity|]. nia. }
  split; [exact Hval|]. rewrite Hval.
  assert (H52 : 2 ^ 52 = 2 ^ (Zdigits2 k - 1) * 2 ^ (53 - Zdigits2 k)).
  { rewrite <- Z.pow_add_r by lia. f_equal; lia. }
  assert (H53 : 2 ^ 53 = 2 ^ Zdigits2 k * 2 ^ (53 - Zdigits2 k)).
  { rewrite <- Z.pow_add_r by lia. f_equal; lia. }
  split; nia.
Qed.

(** A non-zero [k] of at most 53 bits, scaled by any [2^t], normalises at
    the exponent [-p - t] to the float of mantissa [gridMantissa k] and
    exponent [gridExponent p k]: the float of value [k / 2^p]. *)
Lemma binary_normalize_grid (p k t : Z) :
  k <> 0 -> Z.abs k < 2 ^ 53 -> 0 <= p <= 1000 -> 0 <= t ->
  binary_normalize prec emax (k * 2 ^ t) (- p - t) false
  = S754_finite (k <? 0) (gridMantissa k) (gridExponent p k).
Proof.
  intros Hk Hlt Hp Ht.
  pose proof (gridMantissa_value k Hk Hlt) as [Hval Hm0].
  pose proof (Zdigits2_range k Hk Hlt) as Hd.
  assert (Hpt : 0 < 2 ^ t) by (apply Z.pow_pos_nonneg; lia).
  assert (He0 : -1074 <= gridExponent p k <= 971) by (unfold gridExponent; lia).
  assert (Hrel : forall M : positive, Zpos M = Z.abs k * 2 ^ t ->
            (gridExponent p k <= - p - t /\
             Zpos (gridMantissa k) = Zpos M * 2 ^ (- p - t - gridExponent p k)) \/
            (- p - t < gridExponent p k /\
             Zpos M = Zpos (gridMantissa k) * 2 ^ (gridExponent p k - (- p - t)))).
  { intros M HM. unfold gridExponent.
    destruct (Z_le_gt_dec (Zdigits2 k - 53 - p) (- p - t)) as [Hle|Hgt].
    - left. split; [exact Hle|]. rewrite Hval, HM.
      replace (53 - Zdigits2 k) with (t + (- p - t - (Zdigits2 k - 53 - p))) by lia.
      rewrite Z.pow_add_r by lia. lia.
    - right. split; [lia|]. rewrite Hval, HM.
      replace t with (53 - Zdigits2 k + (Zdigits2 k - 53 - p - (- p - t))) at 1 by lia.
      rewrite Z.pow_add_r by lia. lia. }
  destruct k as [|q|q]; [contradiction| |].
  - assert (Hprod : exists M, Zpos q * 2 ^ t = Zpos M).
    { exists (Z.to_pos (Zpos q * 2 ^ t)). rewrite Z2Pos.id; [reflexivity|]. nia. }
    destruct Hprod as [M HM]. rewrite HM. cbn [binary_normalize Z.ltb Z.compare].
    apply binary_round_exact; [exact Hm0 | exact He0 |].
    apply Hrel. cbn [Z.abs]. lia.
  - assert (Hprod : exists M, Zneg q * 2 ^ t = Zneg M).
    { exists (Z.to_pos (Zpos q * 2 ^ t)).
      change (Zneg q) with (- Zpos q). rewrite Z.mul_opp_l.
      rewrite <- Pos2Z.opp_pos, Z2Pos.id; [reflexivity|]. nia. }
    destruct Hprod as [M HM]. rewrite HM. cbn [binary_normalize Z.ltb Z.compare].
    apply binary_round_exact; [exact Hm0 | exact He0 |].
    apply Hrel. cbn [Z.abs]. change (Zneg q) with (- Zpos q) in HM.
    change (Zneg M) with (- Zpos M) in HM. lia.
Qed.

Lemma gridSF_nonzero (p k : Z) :
  k <> 0 -> Z.abs k < 2 ^ 53 -> 0 <= p <= 1000 ->
  gridSF p k = S754_finite (k <? 0) (gridMantissa k) (gridExponent p k).
Proof.
  intros Hk Hlt Hp. unfold gridSF.
  pose proof (binary_normalize_grid p k 0 Hk Hlt Hp (Z.le_refl 0)) as H.
  rewrite Z.pow_0_r, Z.mul_1_r, Z.sub_0_r in H. exact H.
Qed.

Lemma gridSF_zero (p : Z) : gridSF p 0 = S754_zero false.
Proof. reflexivity. Qed.

Lemma shl_align_value (m : positive) (e ez : Z) :
  ez <= e ->
  Zpos (fst (shl_align m e ez)) = Zpos m * 2 ^ (e - ez).
Proof.
  intros Hle. unfold shl_align. destruct (ez - e) as [|j|j] eqn:Hj.
  - replace (e - ez) with 0 by lia. cbn [fst]. lia.
  - lia.
  - cbn [fst]. rewrite iter_xO_value. f_equal. f_equal. lia.
Qed.

(** The aligned, signed mantissa of a grid float at a common exponent. *)
Lemma grid_aligned (p k ez : Z) :
  k <> 0 -> Z.abs k < 2 ^ 53 -> 0 <= p <= 1000 ->
  ez <= gridExponent p k ->
  cond_Zopp (k <? 0) (Zpos (fst (shl_align (gridMantissa k) (gridExponent p k) ez)))
  = k * 2 ^ (- p - ez).
Proof.
  intros Hk Hlt Hp Hez.
  pose proof (gridMantissa_value k Hk Hlt) as [Hval _].
  pose proof (Zdigits2_range k Hk Hlt) as Hd.
  rewrite shl_align_value by exact Hez. rewrite Hval.
  assert (Hpow : Z.abs k * 2 ^ (53 - Zdigits2 k) * 2 ^ (gridExponent p k - ez)
                 = Z.abs k * 2 ^ (- p - ez)).
  { unfold gridExponent in *.
    rewrite <- Z.mul_assoc, <- Z.pow_add_r by lia.
    f_equal. f_equal. lia. }
  rewrite Hpow. unfold cond_Zopp.
  destruct k as [|q|q]; [contradiction| |]; cbn [Z.ltb Z.compare Z.abs].
  - reflexivity.
  - change (Zneg q) with (- Zpos q). lia.
Qed.

Lemma SFadd_grid (p a b : Z) :
  0 <= p <= 1000 ->
  Z.abs a < 2 ^ 53 -> Z.abs b < 2 ^ 53 -> Z.abs (a + b) < 2 ^ 53 ->
  SF64add (gridSF p a) (gridSF p b) = gridSF p (a + b).
Proof.
  intros Hp Ha Hb Hab.
  destruct (Z.eq_dec a 0) as [->|Hna].
  - rewrite gridSF_zero, Z.add_0_l.
    destruct (Z.eq_dec b 0) as [->|Hnb]; [reflexivity|].
    rewrite (gridSF_nonzero p b Hnb Hb Hp). reflexivity.
  - rewrite (gridSF_nonzero p a Hna Ha Hp).
    destruct (Z.eq_dec b 0) as [->|Hnb].
    + rewrite gridSF_zero, Z.add_0_r, (gridSF_nonzero p a Hna Ha Hp). reflexivity.
    + rewrite (gridSF_nonzero p b Hnb Hb Hp).
      unfold SF64add, SFadd.
      set (ez := Z.min (gridExponent p a) (gridExponent p b)).
      pose proof (Zdigits2_range a Hna Ha) as Hda.
      pose proof (Zdigits2_range b Hnb Hb) as Hdb.
      assert (Hea : ez <= gridExponent p a) by (unfold ez; lia).
      assert (Heb : ez <= gridExponent p b) by (unfold ez; lia).
      rewrite (grid_aligned p a ez Hna Ha Hp Hea), (grid_aligned p b ez Hnb Hb Hp Heb).
      rewrite <- Z.mul_add_distr_r.
      assert (Ht : 0 <= - p - ez) by (unfold ez, gridExponent; lia).
      replace (binary_normalize prec emax ((a + b) * 2 ^ (- p - ez)) ez false)
        with (binary_normalize prec emax ((a + b) * 2 ^ (- p - ez)) (- p - (- p - ez)) false)
        by (f_equal; lia).
      destruct (Z.eq_dec (a + b) 0) as [Hz|Hnz].
      * rewrite Hz. reflexivity.
      * rewrite (binary_normalize_grid p (a + b) (- p - ez) Hnz Hab Hp Ht).
        symmetry. apply gridSF_nonzero; assumption.
Qed.

Lemma SFsub_grid (p a b : Z) :
  0 <= p <= 1000 ->
  Z.abs a < 2 ^ 53 -> Z.abs b < 2 ^ 53 -> Z.abs (a - b) < 2 ^ 53 ->
  SF64sub (gridSF p a) (gridSF p b) = gridSF p (a - b).
Proof.
  intros Hp Ha Hb Hab.
  destruct (Z.eq_dec a 0) as [->|Hna].
  - rewrite gridSF_zero, Z.sub_0_l.
    destruct (Z.eq_dec b 0) as [->|Hnb]; [reflexivity|].
    assert (Hnb' : - b <> 0) by lia.
    assert (Hb' : Z.abs (- b) < 2 ^ 53) by (rewrite Z.abs_opp; exact Hb).
    rewrite (gridSF_nonzero p b Hnb Hb Hp), (gridSF_nonzero p (- b) Hnb' Hb' Hp).
    unfold SF64sub, SFsub, gridMantissa, gridExponent.
    destruct b as [|q|q]; [contradiction| |]; reflexivity.
  - rewrite (gridSF_nonzero p a Hna Ha Hp).
    destruct (Z.eq_dec b 0) as [->|Hnb].
    + rewrite gridSF_zero, Z.sub_0_r, (gridSF_nonzero p a Hna Ha Hp). reflexivity.
    + rewrite (gridSF_nonzero p b Hnb Hb Hp).
      unfold SF64sub, SFsub.
      set (ez := Z.min (gridExponent p a) (gridExponent p b)).
      pose proof (Zdigits2_range a Hna Ha) as Hda.
      pose proof (Zdigits2_range b Hnb Hb) as Hdb.
      assert (Hea : ez <= gridExponent p a) by (unfold ez; lia).
      assert (Heb : ez <= gridExponent p b) by (unfold ez; lia).
      rewrite (grid_aligned p a ez Hna Ha Hp Hea), (grid_aligned p b ez Hnb Hb Hp Heb).
      rewrite <- Z.mul_sub_distr_r.
      assert (Ht : 0 <= - p - ez) by (unfold ez, gridExponent; lia).
      replace (binary_normalize prec emax ((a - b) * 2 ^ (- p - ez)) ez false)
        with (binary_normalize prec emax ((a - b) * 2 ^ (- p - ez)) (- p - (- p - ez)) false)
        by (f_equal; lia).
      destruct (Z.eq_dec (a - b) 0) as [Hz|Hnz].
      * rewrite Hz. reflexivity.
      * rewrite (binary_normalize_grid p (a - b) (- p - ez) Hnz Hab Hp Ht).
        symmetry. apply gridSF_nonzero; assumption.
Qed.

Lemma gridMantissa_opp (k : Z) : gridMantissa (- k) = gridMantissa k.
Proof. destruct k; reflexivity. Qed.

Lemma gridExponent_opp (p k : Z) : gridExponent p (- k) = gridExponent p k.
Proof. destruct k; reflexivity. Qed.

Lemma gridMantissa_abs (k : Z) : gridMantissa (Z.abs k) = gridMantissa k.
Proof. destruct k; reflexivity. Qed.

Lemma gridExponent_abs (p k : Z) : gridExponent p (Z.abs k) = gridExponent p k.
Proof. destruct k; reflexivity. Qed.

Lemma SFabs_grid (p k : Z) :
  0 <= p <= 1000 -> Z.abs k < 2 ^ 53 ->
  SFabs (gridSF p k) = gridSF p (Z.abs k).
Proof.
  intros Hp Hk. destruct (Z.eq_dec k 0) as [->|Hnz]; [reflexivity|].
  assert (Hnz' : Z.abs k <> 0) by lia.
  assert (Hk' : Z.abs (Z.abs k) < 2 ^ 53) by lia.
  rewrite (gridSF_nonzero p k Hnz Hk Hp), (gridSF_nonzero p (Z.abs k) Hnz' Hk' Hp).
  rewrite gridMantissa_abs, gridExponent_abs. cbn [SFabs].
  assert (Hs : (Z.abs k <? 0) = false) by (apply Z.ltb_ge; lia).
  rewrite Hs. reflexivity.
Qed.

(** On positive grid numbers the order of (exponent, mantissa) pairs is the
    order of the numbers. *)
Lemma grid_compare_pos (p a b : Z) :
  0 < a < 2 ^ 53 -> 0 < b < 2 ^ 53 ->
  match gridExponent p a ?= gridExponent p b with
  | Lt => Lt
  | Gt => Gt
  | Eq => Pos.compare_cont Eq (gridMantissa a) (gridMantissa b)
  end = (a ?= b).
Proof.
  intros Ha Hb.
  assert (Hna : a <> 0) by lia. assert (Hnb : b <> 0) by lia.
  assert (Haa : Z.abs a < 2 ^ 53) by lia. assert (Hbb : Z.abs b < 2 ^ 53) by lia.
  pose proof (Zdigits2_bounds a Hna) as Hda. pose proof (Zdigits2_bounds b Hnb) as Hdb.
  pose proof (Zdigits2_range a Hna Haa) as Hra. pose proof (Zdigits2_range b Hnb Hbb) as Hrb.
  pose proof (gridMantissa_value a Hna Haa) as [Hma _].
  pose proof (gridMantissa_value b Hnb Hbb) as [Hmb _].
  rewrite Z.abs_eq in Hda, Hdb, Hma, Hmb by lia.
  unfold gridExponent.
  destruct (Z.compare_spec (Zdigits2 a - 53 - p) (Zdigits2 b - 53 - p)) as [Heq|Hlt|Hgt].
  - assert (Hd : Zdigits2 a = Zdigits2 b) by lia.
    change (Pos.compare_cont Eq (gridMantissa a) (gridMantissa b))
      with (Pos.compare (gridMantissa a) (gridMantissa b)).
    rewrite Pos2Z.inj_compare, Hma, Hmb, Hd.
    assert (Hc : 0 < 2 ^ (53 - Zdigits2 b)) by (apply Z.pow_pos_nonneg; lia).
    destruct (Z.compare_spec a b) as [Hab|Hab|Hab].
    + apply Z.compare_eq_iff. rewrite Hab. reflexivity.
    + apply Z.compare_lt_iff. nia.
    + apply Z.compare_gt_iff. nia.
  - symmetry. apply Z.compare_lt_iff.
    assert (2 ^ Zdigits2 a <= 2 ^ (Zdigits2 b - 1)) by (apply Z.pow_le_mono_r; lia).
    lia.
  - symmetry. apply Z.compare_gt_iff.
    assert (2 ^ Zdigits2 b <= 2 ^ (Zdigits2 a - 1)) by (apply Z.pow_le_mono_r; lia).
    lia.
Qed.

Lemma SFcompare_grid (p a b : Z) :
  0 <= p <= 1000 -> Z.abs a < 2 ^ 53 -> Z.abs b < 2 ^ 53 ->
  SFcompare (gridSF p a) (gridSF p b) = Some (a ?= b).
Proof.
  intros Hp Ha Hb.
  destruct (Z.eq_dec a 0) as [->|Hna]; destruct (Z.eq_dec b 0) as [->|Hnb].
  - reflexivity.
  - rewrite gridSF_zero, (gridSF_nonzero p b Hnb Hb Hp). cbn [SFcompare].
    destruct b; [contradiction| |]; reflexivity.
  - rewrite gridSF_zero, (gridSF_nonzero p a Hna Ha Hp). cbn [SFcompare].
    destruct a; [contradiction| |]; reflexivity.
  - rewrite (gridSF_nonzero p a Hna Ha Hp), (gridSF_nonzero p b Hnb Hb Hp).
    cbn [SFcompare]. f_equal.
    destruct (Z.ltb_spec a 0) as [Han|Hap]; destruct (Z.ltb_spec b 0) as [Hbn|Hbp].
    + rewrite <- (gridExponent_opp p a), <- (gridExponent_opp p b).
      rewrite <- (gridMantissa_opp a), <- (gridMantissa_opp b).
      assert (Hswap : forall c1 c2 : comparison,
                match c1 with Lt => Gt | Gt => Lt | Eq => CompOpp c2 end
                = CompOpp (match c1 with Lt => Lt | Gt => Gt | Eq => c2 end))
        by (intros [] c2; reflexivity).
      rewrite Hswap, (grid_compare_pos p (- a) (- b)) by lia.
      rewrite <- Z.compare_antisym. rewrite Z.compare_opp. reflexivity.
    + symmetry. apply Z.compare_lt_iff. lia.
    + symmetry. apply Z.compare_gt_iff. lia.
    + apply grid_compare_pos; lia.
Qed.

Lemma SFltb_grid (p a b : Z) :
  0 <= p <= 1000 -> Z.abs a < 2 ^ 53 -> Z.abs b < 2 ^ 53 ->
  SFltb (gridSF p a) (gridSF p b) = (a <? b).
Proof.
  intros Hp Ha Hb. unfold SFltb. rewrite (SFcompare_grid p a b Hp Ha Hb).
  unfold Z.ltb. destruct (a ?= b); reflexivity.
Qed.

Lemma gridSF_valid (p k : Z) :
  0 <= p <= 1000 -> Z.abs k < 2 ^ 53 ->
  SpecFloat.valid_binary prec emax (gridSF p k) = true.
Proof.
  intros Hp Hk. destruct (Z.eq_dec k 0) as [->|Hnz]; [reflexivity|].
  rewrite (gridSF_nonzero p k Hnz Hk Hp).
  pose proof (gridMantissa_value k Hnz Hk) as [_ Hm].
  pose proof (Zdigits2_range k Hnz Hk) as Hd.
  cbn [valid_binary]. unfold bounded, canonical_mantissa.
  rewrite (digits2_pos_unique _ 53 Hm).
  apply andb_true_iff. split.
  - apply Z.eqb_eq. unfold fexp, SpecFloat.emin, prec, emax, gridExponent. lia.
  - apply Z.leb_le. unfold prec, emax, gridExponent. lia.
Qed.

Lemma gridSF_scaled (p z : Z) :
  0 <= p <= 1000 -> z <> 0 -> Z.abs z < 2 ^ 53 ->
  gridSF p (z * 2 ^ p) = gridSF 0 z.
Proof.
  intros Hp Hz Hlt. unfold gridSF at 1.
  replace (- p) with (- 0 - p) by lia.
  rewrite (binary_normalize_grid 0 z p Hz Hlt) by lia.
  symmetry. apply gridSF_nonzero; [assumption | assumption | lia].
Qed.

Lemma gridFloat_onGrid (p k : Z) :
  0 <= p <= 1000 -> Z.abs k < 2 ^ 53 -> onGrid p k (gridFloat p k).
Proof.
  intros Hp Hk. unfold onGrid, gridFloat.
  apply Prim2SF_SF2Prim, gridSF_valid; assumption.
Qed.

Lemma onGrid_unique (p k : Z) (x : float) :
  onGrid p k x -> x = gridFloat p k.
Proof.
  unfold onGrid, gridFloat. intros <-. symmetry. apply SF2Prim_Prim2SF.
Qed.

Lemma literal_180 : Prim2SF (floatOfZ 180) = gridSF 0 180.
Proof. vm_compute. reflexivity. Qed.

Lemma literal_360 : Prim2SF (floatOfZ 360) = gridSF 0 360.
Proof. vm_compute. reflexivity. Qed.

Lemma literal_neg360 : Prim2SF (floatOfZ (-360)) = gridSF 0 (-360).
Proof. vm_compute. reflexivity. Qed.

(** *** The loop on the grid *)

Section GridLoop.

Variables (p kL : Z) (L : float).
Hypothesis Hp : 0 <= p <= 1000.
Hypothesis HL : onGrid p kL L.

Lemma tooFar_grid (kc : Z) (c : float) :
  onGrid p kc c ->
  Z.abs kL < 2 ^ 53 -> Z.abs kc < 2 ^ 53 -> Z.abs (kL - kc) < 2 ^ 53 ->
  180 * 2 ^ p < 2 ^ 53 ->
  tooFar L c = (180 * 2 ^ p <? Z.abs (kL - kc)).
Proof.
  intros Hc HkL Hkc Hgap H180.
  assert (Hpow : 0 < 2 ^ p) by (apply Z.pow_pos_nonneg; lia).
  rewrite tooFar_float_spec. unfold onGrid in HL, Hc. rewrite HL, Hc.
  rewrite (SFsub_grid p kL kc Hp HkL Hkc Hgap).
  rewrite (SFabs_grid p (kL - kc) Hp Hgap).
  rewrite literal_180, <- (gridSF_scaled p 180 Hp) by lia.
  apply SFltb_grid; lia.
Qed.

Lemma ngt_grid (kc : Z) (c : float) :
  onGrid p kc c ->
  Z.abs kL < 2 ^ 53 -> Z.abs kc < 2 ^ 53 ->
  ngt L c = (kc <? kL).
Proof.
  intros Hc HkL Hkc. cbn [ngt float_JsNumber].
  rewrite FloatAxioms.ltb_spec. unfold onGrid in HL, Hc. rewrite HL, Hc.
  apply SFltb_grid; assumption.
Qed.

Lemma shiftLng_grid (kc : Z) (c : float) :
  onGrid p kc c ->
  Z.abs kL < 2 ^ 53 -> Z.abs kc < 2 ^ 53 ->
  Z.abs kc + 360 * 2 ^ p < 2 ^ 53 ->
  onGrid p (kc + (if kc <? kL then 360 * 2 ^ p else - 360 * 2 ^ p)) (shiftLng L c).
Proof.
  intros Hc HkL Hkc Hroom.
  assert (Hpow : 0 < 2 ^ p) by (apply Z.pow_pos_nonneg; lia).
  unfold shiftLng. rewrite (ngt_grid kc c Hc HkL Hkc).
  unfold onGrid. cbn [nadd numOfZ float_JsNumber]. rewrite FloatAxioms.add_spec.
  unfold onGrid in Hc. rewrite Hc.
  destruct (kc <? kL).
  - rewrite literal_360, <- (gridSF_scaled p 360 Hp) by lia.
    apply SFadd_grid; lia.
  - rewrite literal_neg360, <- (gridSF_scaled p (-360) Hp) by lia.
    replace (- 360 * 2 ^ p) with (-360 * 2 ^ p) by lia.
    apply SFadd_grid; lia.
Qed.

(** With a gap of at most (180 + 360 n) / 2^p-units, n passes end the
    binary64 loop on the grid, at the start moved by a whole number of
    turns and within 180 of the click. *)
Lemma normalizeLng_grid_run (W : Z) :
  Z.abs kL + W + 360 * 2 ^ p < 2 ^ 53 ->
  forall (n : nat) (kc : Z) (c : float),
    onGrid p kc c ->
    Z.abs (kL - kc) <= W ->
    Z.abs (kL - kc) <= (180 + 360 * Z.of_nat n) * 2 ^ p ->
    exists (kr j : Z),
      normalizeLng n L c = Some (gridFloat p kr) /\
      kr = kc + j * (360 * 2 ^ p) /\
      Z.abs (kL - kr) <= 180 * 2 ^ p /\
      Z.abs kr < 2 ^ 53.
Proof.
  intros Hroom.
  assert (Hpow : 0 < 2 ^ p) by (apply Z.pow_pos_nonneg; lia).
  induction n as [|n IH]; intros kc c Hc HW Hgap.
  - assert (Hfar : tooFar L c = false).
    { rewrite (tooFar_grid kc c Hc) by lia. apply Z.ltb_ge. lia. }
    exists kc, 0. rewrite (normalizeLng_done 0 L c Hfar), (onGrid_unique p kc c Hc).
    repeat split; lia.
  - destruct (tooFar L c) eqn:Hfar.
    + rewrite (normalizeLng_step n L c Hfar).
      rewrite (tooFar_grid kc c Hc) in Hfar by lia. apply Z.ltb_lt in Hfar.
      pose proof (shiftLng_grid kc c Hc) as Hshift.
      assert (Hstep : onGrid p (kc + (if kc <? kL then 360 * 2 ^ p else - 360 * 2 ^ p))
                        (shiftLng L c)) by (apply Hshift; lia).
      destruct (Z.ltb_spec kc kL) as [Hlt|Hge].
      * destruct (IH _ _ Hstep) as (kr & j & Hrun & Hkr & Hnear & Hbound); [lia | lia |].
        exists kr, (j + 1). repeat split; [exact Hrun | lia | exact Hnear | exact Hbound].
      * destruct (IH _ _ Hstep) as (kr & j & Hrun & Hkr & Hnear & Hbound); [lia | lia |].
        exists kr, (j - 1). repeat split; [exact Hrun | lia | exact Hnear | exact Hbound].
    + exists kc, 0. rewrite (normalizeLng_done (S n) L c Hfar), (onGrid_unique p kc c Hc).
      rewrite (tooFar_grid kc c Hc) in Hfar by lia. apply Z.ltb_ge in Hfar.
      repeat split; lia.
Qed.

End GridLoop.

Lemma grid_room_exponent (p kL kF : Z) :
  0 <= p -> Z.abs kL + Z.abs kF + 180 * 2 ^ p < 2 ^ 52 -> 0 <= p <= 1000.
Proof.
  intros Hp Hroom. split; [exact Hp|].
  assert (Hpow : 0 < 2 ^ p) by (apply Z.pow_pos_nonneg; lia).
  destruct (Z_le_gt_dec p 1000) as [|Hbig]; [assumption|exfalso].
  assert (2 ^ 52 <= 2 ^ p) by (apply Z.pow_le_mono_r; lia). lia.
Qed.

Lemma gridTurns_enough (p kL kF : Z) :
  0 <= p ->
  Z.abs (kL - kF) <= (180 + 360 * Z.of_nat (gridTurns p kL kF)) * 2 ^ p.
Proof.
  intros Hp. unfold gridTurns.
  assert (Hpow : 0 < 2 ^ p) by (apply Z.pow_pos_nonneg; lia).
  assert (Hq : 0 <= Z.abs (kL - kF) / (360 * 2 ^ p)) by (apply Z.div_pos; lia).
  rewrite Z2Nat.id by lia.
  pose proof (Z.mod_pos_bound (Z.abs (kL - kF)) (360 * 2 ^ p)) as Hmod.
  pose proof (Z.div_mod (Z.abs (kL - kF)) (360 * 2 ^ p)) as Hdiv.
  nia.
Qed.

(** The loop on the grid, for the longitudes [kL / 2^p] and [kF / 2^p]. *)
Lemma grid_loop (p kL kF : Z) :
  0 <= p ->
  Z.abs kL + Z.abs kF + 180 * 2 ^ p < 2 ^ 52 ->
  exists (kr j : Z),
    normalizeLng (gridTurns p kL kF) (gridFloat p kL) (gridFloat p kF)
    = Some (gridFloat p kr) /\
    kr = kF + j * (360 * 2 ^ p) /\
    Z.abs (kL - kr) <= 180 * 2 ^ p.
Proof.
  intros Hp0 Hroom.
  assert (Hpow : 0 < 2 ^ p) by (apply Z.pow_pos_nonneg; lia).
  assert (Hp : 0 <= p <= 1000) by (apply grid_room_exponent with kL kF; assumption).
  assert (HL : onGrid p kL (gridFloat p kL)) by (apply gridFloat_onGrid; lia).
  assert (HF : onGrid p kF (gridFloat p kF)) by (apply gridFloat_onGrid; lia).
  destruct (normalizeLng_grid_run p kL (gridFloat p kL) Hp HL (Z.abs kL + Z.abs kF)
              ltac:(lia) (gridTurns p kL kF) kF (gridFloat p kF) HF ltac:(lia)
              (gridTurns_enough p kL kF Hp0))
    as (kr & j & Hrun & Hkr & Hnear & _).
  exists kr, j. auto.
Qed.

(** The value of [gridFloat p k] is [k / 2^p]. *)
Lemma gridFloat_exactValue (p k : Z) :
  0 <= p <= 1000 -> Z.abs k < 2 ^ 53 ->
  exists q : Q,
    exactValue (gridFloat p k) = Some q /\ (q == inject_Z k * Qpower 2 (- p))%Q.
Proof.
  intros Hp Hk. unfold exactValue, gridFloat.
  rewrite Prim2SF_SF2Prim by (apply gridSF_valid; assumption).
  destruct (Z.eq_dec k 0) as [->|Hnz].
  - exists 0%Q. split; [reflexivity|]. change (inject_Z 0) with 0%Q. ring.
  - rewrite (gridSF_nonzero p k Hnz Hk Hp).
    pose proof (gridMantissa_value k Hnz Hk) as [Hval _].
    pose proof (Zdigits2_range k Hnz Hk) as Hd.
    eexists. split; [reflexivity|].
    assert (Hm : (inject_Z (Zpos (gridMantissa k)) * Qpower 2 (gridExponent p k)
                  == inject_Z (Z.abs k) * Qpower 2 (- p))%Q).
    { rewrite Hval, inject_Z_mult.
      rewrite (Zpower_Qpower 2 (53 - Zdigits2 k)) by lia.
      change (inject_Z 2) with 2%Q.
      rewrite <- Qmult_assoc, <- Qpower_plus by (intros H; discriminate H).
      unfold gridExponent.
      replace (53 - Zdigits2 k + (Zdigits2 k - 53 - p)) with (- p) by lia.
      reflexivity. }
    destruct k as [|q|q]; [contradiction| |]; cbn [Z.ltb Z.compare].
    + exact Hm.
    + cbn [Z.abs] in Hm.
      transitivity (- (inject_Z (Zpos (gridMantissa (Zneg q)))
                       * Qpower 2 (gridExponent p (Zneg q))))%Q; [ring|].
      rewrite Hm. change (inject_Z (Zneg q)) with (- inject_Z (Zpos q))%Q. ring.
Qed.

End GridArithmetic.


(* ================================================================= *)
(** ** Binary64 arithmetic with rounding *)

(** The standard library specifies [+] and [-] on binary64 by aligning the
    mantissas, adding them as integers and rounding the sum with [shr] and
    [round_nearest_even].  The lemmas below bring that to one rounding
    function on the integers, [round64], and then follow the loop. *)

Section Rounding64.

Local Open Scope Z_scope.

Lemma shr_1_nonneg (m : Z) (r s : bool) :
  0 <= m ->
  shr_1 {| shr_m := m; shr_r := r; shr_s := s |}
  = {| shr_m := m / 2; shr_r := Z.odd m; shr_s := r || s |}.
Proof.
  intros Hm. rewrite <- Z.div2_div.
  destruct m as [|[q|q|]|q]; try lia; reflexivity.
Qed.

Lemma shiftedRecord_0 (M : Z) :
  shiftedRecord M 0 = {| shr_m := M; shr_r := false; shr_s := false |}.
Proof.
  unfold shiftedRecord. cbn [Z.pow Z.pow_pos Pos.iter Z.mul Pos.mul].
  rewrite Z.div_1_r, Z.mod_1_r. reflexivity.
Qed.

Lemma shr_1_shiftedRecord (M k : Z) :
  0 <= M -> 0 <= k -> shr_1 (shiftedRecord M k) = shiftedRecord M (k + 1).
Proof.
  intros HM Hk. unfold shiftedRecord.
  assert (Hpow : 0 < 2 ^ k) by (apply Z.pow_pos_nonneg; lia).
  assert (Hsucc : 2 ^ (k + 1) = 2 ^ k * 2) by (rewrite Z.pow_add_r by lia; reflexivity).
  assert (Hpred : k + 1 - 1 = k) by lia.
  assert (Hm : 0 <= M / 2 ^ k) by (apply Z.div_pos; lia).
  rewrite shr_1_nonneg by exact Hm.
  rewrite Hpred, Hsucc.
  rewrite <- Z.div_div by lia.
  rewrite Z.rem_mul_r by lia.
  pose proof (Z.mod_pos_bound M (2 ^ k) Hpow) as Hr.
  set (m := M / 2 ^ k) in *. set (r := M mod 2 ^ k) in *.
  pose proof (Z.mod_pos_bound m 2 ltac:(lia)) as Hb.
  assert (Hodd : Z.odd m = (m mod 2 =? 1)).
  { rewrite Zmod_odd. destruct (Z.odd m); reflexivity. }
  rewrite Hodd.
  assert (Hlow : k = 0 \/ 2 ^ k = 2 * 2 ^ (k - 1)).
  { destruct (Z.eq_dec k 0) as [->|Hnz]; [left; reflexivity|right].
    replace k with (k - 1 + 1) at 1 by lia. rewrite Z.pow_add_r by lia. lia. }
  assert (Hr0 : k = 0 -> r = 0).
  { intros ->. subst r. apply Z.mod_1_r. }
  set (b := m mod 2) in *.
  assert (Hb01 : b = 0 \/ b = 1) by lia.
  f_equal.
  - destruct Hb01 as [-> | ->]; rewrite ?Z.mul_0_r, ?Z.mul_1_r, ?Z.add_0_r; cbn [Z.eqb].
    + symmetry. apply Z.leb_gt. lia.
    + symmetry. apply Z.leb_le. lia.
  - destruct Hb01 as [-> | ->]; rewrite ?Z.mul_0_r, ?Z.mul_1_r, ?Z.add_0_r.
    + replace (2 ^ k * 2 <=? 2 * r) with false by (symmetry; apply Z.leb_gt; lia).
      destruct (Z.leb_spec (2 ^ k) (2 * r)); cbn [orb].
      * destruct (Z.eqb_spec r 0); [lia|reflexivity].
      * reflexivity.
    + replace (2 ^ k * 2 <=? 2 * (r + 2 ^ k)) with true by (symmetry; apply Z.leb_le; lia).
      destruct (Z.leb_spec (2 ^ k) (2 * r)); cbn [orb].
      * destruct (Z.eqb_spec (r + 2 ^ k) (2 ^ k)); [lia|reflexivity].
      * destruct (Z.eqb_spec r 0), (Z.eqb_spec (r + 2 ^ k) (2 ^ k)); cbn [negb];
          try reflexivity; lia.
Qed.

Lemma iter_shr_1_shiftedRecord (M : Z) (p : positive) :
  0 <= M ->
  forall k, 0 <= k ->
    iter_pos shr_1 p (shiftedRecord M k) = shiftedRecord M (k + Zpos p).
Proof.
  intros HM. induction p as [p IH|p IH|]; intros k Hk; cbn [iter_pos].
  - rewrite shr_1_shiftedRecord, IH, IH by lia. f_equal. lia.
  - rewrite IH, IH by lia. f_equal. lia.
  - apply shr_1_shiftedRecord; assumption.
Qed.

Lemma round_shiftedRecord (M k : Z) :
  0 <= k ->
  round_nearest_even (shr_m (shiftedRecord M k)) (loc_of_shr_record (shiftedRecord M k))
  = roundShift M k.
Proof.
  intros Hk. unfold shiftedRecord, roundShift. cbn [shr_m loc_of_shr_record].
  assert (Hpow : 0 < 2 ^ k) by (apply Z.pow_pos_nonneg; lia).
  pose proof (Z.mod_pos_bound M (2 ^ k) Hpow) as Hr.
  set (r := M mod 2 ^ k) in *.
  assert (Hlow : (k = 0 /\ r = 0) \/ 2 ^ k = 2 * 2 ^ (k - 1)).
  { destruct (Z.eq_dec k 0) as [->|Hnz].
    - left. split; [reflexivity|]. subst r. apply Z.mod_1_r.
    - right. replace k with (k - 1 + 1) at 1 by lia. rewrite Z.pow_add_r by lia. lia. }
  destruct (Z.leb_spec (2 ^ k) (2 * r)) as [Hge|Hlt].
  - destruct (Z.ltb_spec (2 * r) (2 ^ k)); [lia|].
    destruct (Z.eqb_spec r (2 ^ (k - 1))) as [Heq|Hne]; cbn [negb round_nearest_even].
    + destruct (Z.ltb_spec (2 ^ k) (2 * r)); [|reflexivity].
      exfalso. destruct Hlow as [[-> ->]|Hlow]; [cbn in *; lia|lia].
    + destruct (Z.ltb_spec (2 ^ k) (2 * r)); [reflexivity|].
      exfalso. destruct Hlow as [[-> ->]|Hlow]; [cbn in *; lia|lia].
  - destruct (Z.ltb_spec (2 * r) (2 ^ k)); [|lia].
    destruct (Z.eqb_spec r 0); reflexivity.
Qed.

(** ** Rounding to nearest on the integers *)

Lemma roundShift_bounds (N n : Z) :
  0 <= n -> N / 2 ^ n <= roundShift N n <= N / 2 ^ n + 1.
Proof.
  intros Hn. unfold roundShift.
  destruct (2 * (N mod 2 ^ n) <? 2 ^ n); [lia|].
  destruct (2 ^ n <? 2 * (N mod 2 ^ n)); [lia|].
  destruct (Z.even (N / 2 ^ n)); lia.
Qed.

Lemma roundShift_error (N n : Z) :
  0 <= n -> 2 * Z.abs (roundShift N n * 2 ^ n - N) <= 2 ^ n.
Proof.
  intros Hn. unfold roundShift.
  assert (Hpow : 0 < 2 ^ n) by (apply Z.pow_pos_nonneg; lia).
  pose proof (Z.mod_pos_bound N (2 ^ n) Hpow) as Hr.
  pose proof (Z.div_mod N (2 ^ n) ltac:(lia)) as Hdiv.
  set (q := N / 2 ^ n) in *. set (r := N mod 2 ^ n) in *.
  destruct (Z.ltb_spec (2 * r) (2 ^ n)); [nia|].
  destruct (Z.ltb_spec (2 ^ n) (2 * r)); [nia|].
  destruct (Z.even q); nia.
Qed.

Lemma roundShift_exact (a n : Z) :
  0 <= n -> roundShift (a * 2 ^ n) n = a.
Proof.
  intros Hn. unfold roundShift.
  assert (Hpow : 0 < 2 ^ n) by (apply Z.pow_pos_nonneg; lia).
  rewrite Z.div_mul, Z.mod_mul by lia.
  destruct (Z.ltb_spec (2 * 0) (2 ^ n)); [reflexivity|lia].
Qed.

Lemma roundShift_scale (M n t : Z) :
  0 <= n -> 0 <= t -> roundShift (M * 2 ^ t) (n + t) = roundShift M n.
Proof.
  intros Hn Ht. unfold roundShift.
  assert (Hpn : 0 < 2 ^ n) by (apply Z.pow_pos_nonneg; lia).
  assert (Hpt : 0 < 2 ^ t) by (apply Z.pow_pos_nonneg; lia).
  rewrite Z.pow_add_r by lia.
  rewrite Z.div_mul_cancel_r by lia.
  rewrite Z.mul_mod_distr_r by lia.
  set (q := M / 2 ^ n). set (r := M mod 2 ^ n).
  assert (H1 : (2 * (r * 2 ^ t) <? 2 ^ n * 2 ^ t) = (2 * r <? 2 ^ n)).
  { destruct (Z.ltb_spec (2 * (r * 2 ^ t)) (2 ^ n * 2 ^ t)), (Z.ltb_spec (2 * r) (2 ^ n));
      try reflexivity; nia. }
  assert (H2 : (2 ^ n * 2 ^ t <? 2 * (r * 2 ^ t)) = (2 ^ n <? 2 * r)).
  { destruct (Z.ltb_spec (2 ^ n * 2 ^ t) (2 * (r * 2 ^ t))), (Z.ltb_spec (2 ^ n) (2 * r));
      try reflexivity; nia. }
  rewrite H1, H2. reflexivity.
Qed.

Lemma roundShift_le_even (N n a : Z) :
  0 <= n -> Z.even a = true -> 2 * N <= 2 * a * 2 ^ n + 2 ^ n -> roundShift N n <= a.
Proof.
  intros Hn Heven Hle. unfold roundShift.
  assert (Hpow : 0 < 2 ^ n) by (apply Z.pow_pos_nonneg; lia).
  pose proof (Z.mod_pos_bound N (2 ^ n) Hpow) as Hr.
  pose proof (Z.div_mod N (2 ^ n) ltac:(lia)) as Hdiv.
  set (q := N / 2 ^ n) in *. set (r := N mod 2 ^ n) in *.
  assert (Hq : q <= a) by nia.
  destruct (Z.ltb_spec (2 * r) (2 ^ n)); [exact Hq|].
  destruct (Z.ltb_spec (2 ^ n) (2 * r)); [nia|].
  destruct (Z.eq_dec q a) as [->|Hne]; [rewrite Heven; lia|].
  destruct (Z.even q); lia.
Qed.

Lemma roundShift_ge_even (N n a : Z) :
  0 <= n -> Z.even a = true -> 2 * a * 2 ^ n - 2 ^ n <= 2 * N -> a <= roundShift N n.
Proof.
  intros Hn Heven Hle. unfold roundShift.
  assert (Hpow : 0 < 2 ^ n) by (apply Z.pow_pos_nonneg; lia).
  pose proof (Z.mod_pos_bound N (2 ^ n) Hpow) as Hr.
  pose proof (Z.div_mod N (2 ^ n) ltac:(lia)) as Hdiv.
  set (q := N / 2 ^ n) in *. set (r := N mod 2 ^ n) in *.
  assert (Hq : a - 1 <= q) by nia.
  destruct (Z.eq_dec q (a - 1)) as [Heq|Hne].
  - assert (Hodd : Z.even q = false).
    { rewrite Heq. replace (a - 1) with (Z.pred a) by lia.
      rewrite Z.even_pred, <- Z.negb_even, Heven. reflexivity. }
    destruct (Z.ltb_spec (2 * r) (2 ^ n)); [nia|].
    destruct (Z.ltb_spec (2 ^ n) (2 * r)); [lia|].
    rewrite Hodd. lia.
  - destruct (Z.ltb_spec (2 * r) (2 ^ n)); [lia|].
    destruct (Z.ltb_spec (2 ^ n) (2 * r)); [lia|].
    destruct (Z.even q); lia.
Qed.

End Rounding64.

Section Units.

Local Open Scope Z_scope.

Lemma Zdigits2_unique (N d : Z) :
  2 ^ (d - 1) <= N < 2 ^ d -> 0 < N -> Zdigits2 N = d.
Proof.
  intros HN Hpos. destruct N as [|q|q]; try lia.
  cbn [Zdigits2]. apply digits2_pos_unique. exact HN.
Qed.

Lemma Zdigits2_pos (N : Z) : 0 < N -> 0 < Zdigits2 N.
Proof. destruct N; cbn; lia. Qed.

Lemma Zdigits2_mul_pow2 (N t : Z) :
  0 < N -> 0 <= t -> Zdigits2 (N * 2 ^ t) = Zdigits2 N + t.
Proof.
  intros HN Ht.
  pose proof (Zdigits2_bounds N ltac:(lia)) as Hb. rewrite Z.abs_eq in Hb by lia.
  pose proof (Zdigits2_pos N HN) as Hd.
  assert (Hpow : 0 < 2 ^ t) by (apply Z.pow_pos_nonneg; lia).
  apply Zdigits2_unique; [|nia].
  replace (Zdigits2 N + t - 1) with (Zdigits2 N - 1 + t) by lia.
  rewrite !Z.pow_add_r by lia. nia.
Qed.

Lemma Zdigits2_le (N j : Z) : 0 < N -> N < 2 ^ j -> Zdigits2 N <= j.
Proof.
  intros HN Hlt. pose proof (Zdigits2_bounds N ltac:(lia)) as Hb.
  rewrite Z.abs_eq in Hb by lia.
  destruct (Z_le_gt_dec (Zdigits2 N) j) as [|Hbig]; [assumption|exfalso].
  assert (2 ^ j <= 2 ^ (Zdigits2 N - 1)) by (apply Z.pow_le_mono_r; lia). lia.
Qed.

Lemma Zdigits2_ge (N j : Z) : 0 <= j -> 2 ^ j <= N -> j + 1 <= Zdigits2 N.
Proof.
  intros Hj Hle.
  assert (HN : 0 < N) by (pose proof (Z.pow_pos_nonneg 2 j); lia).
  pose proof (Zdigits2_bounds N ltac:(lia)) as Hb.
  rewrite Z.abs_eq in Hb by lia.
  destruct (Z_le_gt_dec (j + 1) (Zdigits2 N)) as [|Hsmall]; [assumption|exfalso].
  assert (2 ^ Zdigits2 N <= 2 ^ j) by (apply Z.pow_le_mono_r; lia). lia.
Qed.

(** ** [roundUnits] and [round64] *)

Lemma roundUnits_small (N : Z) : Zdigits2 N <= 53 -> roundUnits N = N.
Proof.
  intros Hd. unfold roundUnits.
  destruct (Z.leb_spec (Zdigits2 N) 53); [reflexivity|lia].
Qed.

Lemma roundUnits_large (N : Z) :
  53 < Zdigits2 N ->
  roundUnits N = roundShift N (Zdigits2 N - 53) * 2 ^ (Zdigits2 N - 53).
Proof.
  intros Hd. unfold roundUnits.
  destruct (Z.leb_spec (Zdigits2 N) 53); [lia|reflexivity].
Qed.

(** The 53 leading bits of a longer number, rounded: between 2^52 and 2^53. *)
Lemma roundShift_leading (N : Z) :
  0 < N -> 53 < Zdigits2 N ->
  2 ^ 52 <= roundShift N (Zdigits2 N - 53) <= 2 ^ 53.
Proof.
  intros HN Hd.
  pose proof (Zdigits2_bounds N ltac:(lia)) as Hb. rewrite Z.abs_eq in Hb by lia.
  set (n := Zdigits2 N - 53) in *.
  assert (Hpow : 0 < 2 ^ n) by (apply Z.pow_pos_nonneg; lia).
  pose proof (roundShift_bounds N n ltac:(lia)) as Hq.
  assert (Hlo : 2 ^ (Zdigits2 N - 1) = 2 ^ 52 * 2 ^ n).
  { rewrite <- Z.pow_add_r by lia. f_equal. lia. }
  assert (Hhi : 2 ^ Zdigits2 N = 2 ^ 53 * 2 ^ n).
  { rewrite <- Z.pow_add_r by lia. f_equal. lia. }
  assert (H1 : 2 ^ 52 <= N / 2 ^ n) by (apply Z.div_le_lower_bound; lia).
  assert (H2 : N / 2 ^ n < 2 ^ 53) by (apply Z.div_lt_upper_bound; lia).
  lia.
Qed.

Lemma roundUnits_range (N : Z) :
  0 < N -> 2 ^ (Zdigits2 N - 1) <= roundUnits N <= 2 ^ Zdigits2 N.
Proof.
  intros HN.
  pose proof (Zdigits2_bounds N ltac:(lia)) as Hb. rewrite Z.abs_eq in Hb by lia.
  destruct (Z_le_gt_dec (Zdigits2 N) 53) as [Hs|Hl].
  - rewrite roundUnits_small by exact Hs. lia.
  - rewrite roundUnits_large by lia.
    pose proof (roundShift_leading N HN ltac:(lia)) as Hq.
    set (n := Zdigits2 N - 53) in *.
    assert (Hpow : 0 < 2 ^ n) by (apply Z.pow_pos_nonneg; lia).
    assert (Hlo : 2 ^ (Zdigits2 N - 1) = 2 ^ 52 * 2 ^ n).
    { rewrite <- Z.pow_add_r by lia. f_equal. lia. }
    assert (Hhi : 2 ^ Zdigits2 N = 2 ^ 53 * 2 ^ n).
    { rewrite <- Z.pow_add_r by lia. f_equal. lia. }
    nia.
Qed.

Lemma roundUnits_pos (N : Z) : 0 < N -> 0 < roundUnits N.
Proof.
  intros HN. pose proof (roundUnits_range N HN) as [Hlo _].
  pose proof (Zdigits2_pos N HN).
  assert (0 < 2 ^ (Zdigits2 N - 1)) by (apply Z.pow_pos_nonneg; lia). lia.
Qed.

Lemma roundUnits_error (N j : Z) :
  0 < N -> 0 <= j -> N < 2 ^ (53 + j) -> 2 * Z.abs (roundUnits N - N) <= 2 ^ j.
Proof.
  intros HN Hj Hlt.
  assert (Hpj : 0 < 2 ^ j) by (apply Z.pow_pos_nonneg; lia).
  destruct (Z_le_gt_dec (Zdigits2 N) 53) as [Hs|Hl].
  - rewrite roundUnits_small by exact Hs. lia.
  - rewrite roundUnits_large by lia.
    pose proof (Zdigits2_le N (53 + j) HN Hlt) as Hd.
    pose proof (roundShift_error N (Zdigits2 N - 53) ltac:(lia)) as He.
    assert (2 ^ (Zdigits2 N - 53) <= 2 ^ j) by (apply Z.pow_le_mono_r; lia).
    lia.
Qed.

Lemma round64_pos (N : Z) : 0 < N -> round64 N = roundUnits N.
Proof. destruct N; try lia. reflexivity. Qed.

Lemma round64_opp (N : Z) : round64 (- N) = - round64 N.
Proof. destruct N; cbn [round64 Z.opp]; lia. Qed.

Lemma round64_abs (N : Z) : Z.abs (round64 N) = round64 (Z.abs N).
Proof.
  destruct N as [|q|q]; cbn [Z.abs round64]; [reflexivity| |];
    pose proof (roundUnits_pos (Zpos q)); lia.
Qed.

Lemma round64_sign (N : Z) :
  (0 < N -> 0 < round64 N) /\ (N < 0 -> round64 N < 0) /\ (N = 0 -> round64 N = 0).
Proof.
  destruct N as [|q|q]; cbn [round64]; repeat split; intros; try lia.
  - apply roundUnits_pos. lia.
  - pose proof (roundUnits_pos (Zpos q)). lia.
Qed.

Lemma round64_error (N j : Z) :
  0 <= j -> Z.abs N < 2 ^ (53 + j) -> 2 * Z.abs (round64 N - N) <= 2 ^ j.
Proof.
  intros Hj Hlt.
  assert (Hpj : 0 < 2 ^ j) by (apply Z.pow_pos_nonneg; lia).
  destruct N as [|q|q]; cbn [round64 Z.abs] in *.
  - lia.
  - apply roundUnits_error; lia.
  - pose proof (roundUnits_error (Zpos q) j ltac:(lia) Hj Hlt). lia.
Qed.

Lemma round64_ge_pow2 (N j : Z) : 0 <= j -> 2 ^ j <= N -> 2 ^ j <= round64 N.
Proof.
  intros Hj Hle.
  assert (HN : 0 < N) by (pose proof (Z.pow_pos_nonneg 2 j); lia).
  rewrite round64_pos by exact HN.
  pose proof (roundUnits_range N HN) as [Hlo _].
  pose proof (Zdigits2_ge N j Hj Hle).
  assert (2 ^ j <= 2 ^ (Zdigits2 N - 1)) by (apply Z.pow_le_mono_r; lia). lia.
Qed.

Lemma round64_lt_pow2 (N j : Z) : 0 <= N -> N < 2 ^ j -> round64 N <= 2 ^ j.
Proof.
  intros HN Hlt. destruct (Z.eq_dec N 0) as [->|Hnz].
  - cbn. pose proof (Z.pow_nonneg 2 j). lia.
  - rewrite round64_pos by lia.
    pose proof (roundUnits_range N ltac:(lia)) as [_ Hhi].
    pose proof (Zdigits2_le N j ltac:(lia) Hlt).
    assert (0 <= j).
    { destruct (Z_le_gt_dec 0 j); [assumption|]. rewrite Z.pow_neg_r in Hlt by lia. lia. }
    pose proof (Zdigits2_pos N ltac:(lia)).
    assert (2 ^ Zdigits2 N <= 2 ^ j) by (apply Z.pow_le_mono_r; lia). lia.
Qed.

End Units.

Section UnitsSF.

Local Open Scope Z_scope.

(** ** From [binary_round] to [round64] *)

Lemma binary_round_aux_canonical (s : bool) (m0 : positive) (e0 : Z) :
  fexp prec emax (Zpos (digits2_pos m0) + e0) = e0 ->
  e0 <= 971 ->
  binary_round_aux prec emax s (Zpos m0) e0 loc_Exact = S754_finite s m0 e0.
Proof.
  intros Hcanon He0.
  unfold binary_round_aux, shr_fexp. cbn [Zdigits2 shr_record_of_loc].
  rewrite Hcanon, Z.sub_diag. cbn [shr loc_of_shr_record shr_m round_nearest_even].
  cbn [Zdigits2 shr_record_of_loc]. rewrite Hcanon, Z.sub_diag. cbn [shr shr_m].
  assert (Hle : (e0 <=? emax - prec) = true) by (apply Z.leb_le; unfold emax, prec; lia).
  rewrite Hle. reflexivity.
Qed.

(** A number that needs no rounding, given with fewer digits than its
    binary64 form has. *)
Lemma binary_round_canonical (s : bool) (M : positive) (e : Z) (m0 : positive) (e0 : Z) :
  fexp prec emax (Zpos (digits2_pos m0) + e0) = e0 ->
  e0 <= 971 ->
  e0 <= e ->
  Zpos m0 = Zpos M * 2 ^ (e - e0) ->
  binary_round prec emax s M e = S754_finite s m0 e0.
Proof.
  intros Hcanon He0 Hle Hval.
  assert (HdM : Zpos (digits2_pos M) + e = Zpos (digits2_pos m0) + e0).
  { change (Zpos (digits2_pos m0)) with (Zdigits2 (Zpos m0)).
    rewrite Hval, Zdigits2_mul_pow2 by lia. cbn [Zdigits2]. lia. }
  unfold binary_round. rewrite HdM, Hcanon.
  unfold shl_align. destruct (e0 - e) as [|j|j] eqn:Hj.
  - assert (e = e0) by lia. subst e. rewrite Z.sub_diag in Hval.
    assert (M = m0) by (cbn in Hval; lia). subst M.
    apply binary_round_aux_canonical; assumption.
  - lia.
  - assert (Hje : e - e0 = Zpos j) by lia. rewrite Hje in Hval.
    assert (HMm : Pos.iter xO M j = m0).
    { apply Pos2Z.inj. rewrite iter_xO_value. lia. }
    rewrite HMm. apply binary_round_aux_canonical; assumption.
Qed.

Lemma canonSF_finite (s : bool) (m : positive) (k : Z) :
  0 <= k ->
  Zdigits2 (Zpos m * 2 ^ k) - 53 <= k ->
  (0 < k -> k <= Zdigits2 (Zpos m * 2 ^ k) - 53) ->
  canonSF s (Zpos m * 2 ^ k) = S754_finite s m (k - 1074).
Proof.
  intros Hk Hle Hge. unfold canonSF.
  assert (Hmax : Z.max 0 (Zdigits2 (Zpos m * 2 ^ k) - 53) = k) by lia.
  rewrite Hmax, Z.div_mul by (apply Z.pow_nonzero; lia). reflexivity.
Qed.

(** [binary_round] of [M * 2^e], for an exponent that is not below the
    least one of the format, is the rounding of the number in units. *)
Lemma binary_round_units (s : bool) (M : positive) (e : Z) :
  -1074 <= e ->
  Zpos (digits2_pos M) + e <= 1023 ->
  binary_round prec emax s M e = canonSF s (roundUnits (Zpos M * 2 ^ (e + 1074))).
Proof.
  intros He Hmax.
  set (t := e + 1074). assert (Ht : 0 <= t) by lia.
  assert (Hpt : 0 < 2 ^ t) by (apply Z.pow_pos_nonneg; lia).
  set (N := Zpos M * 2 ^ t). assert (HN : 0 < N) by (subst N; nia).
  assert (HdN : Zdigits2 N = Zpos (digits2_pos M) + t).
  { subst N. rewrite Zdigits2_mul_pow2 by lia. reflexivity. }
  pose proof (digits2_pos_bounds M) as HbM.
  destruct (Z_le_gt_dec (Zpos (digits2_pos M)) 53) as [Hsmall|Hlarge].
  - (* no rounding *)
    set (e0 := fexp prec emax (Zpos (digits2_pos M) + e)).
    assert (He0 : e0 = Z.max (Zpos (digits2_pos M) + e - 53) (-1074)) by reflexivity.
    assert (He0e : e0 <= e) by lia.
    assert (Hp0 : 0 < 2 ^ (e - e0)) by (apply Z.pow_pos_nonneg; lia).
    set (m0 := Z.to_pos (Zpos M * 2 ^ (e - e0))).
    assert (Hm0 : Zpos m0 = Zpos M * 2 ^ (e - e0)) by (subst m0; rewrite Z2Pos.id; nia).
    assert (Hdm0 : Zpos (digits2_pos m0) = Zpos (digits2_pos M) + (e - e0)).
    { change (Zpos (digits2_pos m0)) with (Zdigits2 (Zpos m0)).
      rewrite Hm0, Zdigits2_mul_pow2 by lia. reflexivity. }
    rewrite (binary_round_canonical s M e m0 e0).
    + assert (HNm : N = Zpos m0 * 2 ^ (e0 + 1074)).
      { subst N t. rewrite Hm0, <- Z.mul_assoc, <- Z.pow_add_r by lia.
        f_equal. f_equal. lia. }
      assert (Hround : roundUnits N = N).
      { destruct (Z_le_gt_dec (Zdigits2 N) 53) as [Hs|Hl].
        - apply roundUnits_small. exact Hs.
        - rewrite roundUnits_large by lia.
          assert (Hn : Zdigits2 N - 53 = e0 + 1074) by lia.
          rewrite Hn, HNm, roundShift_exact by lia. reflexivity. }
      rewrite Hround, HNm.
      replace e0 with (e0 + 1074 - 1074) at 1 by lia.
      symmetry. apply canonSF_finite; rewrite <- ?HNm; lia.
    + unfold fexp, SpecFloat.emin, prec, emax. rewrite Hdm0. lia.
    + lia.
    + exact He0e.
    + exact Hm0.
  - (* rounding to 53 bits *)
    set (dM := Zpos (digits2_pos M)) in *.
    assert (Hfexp : fexp prec emax (dM + e) = e + (dM - 53)).
    { unfold fexp, SpecFloat.emin, prec, emax. lia. }
    destruct (dM - 53) as [|nM|nM] eqn:HnM; try lia.
    assert (Hq : 2 ^ 52 <= roundShift (Zpos M) (Zpos nM) <= 2 ^ 53).
    { rewrite <- HnM. apply (roundShift_leading (Zpos M)); cbn [Zdigits2]; lia. }
    assert (Hscale : roundShift N (Zdigits2 N - 53) = roundShift (Zpos M) (Zpos nM)).
    { replace (Zdigits2 N - 53) with (Zpos nM + t) by lia.
      subst N. apply roundShift_scale; lia. }
    assert (Hround : roundUnits N
                     = roundShift (Zpos M) (Zpos nM) * 2 ^ (Zpos nM + t)).
    { rewrite roundUnits_large by lia. rewrite Hscale. f_equal. f_equal. lia. }
    rewrite Hround.
    unfold binary_round. fold dM. rewrite Hfexp.
    unfold shl_align.
    replace (e + Zpos nM - e) with (Zpos nM) by lia.
    unfold binary_round_aux, shr_fexp. cbn [Zdigits2 shr_record_of_loc].
    fold dM. rewrite Hfexp.
    replace (e + Zpos nM - e) with (Zpos nM) by lia.
    cbn [shr]. rewrite <- (shiftedRecord_0 (Zpos M)).
    rewrite iter_shr_1_shiftedRecord by lia.
    rewrite Z.add_0_l, round_shiftedRecord by lia.
    set (q := roundShift (Zpos M) (Zpos nM)) in *.
    assert (Hpn : 0 < 2 ^ (Zpos nM + t)) by (apply Z.pow_pos_nonneg; lia).
    destruct (Z.eq_dec q (2 ^ 53)) as [Hcarry|Hnocarry].
    + rewrite Hcarry.
      assert (Hd54 : Zdigits2 (2 ^ 53) = 54) by reflexivity.
      rewrite Hd54.
      assert (Hf : fexp prec emax (54 + (e + Zpos nM)) - (e + Zpos nM) = 1).
      { unfold fexp, SpecFloat.emin, prec, emax. lia. }
      rewrite Hf. cbn [shr shr_record_of_loc iter_pos].
      change (shr_1 {| shr_m := 2 ^ 53; shr_r := false; shr_s := false |})
        with {| shr_m := 2 ^ 52; shr_r := false; shr_s := false |}.
      cbn [shr_m]. change (2 ^ 52) with (Zpos (Z.to_pos (2 ^ 52))) at 1.
      cbv iota.
      assert (Hle : (e + Zpos nM + 1 <=? emax - prec) = true).
      { apply Z.leb_le. unfold emax, prec. lia. }
      rewrite Hle.
      replace (2 ^ 53 * 2 ^ (Zpos nM + t))
        with (Zpos (Z.to_pos (2 ^ 52)) * 2 ^ (Zpos nM + t + 1)).
      2:{ rewrite (Z.pow_add_r 2 (Zpos nM + t) 1) by lia.
          change (Zpos (Z.to_pos (2 ^ 52))) with (2 ^ 52). change (2 ^ 53) with (2 ^ 52 * 2 ^ 1).
          ring. }
      replace (e + Zpos nM + 1) with (Zpos nM + t + 1 - 1074) by lia.
      assert (Hdig : Zdigits2 (Zpos (Z.to_pos (2 ^ 52)) * 2 ^ (Zpos nM + t + 1))
                     = 53 + (Zpos nM + t + 1)).
      { rewrite Zdigits2_mul_pow2 by lia. reflexivity. }
      symmetry. apply canonSF_finite; rewrite ?Hdig; lia.
    + assert (Hqpos : 0 < q) by (pose proof (Z.pow_pos_nonneg 2 52); lia).
      assert (Hdq : Zdigits2 q = 53) by (apply Zdigits2_unique; lia).
      rewrite Hdq.
      assert (Hf : fexp prec emax (53 + (e + Zpos nM)) - (e + Zpos nM) = 0).
      { unfold fexp, SpecFloat.emin, prec, emax. lia. }
      rewrite Hf. cbn [shr shr_record_of_loc shr_m].
      destruct q as [|qm|qm] eqn:Hqm; try lia.
      assert (Hle : (e + Zpos nM <=? emax - prec) = true).
      { apply Z.leb_le. unfold emax, prec. lia. }
      rewrite Hle.
      replace (e + Zpos nM) with (Zpos nM + t - 1074) by lia.
      assert (Hdig : Zdigits2 (Zpos qm * 2 ^ (Zpos nM + t)) = 53 + (Zpos nM + t)).
      { rewrite Zdigits2_mul_pow2 by lia. rewrite Hdq. reflexivity. }
      symmetry. apply canonSF_finite; rewrite ?Hdig; lia.
Qed.

End UnitsSF.

Section UnitsOps.

Local Open Scope Z_scope.

Lemma unitsSF_pos (R : Z) : 0 < R -> unitsSF R = canonSF false R.
Proof. destruct R; try lia. reflexivity. Qed.

Lemma unitsSF_neg (R : Z) : 0 < R -> unitsSF (- R) = canonSF true R.
Proof. destruct R; try lia. reflexivity. Qed.

Lemma round64_idem (N : Z) : round64 (round64 N) = round64 N.
Proof.
  assert (Hpos : forall P, 0 < P -> roundUnits (roundUnits P) = roundUnits P).
  { intros P HP.
    destruct (Z_le_gt_dec (Zdigits2 P) 53) as [Hs|Hl].
    - rewrite (roundUnits_small P Hs). apply roundUnits_small. exact Hs.
    - rewrite (roundUnits_large P) by lia.
      pose proof (roundShift_leading P HP ltac:(lia)) as Hq.
      set (n := Zdigits2 P - 53) in *. set (q := roundShift P n) in *.
      assert (Hn : 0 < n) by lia.
      assert (Hqpos : 0 < q) by (pose proof (Z.pow_pos_nonneg 2 52); lia).
      assert (Hd : Zdigits2 (q * 2 ^ n) = Zdigits2 q + n)
        by (apply Zdigits2_mul_pow2; lia).
      destruct (Z.eq_dec q (2 ^ 53)) as [Hcarry|Hnocarry].
      + assert (Hdq : Zdigits2 q = 54) by (rewrite Hcarry; reflexivity).
        rewrite roundUnits_large by lia.
        rewrite Hd, Hdq. replace (54 + n - 53) with (n + 1) by lia.
        assert (Hval : q * 2 ^ n = 2 ^ 52 * 2 ^ (n + 1)).
        { rewrite Hcarry, (Z.pow_add_r 2 n 1) by lia.
          change (2 ^ 53) with (2 ^ 52 * 2 ^ 1). ring. }
        rewrite Hval at 1. rewrite roundShift_exact by lia. symmetry. exact Hval.
      + assert (Hdq : Zdigits2 q = 53) by (apply Zdigits2_unique; lia).
        rewrite roundUnits_large by lia.
        rewrite Hd, Hdq. replace (53 + n - 53) with n by lia.
        rewrite roundShift_exact by lia. reflexivity. }
  destruct N as [|P|P]; cbn [round64]; [reflexivity| |].
  - rewrite round64_pos by (apply roundUnits_pos; lia). apply Hpos. lia.
  - rewrite round64_opp, round64_pos by (apply roundUnits_pos; lia).
    rewrite Hpos by lia. reflexivity.
Qed.

(** The mantissa and the exponent of a number that needs no rounding. *)
Lemma canonSF_decode (s : bool) (a : Z) :
  0 < a -> roundUnits a = a ->
  exists (m : positive) (k : Z),
    canonSF s a = S754_finite s m (k - 1074) /\
    a = Zpos m * 2 ^ k /\
    k = Z.max 0 (Zdigits2 a - 53).
Proof.
  intros Ha Hrep. unfold canonSF.
  set (k := Z.max 0 (Zdigits2 a - 53)).
  assert (Hk : 0 <= k) by lia.
  assert (Hpk : 0 < 2 ^ k) by (apply Z.pow_pos_nonneg; lia).
  assert (Hdiv : exists q, 0 < q /\ a = q * 2 ^ k).
  { destruct (Z_le_gt_dec (Zdigits2 a) 53) as [Hs|Hl].
    - exists a. replace k with 0 by lia. cbn. lia.
    - rewrite roundUnits_large in Hrep by lia.
      replace k with (Zdigits2 a - 53) by lia.
      exists (roundShift a (Zdigits2 a - 53)). split; [|lia].
      pose proof (roundShift_leading a Ha ltac:(lia)).
      pose proof (Z.pow_pos_nonneg 2 52). lia. }
  destruct Hdiv as (q & Hq & Hval).
  assert (Hquot : a / 2 ^ k = q) by (rewrite Hval; apply Z.div_mul; lia).
  rewrite Hquot.
  destruct q as [|m|m]; try lia.
  exists m, k. repeat split. exact Hval.
Qed.

Lemma hasUnits_cases (a : Z) (x : spec_float) :
  hasUnits a x ->
  (a = 0 /\ exists s, x = S754_zero s) \/
  (a <> 0 /\
   exists (m : positive) (k : Z),
     x = S754_finite (a <? 0) m (k - 1074) /\
     Z.abs a = Zpos m * 2 ^ k /\
     k = Z.max 0 (Zdigits2 a - 53)).
Proof.
  intros [Hrep [Hx|[Ha Hx]]].
  - destruct a as [|P|P].
    + left. split; [reflexivity|]. exists false. exact Hx.
    + right. split; [lia|]. rewrite round64_pos in Hrep by lia.
      destruct (canonSF_decode false (Zpos P) ltac:(lia) Hrep) as (m & k & Hc & Hv & Hk).
      exists m, k. rewrite Hx. cbn [unitsSF Z.ltb Z.compare Z.abs]. auto.
    + right. split; [lia|]. cbn [round64] in Hrep.
      assert (Hrep' : roundUnits (Zpos P) = Zpos P) by lia.
      destruct (canonSF_decode true (Zpos P) ltac:(lia) Hrep') as (m & k & Hc & Hv & Hk).
      exists m, k. rewrite Hx. cbn [unitsSF Z.ltb Z.compare Z.abs Zdigits2] in *. auto.
  - left. split; [exact Ha|]. exists true. exact Hx.
Qed.

Lemma hasUnits_round64 (N : Z) : hasUnits (round64 N) (unitsSF (round64 N)).
Proof. split; [apply round64_idem|left; reflexivity]. Qed.

Lemma hasUnits_zero (s : bool) : hasUnits 0 (S754_zero s).
Proof. split; [reflexivity|]. destruct s; [right|left]; auto. Qed.

(** [binary_normalize] of [K * 2^e] is the rounding of the number in units. *)
Lemma binary_normalize_units (K e : Z) :
  -1074 <= e ->
  Z.abs (K * 2 ^ (e + 1074)) < 2 ^ 2097 ->
  binary_normalize prec emax K e false = unitsSF (round64 (K * 2 ^ (e + 1074))).
Proof.
  intros He Hbound.
  assert (Hpt : 0 < 2 ^ (e + 1074)) by (apply Z.pow_pos_nonneg; lia).
  assert (Hdig : forall M : positive,
            Zpos M * 2 ^ (e + 1074) < 2 ^ 2097 -> Zpos (digits2_pos M) + e <= 1023).
  { intros M HM.
    pose proof (Zdigits2_le (Zpos M * 2 ^ (e + 1074)) 2097 ltac:(nia) HM) as Hd.
    rewrite Zdigits2_mul_pow2 in Hd by lia. cbn [Zdigits2] in Hd. lia. }
  destruct K as [|M|M]; cbn [binary_normalize].
  - reflexivity.
  - rewrite Z.abs_eq in Hbound by nia.
    rewrite binary_round_units by (try apply Hdig; lia).
    rewrite round64_pos by nia.
    rewrite unitsSF_pos by (apply roundUnits_pos; nia). reflexivity.
  - change (Zneg M) with (- Zpos M) in *.
    rewrite Z.mul_opp_l in *. rewrite Z.abs_opp, Z.abs_eq in Hbound by nia.
    rewrite binary_round_units by (try apply Hdig; lia).
    rewrite round64_opp, round64_pos by nia.
    rewrite unitsSF_neg by (apply roundUnits_pos; nia). reflexivity.
Qed.

(** The signed mantissa of a number aligned at a lower exponent. *)
Lemma units_aligned (a : Z) (m : positive) (k ez : Z) :
  a <> 0 -> Z.abs a = Zpos m * 2 ^ k -> 0 <= k -> -1074 <= ez <= k - 1074 ->
  cond_Zopp (a <? 0) (Zpos (fst (shl_align m (k - 1074) ez))) * 2 ^ (ez + 1074) = a.
Proof.
  intros Ha Hval Hk Hez.
  rewrite shl_align_value by lia.
  assert (Hpow : Zpos m * 2 ^ (k - 1074 - ez) * 2 ^ (ez + 1074) = Z.abs a).
  { rewrite Hval, <- Z.mul_assoc, <- Z.pow_add_r by lia. f_equal. f_equal. lia. }
  unfold cond_Zopp. destruct (Z.ltb_spec a 0); lia.
Qed.

Lemma SFopp_unitsSF (a : Z) : SFopp (unitsSF a) = match a with Z0 => S754_zero true | _ => unitsSF (- a) end.
Proof.
  destruct a as [|P|P]; cbn [unitsSF Z.opp]; [reflexivity| |];
    unfold canonSF; destruct (Zpos P / 2 ^ Z.max 0 (Zdigits2 (Zpos P) - 53)); reflexivity.
Qed.

Section Binary.

Variables (a b : Z) (x y : spec_float).
Hypothesis Hx : hasUnits a x.
Hypothesis Hy : hasUnits b y.
Hypothesis Ha : Z.abs a < 2 ^ 2096.
Hypothesis Hb : Z.abs b < 2 ^ 2096.

Lemma SFadd_units : hasUnits (round64 (a + b)) (SF64add x y).
Proof.
  pose proof Hx as [Hra _]. pose proof Hy as [Hrb _].
  destruct (hasUnits_cases a x Hx) as [[-> [sx ->]]|[Hna (mx & kx & -> & Hvx & Hkx)]];
    destruct (hasUnits_cases b y Hy) as [[-> [sy ->]]|[Hnb (my & ky & -> & Hvy & Hky)]].
  - cbn [Z.add round64]. destruct sx, sy; apply hasUnits_zero.
  - rewrite Z.add_0_l, Hrb. destruct sx; exact Hy.
  - rewrite Z.add_0_r, Hra. destruct sy; exact Hx.
  - unfold SF64add, SFadd.
    set (ez := Z.min (kx - 1074) (ky - 1074)).
    rewrite binary_normalize_units.
    + rewrite Z.mul_add_distr_r.
      rewrite (units_aligned a mx kx ez), (units_aligned b my ky ez) by lia.
      apply hasUnits_round64.
    + lia.
    + rewrite Z.mul_add_distr_r.
      rewrite (units_aligned a mx kx ez), (units_aligned b my ky ez) by lia.
      change (2 ^ 2097) with (2 * 2 ^ 2096). lia.
Qed.

Lemma SFsub_units : hasUnits (round64 (a - b)) (SF64sub x y).
Proof.
  pose proof Hx as [Hra _]. pose proof Hy as [Hrb _].
  destruct (hasUnits_cases a x Hx) as [[-> [sx ->]]|[Hna (mx & kx & -> & Hvx & Hkx)]];
    destruct (hasUnits_cases b y Hy) as [[-> [sy ->]]|[Hnb (my & ky & -> & Hvy & Hky)]].
  - cbn [Z.sub Z.add Z.opp round64]. destruct sx, sy; apply hasUnits_zero.
  - rewrite Z.sub_0_l, round64_opp, Hrb.
    destruct Hy as [_ [Hyy|[H0 _]]]; [|contradiction].
    split; [rewrite round64_opp, Hrb; reflexivity|left].
    cbn [SF64sub SFsub].
    change (S754_finite (negb (b <? 0)) my (ky - 1074))
      with (SFopp (S754_finite (b <? 0) my (ky - 1074))).
    rewrite Hyy, SFopp_unitsSF. destruct b; [contradiction| |]; reflexivity.
  - rewrite Z.sub_0_r, Hra. destruct sy; exact Hx.
  - unfold SF64sub, SFsub.
    set (ez := Z.min (kx - 1074) (ky - 1074)).
    rewrite binary_normalize_units.
    + rewrite Z.mul_sub_distr_r.
      rewrite (units_aligned a mx kx ez), (units_aligned b my ky ez) by lia.
      apply hasUnits_round64.
    + lia.
    + rewrite Z.mul_sub_distr_r.
      rewrite (units_aligned a mx kx ez), (units_aligned b my ky ez) by lia.
      change (2 ^ 2097) with (2 * 2 ^ 2096). lia.
Qed.

End Binary.

Lemma SFabs_units (a : Z) (x : spec_float) :
  hasUnits a x -> hasUnits (Z.abs a) (SFabs x).
Proof.
  intros Hx. pose proof Hx as [Hra Hxx].
  assert (Hrabs : round64 (Z.abs a) = Z.abs a).
  { rewrite <- round64_abs, Hra. reflexivity. }
  split; [exact Hrabs|left].
  destruct Hxx as [->|[-> ->]]; [|reflexivity].
  destruct a as [|P|P]; cbn [unitsSF Z.abs]; [reflexivity| |];
    unfold canonSF; destruct (Zpos P / 2 ^ Z.max 0 (Zdigits2 (Zpos P) - 53)); reflexivity.
Qed.

(** On positive numbers that need no rounding, the order of (exponent,
    mantissa) pairs is the order of the numbers. *)
Lemma units_compare_pos (a b : Z) (ma mb : positive) (ka kb : Z) :
  0 < a -> 0 < b ->
  a = Zpos ma * 2 ^ ka -> ka = Z.max 0 (Zdigits2 a - 53) ->
  b = Zpos mb * 2 ^ kb -> kb = Z.max 0 (Zdigits2 b - 53) ->
  match ka - 1074 ?= kb - 1074 with
  | Lt => Lt
  | Gt => Gt
  | Eq => Pos.compare_cont Eq ma mb
  end = (a ?= b).
Proof.
  intros Ha Hb Hva Hka Hvb Hkb.
  pose proof (Zdigits2_bounds a ltac:(lia)) as Hda. rewrite Z.abs_eq in Hda by lia.
  pose proof (Zdigits2_bounds b ltac:(lia)) as Hdb. rewrite Z.abs_eq in Hdb by lia.
  destruct (Z.compare_spec (ka - 1074) (kb - 1074)) as [Heq|Hlt|Hgt].
  - assert (Hk : ka = kb) by lia.
    change (Pos.compare_cont Eq ma mb) with (Pos.compare ma mb).
    rewrite Pos2Z.inj_compare.
    assert (Hc : 0 < 2 ^ kb) by (apply Z.pow_pos_nonneg; lia).
    rewrite Hk in Hva.
    destruct (Z.compare_spec (Zpos ma) (Zpos mb)) as [Hab|Hab|Hab]; symmetry.
    + apply Z.compare_eq_iff. rewrite Hva, Hvb, Hab. reflexivity.
    + apply Z.compare_lt_iff. nia.
    + apply Z.compare_gt_iff. nia.
  - symmetry. apply Z.compare_lt_iff.
    assert (2 ^ Zdigits2 a <= 2 ^ (Zdigits2 b - 1)) by (apply Z.pow_le_mono_r; lia).
    lia.
  - symmetry. apply Z.compare_gt_iff.
    assert (2 ^ Zdigits2 b <= 2 ^ (Zdigits2 a - 1)) by (apply Z.pow_le_mono_r; lia).
    lia.
Qed.

Lemma SFcompare_units (a b : Z) (x y : spec_float) :
  hasUnits a x -> hasUnits b y -> SFcompare x y = Some (a ?= b).
Proof.
  intros Hx Hy.
  destruct (hasUnits_cases a x Hx) as [[-> [sx ->]]|[Hna (mx & kx & -> & Hvx & Hkx)]];
    destruct (hasUnits_cases b y Hy) as [[-> [sy ->]]|[Hnb (my & ky & -> & Hvy & Hky)]].
  - reflexivity.
  - cbn [SFcompare]. destruct b; [contradiction| |]; reflexivity.
  - cbn [SFcompare]. destruct a; [contradiction| |]; reflexivity.
  - cbn [SFcompare]. f_equal.
    assert (Hdabs : forall c, Zdigits2 c = Zdigits2 (Z.abs c)) by (intros []; reflexivity).
    rewrite (Hdabs a) in Hkx. rewrite (Hdabs b) in Hky.
    destruct (Z.ltb_spec a 0) as [Han|Hap]; destruct (Z.ltb_spec b 0) as [Hbn|Hbp].
    + assert (Hswap : forall c1 c2 : comparison,
                match c1 with Lt => Gt | Gt => Lt | Eq => CompOpp c2 end
                = CompOpp (match c1 with Lt => Lt | Gt => Gt | Eq => c2 end))
        by (intros [] c2; reflexivity).
      rewrite Hswap, (units_compare_pos (Z.abs a) (Z.abs b) mx my kx ky) by lia.
      rewrite <- Z.compare_antisym.
      rewrite !Z.abs_neq by lia. rewrite Z.compare_opp. reflexivity.
    + symmetry. apply Z.compare_lt_iff. lia.
    + symmetry. apply Z.compare_gt_iff. lia.
    + rewrite (units_compare_pos (Z.abs a) (Z.abs b) mx my kx ky) by lia.
      rewrite !Z.abs_eq by lia. reflexivity.
Qed.

Lemma SFltb_units (a b : Z) (x y : spec_float) :
  hasUnits a x -> hasUnits b y -> SFltb x y = (a <? b).
Proof.
  intros Hx Hy. unfold SFltb. rewrite (SFcompare_units a b x y Hx Hy).
  unfold Z.ltb. destruct (a ?= b); reflexivity.
Qed.

Lemma SFleb_units (a b : Z) (x y : spec_float) :
  hasUnits a x -> hasUnits b y -> SFleb x y = (a <=? b).
Proof.
  intros Hx Hy. unfold SFleb. rewrite (SFcompare_units a b x y Hx Hy).
  unfold Z.leb. destruct (a ?= b); reflexivity.
Qed.

(** Every finite binary64 number is a number of units. *)
Lemma valid_hasUnits (x : spec_float) :
  SpecFloat.valid_binary prec emax x = true ->
  (exists s, x = S754_zero s) \/ (exists s m e, x = S754_finite s m e) ->
  exists a : Z, hasUnits a x /\ Z.abs a < 2 ^ 2098.
Proof.
  intros Hvalid [[s ->]|(s & m & e & ->)].
  - exists 0. split; [apply hasUnits_zero|reflexivity].
  - cbn [SpecFloat.valid_binary] in Hvalid. unfold bounded, canonical_mantissa in Hvalid.
    apply andb_true_iff in Hvalid as [Hcanon Hmax].
    apply Z.eqb_eq in Hcanon. apply Z.leb_le in Hmax.
    unfold fexp, SpecFloat.emin, prec, emax in Hcanon, Hmax.
    set (d := Zpos (digits2_pos m)) in *.
    assert (He : -1074 <= e) by lia.
    set (k := e + 1074). assert (Hk : 0 <= k) by lia.
    assert (Hpk : 0 < 2 ^ k) by (apply Z.pow_pos_nonneg; lia).
    set (R := Zpos m * 2 ^ k). assert (HR : 0 < R) by (subst R; nia).
    assert (HdR : Zdigits2 R = d + k).
    { subst R. rewrite Zdigits2_mul_pow2 by lia. reflexivity. }
    assert (Hrep : roundUnits R = R).
    { destruct (Z_le_gt_dec (Zdigits2 R) 53) as [Hs|Hl].
      - apply roundUnits_small. exact Hs.
      - rewrite roundUnits_large by lia.
        replace (Zdigits2 R - 53) with k by lia.
        subst R. rewrite roundShift_exact by lia. reflexivity. }
    assert (Hcan : forall s', canonSF s' R = S754_finite s' m e).
    { intros s'. replace e with (k - 1074) by lia.
      subst R. apply canonSF_finite; fold (Zpos m * 2 ^ k); lia. }
    assert (Hlt : R < 2 ^ 2098).
    { pose proof (Zdigits2_bounds R ltac:(lia)) as Hb. rewrite Z.abs_eq in Hb by lia.
      assert (2 ^ Zdigits2 R <= 2 ^ 2098) by (apply Z.pow_le_mono_r; lia). lia. }
    destruct s.
    + exists (- R). split; [|rewrite Z.abs_opp, Z.abs_eq; lia].
      split.
      * rewrite round64_opp, round64_pos, Hrep by lia. reflexivity.
      * left. rewrite unitsSF_neg by lia. symmetry. apply Hcan.
    + exists R. split; [|rewrite Z.abs_eq; lia].
      split.
      * rewrite round64_pos, Hrep by lia. reflexivity.
      * left. rewrite unitsSF_pos by lia. symmetry. apply Hcan.
Qed.

End UnitsOps.

Section UnitsLoop.

Local Open Scope Z_scope.

Lemma round64_multiple (X c n : Z) :
  0 <= n -> X = c * 2 ^ n -> Z.abs X < 2 ^ (53 + n) -> round64 X = X.
Proof.
  intros Hn HX Hlt.
  assert (Hpos : forall P d, 0 < P -> P = d * 2 ^ n -> P < 2 ^ (53 + n) -> roundUnits P = P).
  { intros P d HP Hd HPlt.
    destruct (Z_le_gt_dec (Zdigits2 P) 53) as [Hs|Hl].
    - apply roundUnits_small. exact Hs.
    - rewrite roundUnits_large by lia.
      pose proof (Zdigits2_le P (53 + n) HP HPlt) as Hdig.
      set (n' := Zdigits2 P - 53) in *.
      assert (Hval : P = d * 2 ^ (n - n') * 2 ^ n').
      { rewrite <- Z.mul_assoc, <- Z.pow_add_r by lia.
        replace (n - n' + n') with n by lia. exact Hd. }
      rewrite Hval at 1. rewrite roundShift_exact by lia. symmetry. exact Hval. }
  destruct X as [|P|P]; cbn [round64 Z.abs] in *.
  - reflexivity.
  - apply (Hpos (Zpos P) c); lia.
  - rewrite (Hpos (Zpos P) (- c)); lia.
Qed.

Lemma representable_multiple (a j : Z) :
  round64 a = a -> 0 <= j -> 2 ^ (j + 52) <= Z.abs a -> exists c, a = c * 2 ^ j.
Proof.
  intros Hrep Hj Hlo.
  assert (Hpos : forall P, 0 < P -> roundUnits P = P -> 2 ^ (j + 52) <= P ->
                      exists c, P = c * 2 ^ j).
  { intros P HP HrP HloP.
    pose proof (Zdigits2_ge P (j + 52) ltac:(lia) HloP) as Hd.
    destruct (Z.eq_dec j 0) as [->|Hnz]; [exists P; cbn; lia|].
    rewrite roundUnits_large in HrP by lia.
    set (n := Zdigits2 P - 53) in *.
    exists (roundShift P n * 2 ^ (n - j)).
    rewrite <- Z.mul_assoc, <- Z.pow_add_r by lia.
    replace (n - j + j) with n by lia. lia. }
  destruct a as [|P|P]; cbn [round64 Z.abs] in *.
  - exists 0. reflexivity.
  - apply Hpos; lia.
  - destruct (Hpos (Zpos P) ltac:(lia) ltac:(lia) Hlo) as [c Hc].
    exists (- c). lia.
Qed.

Lemma degrees_halfStep (z : Z) : degrees z = z * 70368744177664 * halfStep180.
Proof.
  unfold degrees, halfStep180.
  change (2 ^ 1074) with (2 ^ (46 + 1028)). rewrite Z.pow_add_r by lia.
  change (2 ^ 46) with 70368744177664. ring.
Qed.

Lemma halfStep180_pos : 0 < halfStep180.
Proof. unfold halfStep180. apply Z.pow_pos_nonneg; lia. Qed.

(** The loop condition as a threshold: the rounded gap is above 180 only
    when the gap itself is above 180 + 2^-46. *)
Lemma round64_above_180 (G : Z) :
  degrees 180 < Z.abs (round64 G) -> degrees 180 + halfStep180 < Z.abs G.
Proof.
  rewrite round64_abs. set (N := Z.abs G). assert (HN : 0 <= N) by (subst N; lia).
  clearbody N. intros Hfar.
  destruct (Z_lt_le_dec (degrees 180 + halfStep180) N) as [|Hle]; [assumption|exfalso].
  pose proof halfStep180_pos as Hh.
  pose proof (degrees_halfStep 180) as HA.
  assert (H1081 : 2 ^ 1081 = 128 * 70368744177664 * halfStep180).
  { unfold halfStep180. change (2 ^ 1081) with (2 ^ (53 + 1028)).
    rewrite Z.pow_add_r by lia. change (2 ^ 53) with (128 * 70368744177664). ring. }
  assert (H1082 : 2 ^ 1082 = 2 * 2 ^ 1081).
  { change (2 ^ 1082) with (2 ^ (1 + 1081)). rewrite Z.pow_add_r by lia. reflexivity. }
  destruct (Z_lt_le_dec N (2 ^ 1081)) as [Hsmall|Hbig].
  - pose proof (round64_lt_pow2 N 1081 HN Hsmall). lia.
  - assert (Hd : Zdigits2 N = 1082) by (apply Zdigits2_unique; lia).
    rewrite round64_pos in Hfar by lia.
    rewrite roundUnits_large in Hfar by lia.
    rewrite Hd in Hfar. change (1082 - 53) with 1029 in Hfar.
    assert (H1029 : 2 ^ 1029 = 2 * halfStep180).
    { unfold halfStep180. change (2 ^ 1029) with (2 ^ (1 + 1028)).
      rewrite Z.pow_add_r by lia. reflexivity. }
    pose proof (roundShift_le_even N 1029 (180 * 35184372088832) ltac:(lia) eq_refl) as Hq.
    rewrite H1029 in Hq, Hfar.
    specialize (Hq ltac:(lia)). nia.
Qed.

(** One pass upwards: the new longitude is at least 180 further up and is
    not beyond the click longitude by more than 180 + 2^-46. *)
Lemma step_up (l g : Z) :
  round64 l = l -> round64 g = g ->
  Z.abs l <= degrees 9007199254740992 ->
  Z.abs g <= degrees 18014398509481984 ->
  degrees 180 + halfStep180 < l - g ->
  g + degrees 180 <= round64 (g + degrees 360) <= l + degrees 180 + halfStep180.
Proof.
  intros Hrl Hrg Hl Hg Hfar.
  pose proof halfStep180_pos as Hh.
  assert (Hdeg : forall z, degrees z = z * degrees 1) by (intros z; unfold degrees; lia).
  rewrite (Hdeg 180), (Hdeg 360), (Hdeg 9007199254740992), (Hdeg 18014398509481984) in *.
  assert (HS : degrees 1 = 2 ^ 1074) by reflexivity.
  assert (HSh : degrees 1 = 2 ^ 46 * halfStep180).
  { rewrite HS. unfold halfStep180. rewrite <- Z.pow_add_r by lia. reflexivity. }
  assert (Hhdef : halfStep180 = 2 ^ 1028) by reflexivity.
  set (S := degrees 1) in *. set (h := halfStep180) in *. clearbody S h.
  assert (HSpos : 0 < S) by lia.
  set (X := g + 360 * S). set (R := round64 X).
  assert (HrR : round64 R = R) by apply round64_idem.
  assert (H1129 : 2 ^ (53 + 1076) = 2 ^ 55 * S).
  { rewrite HS, <- Z.pow_add_r by lia. reflexivity. }
  assert (H1076 : 2 ^ 1076 = 4 * S).
  { rewrite HS. change 4 with (2 ^ 2). rewrite <- Z.pow_add_r by lia. reflexivity. }
  assert (H1083 : 2 ^ (53 + 1030) = 512 * S).
  { rewrite HS. change 512 with (2 ^ 9). rewrite <- Z.pow_add_r by lia. reflexivity. }
  assert (H1030 : 2 ^ 1030 = 4 * h).
  { rewrite Hhdef. change 4 with (2 ^ 2). rewrite <- Z.pow_add_r by lia. reflexivity. }
  assert (Hbound : Z.abs X < 2 ^ (53 + 1076)) by (rewrite H1129; subst X; lia).
  pose proof (round64_error X 1076 ltac:(lia) Hbound) as Herr.
  fold R in Herr. rewrite H1076 in Herr.
  split; [subst X; lia|].
  destruct (Z_le_gt_dec R (l + 180 * S + h)) as [|Hover]; [assumption|exfalso].
  (* the rounding error is more than 2^-45: [X] has at least 1084 digits *)
  destruct (Z_lt_le_dec (Z.abs X) (2 ^ (53 + 1030))) as [Hsmall|Hlarge].
  { pose proof (round64_error X 1030 ltac:(lia) Hsmall) as Herr'.
    fold R in Herr'. rewrite H1030 in Herr'. subst X. lia. }
  assert (HX0 : X <> 0) by (rewrite H1083 in Hlarge; lia).
  pose proof (Zdigits2_bounds X HX0) as Hdig.
  assert (Hdabs : Zdigits2 (Z.abs X) = Zdigits2 X) by (destruct X; reflexivity).
  pose proof (Zdigits2_ge (Z.abs X) (53 + 1030) ltac:(lia) Hlarge) as Hdlo.
  pose proof (Zdigits2_le (Z.abs X) (53 + 1076) ltac:(lia) Hbound) as Hdhi.
  rewrite Hdabs in Hdlo, Hdhi.
  set (n := Zdigits2 X - 53) in *.
  assert (Hn : 1031 <= n <= 1076) by lia.
  replace (Zdigits2 X - 1) with (n + 52) in Hdig by lia.
  replace (Zdigits2 X) with (53 + n) in Hdig by lia.
  pose proof (round64_error X n ltac:(lia) (proj2 Hdig)) as Herrn. fold R in Herrn.
  (* everything in multiples of w = 2^(n-2) *)
  set (w := 2 ^ (n - 2)).
  assert (Hw : 0 < w) by (apply Z.pow_pos_nonneg; lia).
  assert (Hwn : 2 ^ n = 4 * w).
  { subst w. change 4 with (2 ^ 2). rewrite <- Z.pow_add_r by lia. f_equal. lia. }
  assert (Hw52 : 2 ^ (n - 2 + 52) = 2 ^ 52 * w).
  { subst w. rewrite <- Z.pow_add_r by lia. f_equal. lia. }
  assert (Hw53 : 2 ^ (n - 1 + 52) = 2 ^ 53 * w).
  { subst w. rewrite <- Z.pow_add_r by lia. f_equal. lia. }
  assert (Hw54 : 2 ^ (n + 52) = 2 ^ 54 * w).
  { subst w. rewrite <- Z.pow_add_r by lia. f_equal. lia. }
  assert (Hw1 : 2 ^ (n - 1) = 2 * w).
  { subst w. change 2 with (2 ^ 1) at 2. rewrite <- Z.pow_add_r by lia. f_equal. lia. }
  assert (Hwh : 2 * h <= w).
  { subst w. rewrite Hhdef. change 2 with (2 ^ 1) at 1. rewrite <- Z.pow_add_r by lia.
    apply Z.pow_le_mono_r; lia. }
  set (s := 2 ^ (1076 - n)).
  assert (Hs : 0 < s) by (apply Z.pow_pos_nonneg; lia).
  assert (HSw : S = s * w).
  { subst s w. rewrite HS, <- Z.pow_add_r by lia. f_equal. lia. }
  assert (Hw2 : 2 ^ (n - 2) = w) by reflexivity.
  rewrite Hwn in Herrn. rewrite Hw54 in Hdig. rewrite H1083 in Hlarge.
  clear HS Hhdef H1129 H1076 H1083 H1030 Hbound Hdlo Hdhi Hdabs.
  clearbody w s.
  destruct (Z_lt_le_dec X 0) as [Hneg|Hpos].
  - (* [g] and 360 are multiples of 2^n, so is [X]: nothing is rounded *)
    assert (Hgabs : 2 ^ (n + 52) <= Z.abs g) by (rewrite Hw54; subst X; lia).
    destruct (representable_multiple g n Hrg ltac:(lia) Hgabs) as [cg Hcg].
    assert (Hexact : round64 X = X).
    { apply (round64_multiple X (cg + 90 * s) n); [lia| |lia].
      subst X. rewrite Hcg, Hwn, HSw. ring. }
    fold R in Hexact. subst X. lia.
  - (* [g], [l] and the result are multiples of [w], [2 w] and [4 w] *)
    assert (HXabs : Z.abs X = X) by lia. rewrite HXabs in *.
    assert (Hgabs : 2 ^ (n - 2 + 52) <= Z.abs g) by (rewrite Hw52; subst X; lia).
    assert (Hlabs : 2 ^ (n - 1 + 52) <= Z.abs l) by (rewrite Hw53; subst X; lia).
    assert (HRabs : 2 ^ (n + 52) <= Z.abs R).
    { pose proof (round64_ge_pow2 X (n + 52) ltac:(lia) ltac:(rewrite Hw54; lia)).
      fold R in H. lia. }
    destruct (representable_multiple g (n - 2) Hrg ltac:(lia) Hgabs) as [cg Hcg].
    destruct (representable_multiple l (n - 1) Hrl ltac:(lia) Hlabs) as [cl Hcl].
    destruct (representable_multiple R n HrR ltac:(lia) HRabs) as [cR HcR].
    rewrite Hw2 in Hcg. rewrite Hw1 in Hcl. rewrite Hwn in HcR.
    assert (HP : l - g - 180 * S = (2 * cl - cg - 180 * s) * w).
    { rewrite Hcl, Hcg, HSw. ring. }
    assert (HQ : R - l - 180 * S = 2 * (2 * cR - cl - 90 * s) * w).
    { rewrite Hcl, HcR, HSw. ring. }
    assert (HkP : 1 <= 2 * cl - cg - 180 * s) by nia.
    assert (HkQ : 1 <= 2 * cR - cl - 90 * s) by nia.
    assert (Hsum : R - X = (l - g - 180 * S) + (R - l - 180 * S)) by (subst X; ring).
    rewrite HP, HQ in Hsum. nia.
Qed.

End UnitsLoop.

Section UnitsExact.

Local Open Scope Z_scope.

Lemma roundShift_gt (N n a : Z) :
  0 <= n -> 2 * a * 2 ^ n + 2 ^ n < 2 * N -> a + 1 <= roundShift N n.
Proof.
  intros Hn Hgt. unfold roundShift.
  assert (Hpow : 0 < 2 ^ n) by (apply Z.pow_pos_nonneg; lia).
  pose proof (Z.mod_pos_bound N (2 ^ n) Hpow) as Hr.
  pose proof (Z.div_mod N (2 ^ n) ltac:(lia)) as Hdiv.
  set (q := N / 2 ^ n) in *. set (r := N mod 2 ^ n) in *.
  assert (Hq : a <= q) by nia.
  destruct (Z.eq_dec q a) as [Heq|Hne].
  - destruct (Z.ltb_spec (2 * r) (2 ^ n)); [nia|].
    destruct (Z.ltb_spec (2 ^ n) (2 * r)); [lia|nia].
  - destruct (Z.ltb_spec (2 * r) (2 ^ n)); [lia|].
    destruct (Z.ltb_spec (2 ^ n) (2 * r)); [lia|].
    destruct (Z.even q); lia.
Qed.

Lemma round64_above_180_iff (G : Z) :
  degrees 180 < Z.abs (round64 G) <-> degrees 180 + halfStep180 < Z.abs G.
Proof.
  split; [apply round64_above_180|].
  rewrite round64_abs. set (N := Z.abs G). assert (HN : 0 <= N) by (subst N; lia).
  clearbody N. intros Hfar.
  pose proof halfStep180_pos as Hh.
  pose proof (degrees_halfStep 180) as HA.
  assert (H1081 : 2 ^ 1081 = 128 * 70368744177664 * halfStep180).
  { unfold halfStep180. change (2 ^ 1081) with (2 ^ (53 + 1028)).
    rewrite Z.pow_add_r by lia. change (2 ^ 53) with (128 * 70368744177664). ring. }
  assert (H1082 : 2 ^ 1082 = 2 * 2 ^ 1081).
  { change (2 ^ 1082) with (2 ^ (1 + 1081)). rewrite Z.pow_add_r by lia. reflexivity. }
  destruct (Z_lt_le_dec N (2 ^ 1082)) as [Hsmall|Hbig].
  - assert (Hd : Zdigits2 N = 1082) by (apply Zdigits2_unique; lia).
    rewrite round64_pos by lia.
    rewrite roundUnits_large by lia.
    rewrite Hd. change (1082 - 53) with 1029.
    assert (H1029 : 2 ^ 1029 = 2 * halfStep180).
    { unfold halfStep180. change (2 ^ 1029) with (2 ^ (1 + 1028)).
      rewrite Z.pow_add_r by lia. reflexivity. }
    pose proof (roundShift_gt N 1029 (180 * 35184372088832) ltac:(lia)) as Hq.
    rewrite H1029 in *.
    specialize (Hq ltac:(lia)). nia.
  - pose proof (round64_ge_pow2 N 1082 ltac:(lia) Hbig). lia.
Qed.

Local Open Scope Q_scope.

(** The exact value of a number of units. *)
Lemma hasUnits_exactValue (x : float) (a : Z) :
  hasUnits a (Prim2SF x) ->
  exists q : Q, exactValue x = Some q /\ q == inject_Z a * Qpower 2 (-1074).
Proof.
  intros Hx. unfold exactValue.
  destruct (hasUnits_cases a _ Hx) as [[-> [s ->]]|[Hna (m & k & -> & Hval & Hk)]].
  - exists 0. split; [reflexivity|]. change (inject_Z 0) with 0. ring.
  - eexists. split; [reflexivity|].
    assert (Hk0 : (0 <= k)%Z) by lia.
    assert (Hm : inject_Z (Zpos m) * Qpower 2 (k - 1074)
                 == inject_Z (Z.abs a) * Qpower 2 (-1074)).
    { rewrite Hval, inject_Z_mult.
      rewrite (Zpower_Qpower 2 k) by lia.
      change (inject_Z 2) with 2.
      rewrite <- Qmult_assoc, <- Qpower_plus by (intros H; discriminate H).
      reflexivity. }
    destruct (Z.ltb_spec a 0) as [Hneg|Hpos].
    + transitivity (- (inject_Z (Zpos m) * Qpower 2 (k - 1074))); [ring|].
      rewrite Hm, Z.abs_neq, inject_Z_opp by lia. ring.
    + rewrite Hm, Z.abs_eq by lia. reflexivity.
Qed.

(** A gap in units against 180 + 2^-46, and the same on exact values. *)
Lemma units_gap_exact (x y : float) (a b : Z) (qx qy : Q) :
  hasUnits a (Prim2SF x) -> hasUnits b (Prim2SF y) ->
  exactValue x = Some qx -> exactValue y = Some qy ->
  180 + (1 # 70368744177664) < Qabs (qx - qy)
  <-> (degrees 180 + halfStep180 < Z.abs (a - b))%Z.
Proof.
  intros Hx Hy Hqx Hqy.
  destruct (hasUnits_exactValue x a Hx) as (qx' & Hqx' & Ha).
  destruct (hasUnits_exactValue y b Hy) as (qy' & Hqy' & Hb).
  rewrite Hqx in Hqx'. injection Hqx' as <-.
  rewrite Hqy in Hqy'. injection Hqy' as <-.
  set (u := Qpower 2 (-1074)) in *.
  assert (Hu : 0 < u) by (subst u; apply Qpower_0_lt; reflexivity).
  assert (Hgap : Qabs (qx - qy) == inject_Z (Z.abs (a - b)) * u).
  { rewrite Ha, Hb.
    setoid_replace (inject_Z a * u - inject_Z b * u) with (inject_Z (a - b) * u)
      by (unfold Z.sub; rewrite inject_Z_plus, inject_Z_opp; ring).
    rewrite Qabs_Qmult, (Qabs_pos u) by (apply Qlt_le_weak; exact Hu).
    reflexivity. }
  assert (Hthr : 180 + (1 # 70368744177664)
                 == inject_Z (degrees 180 + halfStep180) * u).
  { subst u. vm_compute. reflexivity. }
  rewrite Hgap, Hthr. split.
  - intros Hlt. apply Qmult_lt_r in Hlt; [|exact Hu]. rewrite <- Zlt_Qlt in Hlt. exact Hlt.
  - intros Hlt. apply Qmult_lt_r; [exact Hu|]. rewrite <- Zlt_Qlt. exact Hlt.
Qed.

End UnitsExact.

Section UnitsFloat.

Local Open Scope Z_scope.

Lemma step_down (l g : Z) :
  round64 l = l -> round64 g = g ->
  Z.abs l <= degrees 9007199254740992 ->
  Z.abs g <= degrees 18014398509481984 ->
  degrees 180 + halfStep180 < g - l ->
  l - degrees 180 - halfStep180 <= round64 (g + degrees (-360)) <= g - degrees 180.
Proof.
  intros Hrl Hrg Hl Hg Hfar.
  assert (Hrl' : round64 (- l) = - l) by (rewrite round64_opp, Hrl; reflexivity).
  assert (Hrg' : round64 (- g) = - g) by (rewrite round64_opp, Hrg; reflexivity).
  pose proof (step_up (- l) (- g) Hrl' Hrg' ltac:(lia) ltac:(lia) ltac:(lia)) as Hup.
  assert (Hopp : - g + degrees 360 = - (g + degrees (-360))) by (unfold degrees; lia).
  rewrite Hopp, round64_opp in Hup. lia.
Qed.

Lemma literal_180_units : hasUnits (degrees 180) (Prim2SF (floatOfZ 180)).
Proof. split; [vm_compute; reflexivity|left; vm_compute; reflexivity]. Qed.

Lemma literal_360_units : hasUnits (degrees 360) (Prim2SF (floatOfZ 360)).
Proof. split; [vm_compute; reflexivity|left; vm_compute; reflexivity]. Qed.

Lemma literal_neg360_units : hasUnits (degrees (-360)) (Prim2SF (floatOfZ (-360))).
Proof. split; [vm_compute; reflexivity|left; vm_compute; reflexivity]. Qed.

Lemma literal_2p53_units :
  hasUnits (degrees 9007199254740992) (Prim2SF 9007199254740992%float).
Proof. split; [vm_compute; reflexivity|left; vm_compute; reflexivity]. Qed.

Lemma degrees_bound (z a : Z) :
  Z.abs z <= 18014398509481984 + 360 -> Z.abs a <= Z.abs (degrees z) -> Z.abs a < 2 ^ 2096.
Proof.
  intros Hz Ha. unfold degrees in Ha.
  assert (Hp : 0 < 2 ^ 1074) by (apply Z.pow_pos_nonneg; lia).
  assert (Hsplit : 2 ^ 2096 = 2 ^ 1022 * 2 ^ 1074).
  { rewrite <- Z.pow_add_r by lia. reflexivity. }
  assert (Hbig : 18014398509481984 + 360 < 2 ^ 1022).
  { apply Z.lt_le_trans with (2 ^ 55); [reflexivity|]. apply Z.pow_le_mono_r; lia. }
  rewrite Hsplit. rewrite Z.abs_mul, (Z.abs_eq (2 ^ 1074)) in Ha by lia.
  set (S := 2 ^ 1074) in *. set (T := 2 ^ 1022) in *. clearbody S T. nia.
Qed.

(** A number whose magnitude is compared with 2^53 and found not above it
    is finite, and so is a number of units. *)
Lemma bounded_hasUnits (x : float) :
  PrimFloat.leb (PrimFloat.abs x) 9007199254740992 = true ->
  exists a : Z, hasUnits a (Prim2SF x) /\ Z.abs a <= degrees 9007199254740992.
Proof.
  rewrite FloatAxioms.leb_spec, FloatAxioms.abs_spec. intros Hle.
  pose proof (FloatAxioms.Prim2SF_valid x) as Hvalid.
  pose proof literal_2p53_units as Hlit.
  assert (Hfin : (exists s, Prim2SF x = S754_zero s) \/
                 (exists s m e, Prim2SF x = S754_finite s m e)).
  { destruct (hasUnits_cases _ _ Hlit) as [[H0 _]|[_ (m & k & Hm & _)]].
    - exfalso. vm_compute in H0. discriminate.
    - rewrite Hm in Hle.
      destruct (Prim2SF x) as [s|s| |s m' e'].
      + left. exists s. reflexivity.
      + exfalso. cbn in Hle. destruct (degrees 9007199254740992 <? 0); discriminate.
      + discriminate.
      + right. exists s, m', e'. reflexivity. }
  destruct (valid_hasUnits (Prim2SF x) Hvalid Hfin) as (a & Ha & _).
  exists a. split; [exact Ha|].
  rewrite (SFleb_units (Z.abs a) (degrees 9007199254740992) _ _
             (SFabs_units a _ Ha) Hlit) in Hle.
  apply Z.leb_le. exact Hle.
Qed.

Section Loop.

Variables (L : float) (l : Z).
Hypothesis HL : hasUnits l (Prim2SF L).
Hypothesis Hl : Z.abs l <= degrees 9007199254740992.

Lemma tooFar_units (c : float) (g : Z) :
  hasUnits g (Prim2SF c) ->
  Z.abs g <= degrees 18014398509481984 ->
  tooFar L c = (degrees 180 <? Z.abs (round64 (l - g))).
Proof.
  intros Hc Hg. rewrite tooFar_float_spec.
  apply SFltb_units; [exact literal_180_units|].
  apply SFabs_units, SFsub_units; try assumption.
  - apply (degrees_bound 9007199254740992); lia.
  - apply (degrees_bound 18014398509481984); lia.
Qed.

Lemma ngt_units (c : float) (g : Z) :
  hasUnits g (Prim2SF c) -> ngt L c = (g <? l).
Proof.
  intros Hc. cbn [ngt float_JsNumber]. rewrite FloatAxioms.ltb_spec.
  apply SFltb_units; assumption.
Qed.

Lemma shiftLng_units (c : float) (g : Z) :
  hasUnits g (Prim2SF c) ->
  Z.abs g <= degrees 18014398509481984 ->
  hasUnits (round64 (g + (if g <? l then degrees 360 else degrees (-360))))
           (Prim2SF (shiftLng L c)).
Proof.
  intros Hc Hg. unfold shiftLng. rewrite (ngt_units c g Hc).
  cbn [nadd numOfZ float_JsNumber]. rewrite FloatAxioms.add_spec.
  assert (Hgb : Z.abs g < 2 ^ 2096) by (apply (degrees_bound 18014398509481984); lia).
  destruct (g <? l).
  - apply SFadd_units; [exact Hc|exact literal_360_units|exact Hgb|].
    apply (degrees_bound 360); lia.
  - apply SFadd_units; [exact Hc|exact literal_neg360_units|exact Hgb|].
    apply (degrees_bound (-360)); lia.
Qed.

Lemma tooFar_units_gap (c : float) (g : Z) :
  hasUnits g (Prim2SF c) ->
  Z.abs g <= degrees 18014398509481984 ->
  tooFar L c = true ->
  degrees 180 + halfStep180 < Z.abs (l - g).
Proof.
  intros Hc Hg Hfar. rewrite (tooFar_units c g Hc Hg) in Hfar.
  apply Z.ltb_lt in Hfar. apply round64_above_180. exact Hfar.
Qed.

(** Passes upwards: the feature is below the click, or above it by no more
    than the loop condition lets through. *)
Lemma run_up (n : nat) :
  forall (c : float) (g : Z),
    hasUnits g (Prim2SF c) ->
    - degrees 18014398509481984 <= g ->
    g <= l + degrees 180 + halfStep180 ->
    l - g <= degrees 180 + halfStep180 + Z.of_nat n * degrees 180 ->
    exists (r : float) (k : Z),
      normalizeLng n L c = Some r /\
      hasUnits k (Prim2SF r) /\ Z.abs k <= degrees 18014398509481984.
Proof.
  pose proof halfStep180_pos as Hh.
  assert (Hdeg : forall z, degrees z = z * degrees 1) by (intros z; unfold degrees; lia).
  pose proof (Hdeg 180) as H180. pose proof (Hdeg 9007199254740992) as H2p53.
  pose proof (Hdeg 18014398509481984) as H2p54.
  assert (HS : 0 < degrees 1) by (unfold degrees; apply Z.mul_pos_pos; [lia|apply Z.pow_pos_nonneg; lia]).
  assert (Hhs : halfStep180 < degrees 1).
  { unfold degrees, halfStep180. rewrite Z.mul_1_l. apply Z.pow_lt_mono_r; lia. }
  induction n as [|n IH]; intros c g Hc Hlo Hhi Hgap;
    assert (Hg : Z.abs g <= degrees 18014398509481984) by lia.
  - destruct (tooFar L c) eqn:Hfar.
    + exfalso.
      pose proof (tooFar_units_gap c g Hc Hg Hfar). cbn [Z.of_nat] in Hgap. lia.
    + exists c, g. split; [apply normalizeLng_done; exact Hfar|]. split; assumption.
  - destruct (tooFar L c) eqn:Hfar.
    + pose proof (tooFar_units_gap c g Hc Hg Hfar) as Hwide.
      assert (Hup : degrees 180 + halfStep180 < l - g) by lia.
      pose proof (shiftLng_units c g Hc Hg) as Hshift.
      replace (g <? l) with true in Hshift by (symmetry; apply Z.ltb_lt; lia).
      pose proof (step_up l g (proj1 HL) (proj1 Hc) Hl Hg Hup) as [Hmore Hnot].
      rewrite (normalizeLng_step n L c Hfar).
      apply (IH _ _ Hshift); [lia|exact Hnot|].
      rewrite Nat2Z.inj_succ in Hgap. lia.
    + exists c, g. split; [apply normalizeLng_done; exact Hfar|]. split; assumption.
Qed.

Lemma run_down (n : nat) :
  forall (c : float) (g : Z),
    hasUnits g (Prim2SF c) ->
    g <= degrees 18014398509481984 ->
    l - degrees 180 - halfStep180 <= g ->
    g - l <= degrees 180 + halfStep180 + Z.of_nat n * degrees 180 ->
    exists (r : float) (k : Z),
      normalizeLng n L c = Some r /\
      hasUnits k (Prim2SF r) /\ Z.abs k <= degrees 18014398509481984.
Proof.
  pose proof halfStep180_pos as Hh.
  assert (Hdeg : forall z, degrees z = z * degrees 1) by (intros z; unfold degrees; lia).
  pose proof (Hdeg 180) as H180. pose proof (Hdeg 9007199254740992) as H2p53.
  pose proof (Hdeg 18014398509481984) as H2p54.
  assert (HS : 0 < degrees 1) by (unfold degrees; apply Z.mul_pos_pos; [lia|apply Z.pow_pos_nonneg; lia]).
  assert (Hhs : halfStep180 < degrees 1).
  { unfold degrees, halfStep180. rewrite Z.mul_1_l. apply Z.pow_lt_mono_r; lia. }
  induction n as [|n IH]; intros c g Hc Hhi Hlo Hgap;
    assert (Hg : Z.abs g <= degrees 18014398509481984) by lia.
  - destruct (tooFar L c) eqn:Hfar.
    + exfalso.
      pose proof (tooFar_units_gap c g Hc Hg Hfar). cbn [Z.of_nat] in Hgap. lia.
    + exists c, g. split; [apply normalizeLng_done; exact Hfar|]. split; assumption.
  - destruct (tooFar L c) eqn:Hfar.
    + pose proof (tooFar_units_gap c g Hc Hg Hfar) as Hwide.
      assert (Hdown : degrees 180 + halfStep180 < g - l) by lia.
      pose proof (shiftLng_units c g Hc Hg) as Hshift.
      replace (g <? l) with false in Hshift by (symmetry; apply Z.ltb_ge; lia).
      pose proof (step_down l g (proj1 HL) (proj1 Hc) Hl Hg Hdown) as [Hnot Hmore].
      rewrite (normalizeLng_step n L c Hfar).
      apply (IH _ _ Hshift); [lia|exact Hnot|].
      rewrite Nat2Z.inj_succ in Hgap. lia.
    + exists c, g. split; [apply normalizeLng_done; exact Hfar|]. split; assumption.
Qed.

End Loop.

(** The loop condition on binary64 numbers of magnitude at most 2^53 and
    2^54, as a comparison of the exact values: the rounded gap is above 180
    exactly when the gap is above 180 + 2^-46. *)
Lemma tooFar_binary64_exact (L c : float) (l g : Z) (qL qc : Q) :
  hasUnits l (Prim2SF L) -> Z.abs l <= degrees 9007199254740992 ->
  hasUnits g (Prim2SF c) -> Z.abs g <= degrees 18014398509481984 ->
  exactValue L = Some qL -> exactValue c = Some qc ->
  tooFar L c = true <-> (180 + (1 # 70368744177664) < Qabs (qL - qc))%Q.
Proof.
  intros HL Hl Hc Hg HqL Hqc.
  rewrite (tooFar_units L l HL Hl c g Hc Hg), Z.ltb_lt, round64_above_180_iff.
  symmetry. apply (units_gap_exact L c); assumption.
Qed.

(** The loop ends for all binary64 longitudes of magnitude at most 2^53,
    at a longitude whose exact distance from the click is at most
    180 + 2^-46. *)
Lemma bounded_loop_ends (L F : float) :
  PrimFloat.leb (PrimFloat.abs L) 9007199254740992 = true ->
  PrimFloat.leb (PrimFloat.abs F) 9007199254740992 = true ->
  exists (fuel : nat) (r : float) (qL qr : Q),
    normalizeLng fuel L F = Some r /\
    exactValue L = Some qL /\
    exactValue r = Some qr /\
    (Qabs (qL - qr) <= 180 + (1 # 70368744177664))%Q.
Proof.
  intros HLb HFb.
  destruct (bounded_hasUnits L HLb) as (l & HL & Hl).
  destruct (bounded_hasUnits F HFb) as (g & HF & Hg).
  pose proof halfStep180_pos as Hh.
  assert (Hdeg : forall z, degrees z = z * degrees 1) by (intros z; unfold degrees; lia).
  pose proof (Hdeg 180) as H180. pose proof (Hdeg 9007199254740992) as H2p53.
  pose proof (Hdeg 18014398509481984) as H2p54.
  assert (HS : 0 < degrees 1) by (unfold degrees; apply Z.mul_pos_pos; [lia|apply Z.pow_pos_nonneg; lia]).
  set (n := Z.to_nat (Z.abs (l - g) / degrees 180 + 1)).
  assert (Hn : Z.abs (l - g) <= Z.of_nat n * degrees 180).
  { subst n.
    assert (Hq : 0 <= Z.abs (l - g) / degrees 180) by (apply Z.div_pos; lia).
    rewrite Z2Nat.id by lia.
    pose proof (Z.mod_pos_bound (Z.abs (l - g)) (degrees 180) ltac:(lia)) as Hmod.
    pose proof (Z.div_mod (Z.abs (l - g)) (degrees 180) ltac:(lia)) as Hdiv.
    nia. }
  assert (Hrun : exists (r : float) (k : Z),
             normalizeLng n L F = Some r /\
             hasUnits k (Prim2SF r) /\ Z.abs k <= degrees 18014398509481984).
  { destruct (Z_le_gt_dec g l) as [Hle|Hgt].
    - apply (run_up L l HL Hl n F g HF); lia.
    - apply (run_down L l HL Hl n F g HF); lia. }
  destruct Hrun as (r & k & Hrun & Hr & Hk).
  destruct (hasUnits_exactValue L l HL) as (qL & HqL & _).
  destruct (hasUnits_exactValue r k Hr) as (qr & Hqr & _).
  exists n, r, qL, qr. repeat split; try assumption.
  pose proof (normalizeLng_result_near L n F r Hrun) as Hnear.
  apply Qnot_lt_le. intros Hgap.
  apply (tooFar_binary64_exact L r l k qL qr HL Hl Hr Hk HqL Hqr) in Hgap. congruence.
Qed.

End UnitsFloat.


(* ================================================================= *)
(** ** Lookup among the hazard categories *)

Lemma find_value_none (v : string) (opts : list Option) :
  ~ In v (map value opts) ->
  find (fun option => String.eqb (value option) v) opts = None.
Proof.
  induction opts as [|o opts IH]; intros Hnot; simpl.
  - reflexivity.
  - destruct (String.eqb_spec (value o) v) as [Heq|Hneq].
    + exfalso. apply Hnot. left. exact Heq.
    + apply IH. intros Hin. apply Hnot. right. exact Hin.
Qed.

Lemma find_value_some (v : string) (opts : list Option) :
  In v (map value opts) ->
  exists o, find (fun option => String.eqb (value option) v) opts = Some o /\
            In o opts /\ value o = v.
Proof.
  induction opts as [|o opts IH]; intros Hin; simpl in *.
  - contradiction.
  - destruct (String.eqb_spec (value o) v) as [Heq|Hneq].
    + exists o. auto.
    + destruct Hin as [Heq|Hin]; [contradiction|].
      destruct (IH Hin) as (o' & Hfind & Hin' & Hval).
      exists o'. auto.
Qed.

(* ================================================================= *)
(** ** Frame facts of the handlers *)

(** [resetHazardForm] writes [drawPoint] and nothing else. *)
Lemma resetHazardForm_frame (s : AppState) :
  dispatch s resetHazardForm = step s (setDrawPoint false) /\
  hazardType (dispatch s resetHazardForm) = hazardType s /\
  notes (dispatch s resetHazardForm) = notes s.
Proof. repeat split. Qed.

(** With the shape [GET /hazards] answers in, [{ type, geojson }], the
    [mutate] callback ends in a type error once the request has resolved:
    there is no [features] member to spread. *)
Lemma mutateCallback_on_fetched_shape (newHazard : Feature) :
  mutateCallback (Some fetchedData) (Some newHazard) = inl TypeError.
Proof. reflexivity. Qed.

(** Whatever object the [mutate] callback builds has no [geojson] member,
    so rendering from it is a type error. *)
Lemma mutateCallback_value_not_renderable
  (captured : option HazardData) (response : option Feature) (d : HazardData) :
  mutateCallback captured response = inr d ->
  renderSource (Some d) = inl TypeError.
Proof.
  unfold mutateCallback. intros Hcb.
  destruct response as [h|]; [|discriminate].
  destruct captured as [c|]; [|discriminate].
  destruct (features c) as [fs|]; [|discriminate].
  injection Hcb as <-. reflexivity.
Qed.

(* ================================================================= *)
(** ** Claims *)




(** C2 fails on the code.  Leaving reporting mode, by the Reset button or
    by a submit, does set [drawPoint] to false, but the form keeps its
    category and its notes: from category OTHER with notes, both exits end
    with category OTHER and the same notes, not with FLOODED_ROAD and the
    empty string. *)
Theorem C2_exit_keeps_form_state :
  drawPoint (dispatch reportingState resetHazardForm) = false /\
  value (hazardType (dispatch reportingState resetHazardForm)) = "OTHER" /\
  notes (dispatch reportingState resetHazardForm) = "debris on shoulder" /\
  drawPoint (dispatch reportingState submitHazardForm) = false /\
  value (hazardType (dispatch reportingState submitHazardForm)) = "OTHER" /\
  notes (dispatch reportingState submitHazardForm) = "debris on shoulder".
Proof. repeat split. Qed.

(** C3, as stated, fails: a value outside the three categories clears the
    notes. *)
Lemma C3_unknown_value_clears_notes :
  ~ In "SINKHOLE" (map value hazardOptions) /\
  notes reportingState = "debris on shoulder" /\
  notes (dispatch reportingState (handleHazardOptionSelected "SINKHOLE")) = "" /\
  notes (dispatch reportingState (handleHazardOptionSelected "SINKHOLE"))
    <> notes reportingState.
Proof.
  split.
  - simpl. intros [H|[H|[H|[]]]]; discriminate.
  - split; [reflexivity|]. split; [reflexivity|]. discriminate.
Qed.

(** C3, amended.  For a value that is none of the categories, the handler
    does not throw and only issues [setNotes("")]: the category and every
    other part of the state stay as they were, and the notes become the
    empty string. *)
Theorem C3_unknown_value_keeps_category (v : string) (s : AppState) :
  ~ In v (map value hazardOptions) ->
  handleHazardOptionSelected v s = [setNotes ""] /\
  throws (handleHazardOptionSelected v s) = false /\
  dispatch s (handleHazardOptionSelected v) = step s (setNotes "") /\
  hazardType (dispatch s (handleHazardOptionSelected v)) = hazardType s /\
  notes (dispatch s (handleHazardOptionSelected v)) = "".
Proof.
  intros Hnot.
  assert (Hcmds : handleHazardOptionSelected v s = [setNotes ""]).
  { unfold handleHazardOptionSelected. rewrite (find_value_none v _ Hnot).
    reflexivity. }
  unfold dispatch. rewrite Hcmds. repeat split.
Qed.

Lemma C3_unknown_value_keeps_category_witness :
  ~ In "SINKHOLE" (map value hazardOptions) /\
  hazardType (dispatch reportingState (handleHazardOptionSelected "SINKHOLE"))
    = otherOption.
Proof.
  assert (Hnot : ~ In "SINKHOLE" (map value hazardOptions)).
  { simpl. intros [H|[H|[H|[]]]]; discriminate. }
  split; [exact Hnot|].
  destruct (C3_unknown_value_keeps_category "SINKHOLE" reportingState Hnot)
    as (_ & _ & _ & Hcat & _).
  exact Hcat.
Defined.

(** C4.  When the user is not authenticated, the toggle leaves the state,
    and so the draw mode, as it was (Browsing stays Browsing) and issues one
    notification, "Login to add a hazard.", and nothing else. *)
Theorem C4_toggle_unauthenticated (s : AppState) :
  isAuthenticated s = false ->
  toggleDrawPoint s = [toast_error "Login to add a hazard." 3000] /\
  dispatch s toggleDrawPoint = s /\
  drawPoint (dispatch s toggleDrawPoint) = drawPoint s /\
  (drawPoint s = false -> drawPoint (dispatch s toggleDrawPoint) = false) /\
  List.length (toasts (toggleDrawPoint s)) = 1%nat.
Proof.
  intros Hauth.
  assert (Hcmds : toggleDrawPoint s = [toast_error "Login to add a hazard." 3000]).
  { unfold toggleDrawPoint. rewrite Hauth. reflexivity. }
  unfold dispatch. rewrite Hcmds. repeat split. intros Hbrowse. exact Hbrowse.
Qed.

Lemma C4_toggle_unauthenticated_witness :
  isAuthenticated initialState = false /\
  drawPoint (dispatch initialState toggleDrawPoint) = false /\
  toasts (toggleDrawPoint initialState) = ["Login to add a hazard."].
Proof.
  split; [reflexivity|].
  destruct (C4_toggle_unauthenticated initialState eq_refl)
    as (Hcmds & _ & _ & Hstay & _).
  split; [apply Hstay; reflexivity|].
  rewrite Hcmds. reflexivity.
Defined.

(** C5.  Without an access token the submit handler issues no [mutate], so
    no request; it shows "Login to add hazards." and leaves the whole state
    (draw mode, form, cached collection) as it was. *)
Theorem C5_submit_without_token (s : AppState) :
  accessToken s = None ->
  submitHazardForm s = [preventDefault; toast_error "Login to add hazards." 3000] /\
  requests (submitHazardForm s) = [] /\
  toasts (submitHazardForm s) = ["Login to add hazards."] /\
  dispatch s submitHazardForm = s.
Proof.
  intros Htoken.
  assert (Hcmds : submitHazardForm s
                  = [preventDefault; toast_error "Login to add hazards." 3000]).
  { unfold submitHazardForm. rewrite Htoken. reflexivity. }
  unfold dispatch. rewrite Hcmds. repeat split.
Qed.

Lemma C5_submit_without_token_witness :
  accessToken tokenPendingState = None /\
  requests (submitHazardForm tokenPendingState) = [] /\
  dispatch tokenPendingState submitHazardForm = tokenPendingState.
Proof.
  split; [reflexivity|].
  destruct (C5_submit_without_token tokenPendingState eq_refl)
    as (_ & Hreq & _ & Hsame).
  split; [exact Hreq | exact Hsame].
Defined.




(** C7.  The opacity of the heatmap layer is interpolated linearly on the
    zoom with exactly two stops, 1 at zoom 7 and 0 at [MAX_HEATMAP_LEVEL],
    which is 9 and is the layer's [maxzoom]. *)
Theorem C7_heatmap_opacity_stops :
  input (heatmap_opacity (paint heatmapLayer)) = Zoom /\
  stops (heatmap_opacity (paint heatmapLayer))
    = [(7%float, num_stop 1); (MAX_HEATMAP_LEVEL, num_stop 0)] /\
  stopAt 7 (heatmap_opacity (paint heatmapLayer)) = Some (num_stop 1) /\
  stopAt MAX_HEATMAP_LEVEL (heatmap_opacity (paint heatmapLayer)) = Some (num_stop 0) /\
  MAX_HEATMAP_LEVEL = 9%float /\
  maxzoom heatmapLayer = MAX_HEATMAP_LEVEL.
Proof. repeat split. Qed.

(** C8, as stated, fails: the state keeps no zoom.  Two viewport changes
    that differ in zoom only leave the same state, so nothing in the state
    holds the zoom of the event. *)
Lemma C8_zoom_is_not_stored :
  PrimFloat.eqb (zoom (viewState (moveTo 144 (-37) 4)))
                (zoom (viewState (moveTo 144 (-37) 9))) = false /\
  dispatch initialState (updateMapCenterCoordinates (moveTo 144 (-37) 4))
  = dispatch initialState (updateMapCenterCoordinates (moveTo 144 (-37) 9)) /\
  ~ (exists zoomOf : AppState -> float,
       forall (e : ViewStateChangeEvent) (s : AppState),
         zoomOf (dispatch s (updateMapCenterCoordinates e)) = zoom (viewState e)).
Proof.
  split; [vm_compute; reflexivity|]. split; [reflexivity|].
  intros [zoomOf Hzoom].
  pose proof (Hzoom (moveTo 144 (-37) 4) initialState) as H4.
  pose proof (Hzoom (moveTo 144 (-37) 9) initialState) as H9.
  change (dispatch initialState (updateMapCenterCoordinates (moveTo 144 (-37) 9)))
    with (dispatch initialState (updateMapCenterCoordinates (moveTo 144 (-37) 4))) in H9.
  rewrite H4 in H9. simpl in H9.
  apply (f_equal (fun x => PrimFloat.eqb x 4)) in H9.
  vm_compute in H9. discriminate.
Qed.

(** C8, amended.  Every viewport change overwrites the latitude and the
    longitude of the state with the event's, whatever they are, and leaves
    the rest of the state as it was; the zoom of the event is not read. *)
Theorem C8_viewport_change_overwrites_center (e : ViewStateChangeEvent) (s : AppState) :
  lat (dispatch s (updateMapCenterCoordinates e)) = latitude (viewState e) /\
  lng (dispatch s (updateMapCenterCoordinates e)) = longitude (viewState e) /\
  dispatch s (updateMapCenterCoordinates e)
  = {| drawPoint := drawPoint s;
       lng := longitude (viewState e);
       lat := latitude (viewState e);
       hazardType := hazardType s;
       isAuthenticated := isAuthenticated s;
       accessToken := accessToken s;
       notes := notes s;
       data := data s |} /\
  forall z : float,
    dispatch s (updateMapCenterCoordinates
                  (moveTo (longitude (viewState e)) (latitude (viewState e)) z))
    = dispatch s (updateMapCenterCoordinates e).
Proof. repeat split. Qed.

(** C9.  After the selection of any of the categories the notes are the
    empty string, whatever they were and whether or not the category
    changes, and the category is the one selected. *)
Theorem C9_selection_clears_notes (v : string) (s : AppState) :
  In v (map value hazardOptions) ->
  notes (dispatch s (handleHazardOptionSelected v)) = "" /\
  value (hazardType (dispatch s (handleHazardOptionSelected v))) = v /\
  In (hazardType (dispatch s (handleHazardOptionSelected v))) hazardOptions.
Proof.
  intros Hin.
  destruct (find_value_some v hazardOptions Hin) as (o & Hfind & Hopt & Hval).
  assert (Hcmds : handleHazardOptionSelected v s = [setNotes ""; selectHazardType o]).
  { unfold handleHazardOptionSelected. rewrite Hfind. reflexivity. }
  unfold dispatch. rewrite Hcmds. simpl. auto.
Qed.

Lemma C9_selection_clears_notes_witness :
  In "OTHER" (map value hazardOptions) /\
  value (hazardType reportingState) = "OTHER" /\
  notes reportingState = "debris on shoulder" /\
  notes (dispatch reportingState (handleHazardOptionSelected "OTHER")) = "".
Proof.
  assert (Hin : In "OTHER" (map value hazardOptions)).
  { simpl. right. right. left. reflexivity. }
  split; [exact Hin|]. split; [reflexivity|]. split; [reflexivity|].
  exact (proj1 (C9_selection_clears_notes "OTHER" reportingState Hin)).
Defined.

(** C10, as stated, fails on binary64 numbers.  The click longitude 0 and
    the feature longitude 2^64 are finite, the gap exceeds 180, and
    subtracting 360 from 2^64 gives 2^64 again: no number of passes ends
    the loop. *)
Lemma C10_loop_never_ends_at_2p64 :
  PrimFloat.is_finite 0%float = true /\
  PrimFloat.is_finite lng_2p64 = true /\
  tooFar 0%float lng_2p64 = true /\
  shiftLng 0%float lng_2p64 = lng_2p64 /\
  ~ (exists (fuel : nat) (r : float),
       normalizeLng fuel 0%float lng_2p64 = Some r).
Proof.
  assert (Hfar : tooFar 0%float lng_2p64 = true) by (vm_compute; reflexivity).
  assert (Hfix : shiftLng 0%float lng_2p64 = lng_2p64) by (vm_compute; reflexivity).
  split; [vm_compute; reflexivity|]. split; [vm_compute; reflexivity|].
  split; [exact Hfar|]. split; [exact Hfix|].
  intros (fuel & r & Hrun).
  rewrite (normalizeLng_stuck _ _ Hfar Hfix fuel) in Hrun. discriminate.
Qed.

(** C10, amended to a bound on the magnitudes.  For every pair of binary64
    numbers of magnitude at most 2^53, as click and feature longitude, the
    loop terminates: some number of passes gives a result, any larger
    budget gives the same result, and at the result the loop condition is
    false, which puts it within 180 + 2^-46 of the click longitude. *)
Theorem C10_binary64_loop_terminates (L F : float) :
  PrimFloat.leb (PrimFloat.abs L) 9007199254740992 = true ->
  PrimFloat.leb (PrimFloat.abs F) 9007199254740992 = true ->
  exists (fuel : nat) (r : float) (qL qr : Q),
    normalizeLng fuel L F = Some r /\
    (forall extra : nat, normalizeLng (fuel + extra) L F = Some r) /\
    tooFar L r = false /\
    exactValue L = Some qL /\
    exactValue r = Some qr /\
    (Qabs (qL - qr) <= 180 + (1 # 70368744177664))%Q.
Proof.
  intros HL HF.
  destruct (bounded_loop_ends L F HL HF) as (fuel & r & qL & qr & Hrun & HqL & Hqr & Hgap).
  exists fuel, r, qL, qr.
  split; [exact Hrun|]. split.
  - intros extra. apply normalizeLng_more_fuel, Hrun.
  - split; [exact (normalizeLng_result_near _ _ _ _ Hrun)|].
    split; [exact HqL|]. split; [exact Hqr | exact Hgap].
Qed.

Lemma C10_binary64_loop_terminates_witness :
  PrimFloat.leb (PrimFloat.abs 143.8503) 9007199254740992 = true /\
  PrimFloat.leb (PrimFloat.abs (-935.9)) 9007199254740992 = true /\
  normalizeLng 3 143.8503%float (-935.9)%float = Some 144.10000000000002%float /\
  exists (fuel : nat) (r : float) (qL qr : Q),
    normalizeLng fuel 143.8503%float (-935.9)%float = Some r /\
    tooFar 143.8503%float r = false /\
    exactValue 143.8503 = Some qL /\
    exactValue r = Some qr /\
    (Qabs (qL - qr) <= 180 + (1 # 70368744177664))%Q.
Proof.
  assert (HL : PrimFloat.leb (PrimFloat.abs 143.8503) 9007199254740992 = true)
    by (vm_compute; reflexivity).
  assert (HF : PrimFloat.leb (PrimFloat.abs (-935.9)) 9007199254740992 = true)
    by (vm_compute; reflexivity).
  split; [exact HL|]. split; [exact HF|]. split; [vm_compute; reflexivity|].
  destruct (C10_binary64_loop_terminates 143.8503%float (-935.9)%float HL HF)
    as (fuel & r & qL & qr & Hrun & _ & Hnear & HqL & Hqr & Hgap).
  exists fuel, r, qL, qr. auto.
Defined.

(* ================================================================= *)
(** ** Events: what the form can hold and what is sent *)

Lemma react_keeps_notesNeedOther (s : AppState) (ev : UiEvent) :
  enabled s ev = true -> notesNeedOther s -> notesNeedOther (react s ev).
Proof.
  unfold notesNeedOther, react. intros Hen Hinv.
  destruct ev; cbn [handlerOf environment enabled] in *.
  - exact Hinv.
  - unfold toggleDrawPoint. destruct (negb (isAuthenticated s)); exact Hinv.
  - unfold handleHazardOptionSelected.
    destruct (find _ hazardOptions); left; reflexivity.
  - right. apply andb_true_iff in Hen as [_ Hother].
    apply String.eqb_eq, Hother.
  - exact Hinv.
  - unfold submitHazardForm. destruct (accessToken s); exact Hinv.
  - unfold getUserAccessToken. destruct result; exact Hinv.
  - exact Hinv.
  - exact Hinv.
Qed.

Lemma react_keeps_category_listed (s : AppState) (ev : UiEvent) :
  In (hazardType s) hazardOptions -> In (hazardType (react s ev)) hazardOptions.
Proof.
  unfold react. intros Hinv.
  destruct ev; cbn [handlerOf environment].
  - exact Hinv.
  - unfold toggleDrawPoint. destruct (negb (isAuthenticated s)); exact Hinv.
  - unfold handleHazardOptionSelected.
    destruct (find _ hazardOptions) as [o|] eqn:Hfind; [|exact Hinv].
    apply find_some in Hfind. exact (proj1 Hfind).
  - exact Hinv.
  - exact Hinv.
  - unfold submitHazardForm. destruct (accessToken s); exact Hinv.
  - unfold getUserAccessToken. destruct result; exact Hinv.
  - exact Hinv.
  - exact Hinv.
Qed.

Lemma runEvents_invariant (P : AppState -> Prop) :
  (forall s ev, enabled s ev = true -> P s -> P (react s ev)) ->
  forall trace s s', P s -> runEvents s trace = Some s' -> P s'.
Proof.
  intros Hstep. induction trace as [|ev trace IH]; intros s s' HP Hrun; simpl in Hrun.
  - injection Hrun as <-. exact HP.
  - destruct (enabled s ev) eqn:Hen; [|discriminate].
    eapply IH; [|exact Hrun]. apply Hstep; assumption.
Qed.







(* ================================================================= *)
(** ** Events: the draw mode and the token *)

(** Reporting mode is entered by no event but a click on Add Hazard made
    while the user is authenticated. *)
Theorem reporting_entered_only_authenticated (s : AppState) (ev : UiEvent) :
  drawPoint s = false ->
  drawPoint (react s ev) = true ->
  ev = clickAddHazard /\ isAuthenticated s = true.
Proof.
  intros Hoff Hon. unfold react in Hon.
  destruct ev; cbn [handlerOf environment] in Hon.
  - simpl in Hon. congruence.
  - split; [reflexivity|]. unfold toggleDrawPoint in Hon.
    destruct (isAuthenticated s); [reflexivity|].
    simpl in Hon. congruence.
  - unfold handleHazardOptionSelected in Hon.
    destruct (find _ hazardOptions); simpl in Hon; congruence.
  - simpl in Hon. congruence.
  - simpl in Hon. discriminate.
  - unfold submitHazardForm in Hon.
    destruct (accessToken s); simpl in Hon; congruence.
  - unfold getUserAccessToken in Hon.
    destruct result; simpl in Hon; congruence.
  - simpl in Hon. congruence.
  - simpl in Hon. congruence.
Qed.

Lemma reporting_entered_only_authenticated_witness :
  drawPoint (react initialState (authChanged true)) = false /\
  drawPoint (react (react initialState (authChanged true)) clickAddHazard) = true /\
  isAuthenticated (react initialState (authChanged true)) = true.
Proof.
  split; [reflexivity|]. split; [reflexivity|].
  exact (proj2 (reporting_entered_only_authenticated
                  (react initialState (authChanged true)) clickAddHazard
                  eq_refl eq_refl)).
Defined.

(** From reporting mode, the events that end it are exactly Reset, a
    submit with a token in the state, and a click on Add Hazard by an
    authenticated user (the toolbar keeps the button mounted while its
    leave transition runs); no other event, and in particular neither a
    change of authentication nor the token effect settling, leaves
    reporting mode. *)
Theorem reporting_left_only_by_reset_submit_or_toggle (s : AppState) (ev : UiEvent) :
  drawPoint s = true ->
  drawPoint (react s ev) = false <->
  ev = clickReset \/
  (ev = submitForm /\ exists token, accessToken s = Some token) \/
  (ev = clickAddHazard /\ isAuthenticated s = true).
Proof.
  intros Hon. unfold react. split.
  - intros Hoff. destruct ev; cbn [handlerOf environment] in *.
    + simpl in Hoff. congruence.
    + right. right. split; [reflexivity|]. unfold toggleDrawPoint in Hoff.
      destruct (isAuthenticated s); [reflexivity|]. simpl in Hoff. congruence.
    + unfold handleHazardOptionSelected in Hoff.
      destruct (find _ hazardOptions); simpl in Hoff; congruence.
    + simpl in Hoff. congruence.
    + left. reflexivity.
    + right. left. split; [reflexivity|]. unfold submitHazardForm in Hoff.
      destruct (accessToken s) as [token|]; [exists token; reflexivity|].
      simpl in Hoff. congruence.
    + unfold getUserAccessToken in Hoff.
      destruct result; simpl in Hoff; congruence.
    + simpl in Hoff. congruence.
    + simpl in Hoff. congruence.
  - intros [->|[[-> [token Htoken]]|[-> Hauth]]]; cbn [handlerOf environment].
    + reflexivity.
    + unfold submitHazardForm. rewrite Htoken. reflexivity.
    + unfold toggleDrawPoint. rewrite Hauth, Hon. reflexivity.
Qed.

Lemma reporting_left_only_by_reset_submit_or_toggle_witness :
  drawPoint reportingState = true /\
  isAuthenticated reportingState = true /\
  drawPoint (react reportingState clickAddHazard) = false /\
  drawPoint (react reportingState (authChanged false)) = true.
Proof.
  pose proof (reporting_left_only_by_reset_submit_or_toggle
                reportingState clickAddHazard eq_refl) as Htoggle.
  split; [reflexivity|]. split; [reflexivity|]. split.
  - apply Htoggle. right. right. split; reflexivity.
  - reflexivity.
Defined.

Lemma runEvents_app (trace more : list UiEvent) :
  forall s s1,
    runEvents s trace = Some s1 ->
    runEvents s (trace ++ more) = runEvents s1 more.
Proof.
  induction trace as [|ev trace IH]; intros s s1 Hrun; simpl in Hrun.
  - injection Hrun as <-. reflexivity.
  - simpl. destruct (enabled s ev); [|discriminate]. apply IH, Hrun.
Qed.

(** With the form open and a token in the state, choosing OTHER, typing
    notes and submitting are all possible in that order; the submit sends
    one request, with the category OTHER, the notes as typed and the centre
    of the map, and the next state is back in browsing mode with the Add
    Hazard button rendered, whatever becomes of the request. *)
Theorem report_other_with_notes (s : AppState) (token text : string) :
  drawPoint s = true ->
  accessToken s = Some token ->
  exists s1 s2,
    runEvents s [changeHazardType "OTHER"; changeNotes text] = Some s1 /\
    requests (handlerOf submitForm s1) = [SaveHazard (lat s) (lng s) "OTHER" text token] /\
    toasts (handlerOf submitForm s1) = [] /\
    runEvents s [changeHazardType "OTHER"; changeNotes text; submitForm] = Some s2 /\
    drawPoint s2 = false /\
    enabled s2 clickAddHazard = true /\
    data s2 = data s.
Proof.
  intros Hon Htoken.
  assert (Hsel : react s (changeHazardType "OTHER")
                 = step (step s (setNotes "")) (selectHazardType otherOption))
    by reflexivity.
  set (s1 := react (react s (changeHazardType "OTHER")) (changeNotes text)).
  assert (Hs1 : s1 = step (step (step s (setNotes "")) (selectHazardType otherOption))
                          (setNotes text)).
  { unfold s1. rewrite Hsel. reflexivity. }
  assert (Hrun1 : runEvents s [changeHazardType "OTHER"; changeNotes text] = Some s1).
  { cbn [runEvents enabled]. rewrite Hon, Hsel. cbn. rewrite Hon. reflexivity. }
  assert (Hsub : handlerOf submitForm s1
                 = [ preventDefault;
                     mutate "/hazards" (SaveHazard (lat s) (lng s) "OTHER" text token)
                       (data s) true;
                     setDrawPoint false ]).
  { rewrite Hs1. cbn [handlerOf]. unfold submitHazardForm. cbn. rewrite Htoken.
    reflexivity. }
  exists s1, (react s1 submitForm).
  split; [exact Hrun1|].
  split; [rewrite Hsub; reflexivity|].
  split; [rewrite Hsub; reflexivity|].
  split.
  - change [changeHazardType "OTHER"; changeNotes text; submitForm]
      with ([changeHazardType "OTHER"; changeNotes text] ++ [submitForm]).
    rewrite (runEvents_app _ _ s s1 Hrun1). cbn [runEvents enabled].
    assert (Hon1 : drawPoint s1 = true) by (rewrite Hs1; exact Hon).
    rewrite Hon1. reflexivity.
  - unfold react. cbn [environment]. rewrite Hsub. rewrite Hs1. cbn. auto.
Qed.

Lemma report_other_with_notes_witness :
  drawPoint tokenReadyState = true /\
  accessToken tokenReadyState = Some "token" /\
  exists s1 s2,
    runEvents tokenReadyState [changeHazardType "OTHER"; changeNotes "debris on shoulder"]
    = Some s1 /\
    requests (handlerOf submitForm s1)
    = [SaveHazard (-37.5622) 143.8503 "OTHER" "debris on shoulder" "token"] /\
    toasts (handlerOf submitForm s1) = [] /\
    runEvents tokenReadyState
      [changeHazardType "OTHER"; changeNotes "debris on shoulder"; submitForm] = Some s2 /\
    drawPoint s2 = false /\
    enabled s2 clickAddHazard = true /\
    data s2 = data tokenReadyState.
Proof.
  split; [reflexivity|]. split; [reflexivity|].
  exact (report_other_with_notes tokenReadyState "token" "debris on shoulder"
           eq_refl eq_refl).
Defined.

(** A submit reports the hazard at the centre of the last viewport change:
    after [onMove] the request carries the latitude and longitude of that
    event, and an earlier viewport change leaves no trace. *)
Theorem submit_reports_last_center
  (s : AppState) (earlier event : ViewStateChangeEvent) (token : string) :
  accessToken s = Some token ->
  react (react s (onMove earlier)) (onMove event) = react s (onMove event) /\
  requests (handlerOf submitForm (react (react s (onMove earlier)) (onMove event)))
  = [ SaveHazard (latitude (viewState event)) (longitude (viewState event))
        (value (hazardType s)) (notes s) token ].
Proof.
  intros Htoken.
  assert (Hlast : react (react s (onMove earlier)) (onMove event) = react s (onMove event))
    by reflexivity.
  split; [exact Hlast|]. rewrite Hlast.
  cbn [handlerOf]. unfold submitHazardForm. cbn. rewrite Htoken. reflexivity.
Qed.

Lemma submit_reports_last_center_witness :
  accessToken reportingState = Some "token" /\
  requests (handlerOf submitForm
              (react (react reportingState (onMove (moveTo 144 (-37) 4)))
                     (onMove (moveTo 150.5 (-33.25) 9))))
  = [SaveHazard (-33.25) 150.5 "OTHER" "debris on shoulder" "token"].
Proof.
  split; [reflexivity|].
  exact (proj2 (submit_reports_last_center reportingState (moveTo 144 (-37) 4)
                  (moveTo 150.5 (-33.25) 9) "token" eq_refl)).
Defined.

(** While the user is authenticated, Add Hazard negates [drawPoint] and
    changes nothing else: its one command is that setter, the next state
    is the old one with [drawPoint] negated, and handled twice it gives
    back the state it started from. *)
Theorem toggle_twice_is_identity (s : AppState) :
  isAuthenticated s = true ->
  toggleDrawPoint s = [setDrawPoint (negb (drawPoint s))] /\
  dispatch s toggleDrawPoint
  = {| drawPoint := negb (drawPoint s); lng := lng s; lat := lat s;
       hazardType := hazardType s; isAuthenticated := isAuthenticated s;
       accessToken := accessToken s; notes := notes s; data := data s |} /\
  dispatch (dispatch s toggleDrawPoint) toggleDrawPoint = s.
Proof.
  intros Hauth. unfold dispatch, toggleDrawPoint.
  rewrite Hauth. cbn. rewrite Hauth. cbn.
  rewrite negb_involutive. destruct s. cbn in *. subst. auto.
Qed.

Lemma toggle_twice_is_identity_witness :
  isAuthenticated reportingState = true /\
  dispatch reportingState toggleDrawPoint
  = {| drawPoint := false; lng := 144.25; lat := (-36.75);
       hazardType := otherOption; isAuthenticated := true;
       accessToken := Some "token"; notes := "debris on shoulder";
       data := Some fetchedData |} /\
  dispatch (dispatch reportingState toggleDrawPoint) toggleDrawPoint = reportingState.
Proof.
  destruct (toggle_twice_is_identity reportingState eq_refl) as (_ & Hone & Htwice).
  split; [reflexivity|]. split; [exact Hone | exact Htwice].
Defined.


(** Reset followed by Add Hazard, by an authenticated user, gives back the
    very state the form was left in: the category and the notes chosen
    before the Reset are those of the reopened form, and of a submit made
    from it. *)
Theorem reset_then_reopen_restores (s : AppState) :
  drawPoint s = true ->
  isAuthenticated s = true ->
  runEvents s [clickReset; clickAddHazard] = Some s /\
  handlerOf submitForm (react (react s clickReset) clickAddHazard)
  = handlerOf submitForm s.
Proof.
  intros Hon Hauth.
  assert (Hback : react (react s clickReset) clickAddHazard = s).
  { unfold react. cbn [handlerOf environment]. unfold resetHazardForm, toggleDrawPoint.
    cbn. rewrite Hauth. cbn. destruct s. cbn in *. subst. reflexivity. }
  split; [|rewrite Hback; reflexivity].
  cbn [runEvents enabled]. rewrite Hon.
  assert (Hoff : drawPoint (react s clickReset) = false) by reflexivity.
  rewrite Hoff. cbn [negb]. rewrite Hback. reflexivity.
Qed.

Lemma reset_then_reopen_restores_witness :
  drawPoint reportingState = true /\
  isAuthenticated reportingState = true /\
  runEvents reportingState [clickReset; clickAddHazard] = Some reportingState.
Proof.
  split; [reflexivity|]. split; [reflexivity|].
  exact (proj1 (reset_then_reopen_restores reportingState eq_refl eq_refl)).
Defined.

(* ================================================================= *)
(** ** Icons *)

Lemma iconImage_cases (f : Feature) :
  (feature_hazardType f = "FLOODED_ROAD" /\ iconImage f = "flood-pin") \/
  (feature_hazardType f <> "FLOODED_ROAD" /\ iconImage f = "warning-pin").
Proof.
  unfold iconImage, evalMatch.
  cbn [symbolLayer layout icon_image match_cases match_fallback find fst snd].
  destruct (String.eqb_spec "FLOODED_ROAD" (feature_hazardType f)) as [Hflood|Hflood].
  - left. split; [symmetry; exact Hflood | reflexivity].
  - right. split; [intros H; apply Hflood; symmetry; exact H|].
    destruct (String.eqb "TREE_DOWN" (feature_hazardType f)); reflexivity.
Qed.

(** The symbol layer draws a feature with [flood-pin] exactly when its
    hazard type is FLOODED_ROAD and with [warning-pin] otherwise, unknown
    types included; once both images of [loadExtras] have loaded, the image
    it draws any feature with has been added to the map. *)
Theorem layer_icon_is_loaded (f : Feature) :
  (iconImage f = "flood-pin" <-> feature_hazardType f = "FLOODED_ROAD") /\
  (iconImage f = "warning-pin" <-> feature_hazardType f <> "FLOODED_ROAD") /\
  In (iconImage f) (imagesAdded (loadExtras (None, true) (None, true))).
Proof.
  destruct (iconImage_cases f) as [[Htype Hicon]|[Htype Hicon]]; rewrite Hicon.
  - split; [split; auto|]. split.
    + split; [discriminate | intros H; contradiction].
    + left. reflexivity.
  - split; [split; [discriminate | intros H; contradiction]|]. split.
    + split; auto.
    + right. left. reflexivity.
Qed.

(** An image whose load fails or brings no image is not added to the map,
    and its callback throws; the other image is not affected. *)
Theorem failed_image_is_not_added
  (error : option JsError) (image : bool) (other : option JsError * bool) :
  error <> None \/ image = false ->
  ~ In "flood-pin" (imagesAdded (loadExtras (error, image) other)) /\
  throws (onImageLoaded "flood-pin" error image) = true /\
  imagesAdded (loadExtras (error, image) other)
  = imagesAdded [onImageLoaded "warning-pin" (fst other) (snd other)].
Proof.
  intros Hfail. unfold loadExtras, imagesAdded. cbn [fst snd flat_map].
  assert (Hthrow : exists e, onImageLoaded "flood-pin" error image = [throw e]).
  { unfold onImageLoaded. destruct error as [e|].
    - exists (Some e). reflexivity.
    - destruct image.
      + destruct Hfail as [H|H]; [contradiction H; reflexivity | discriminate].
      + exists None. reflexivity. }
  destruct Hthrow as [e ->]. cbn [flat_map app].
  split; [|split; reflexivity].
  rewrite app_nil_r. unfold onImageLoaded.
  destruct (fst other); [intros []|].
  destruct (snd other); cbn.
  - intros [H|[]]. discriminate.
  - intros [].
Qed.

Lemma failed_image_is_not_added_witness :
  (Some (OtherError "404") <> None \/ false = false) /\
  imagesAdded (loadExtras (Some (OtherError "404"), false) (None, true)) = ["warning-pin"].
Proof.
  assert (Hfail : Some (OtherError "404") <> None \/ false = false)
    by (right; reflexivity).
  split; [exact Hfail|].
  destruct (failed_image_is_not_added (Some (OtherError "404")) false (None, true) Hfail)
    as (_ & _ & Hadded).
  rewrite Hadded. reflexivity.
Defined.

(** The draft marker and the symbol layer show the same pin exactly for the
    categories FLOODED_ROAD and TREE_DOWN: a draft of category OTHER is
    marked with the flood pin, and drawn by the layer with the warning pin. *)
Theorem marker_matches_layer_icon (s : AppState) (f : Feature) :
  feature_hazardType f = value (hazardType s) ->
  (markerImage s = ("/" ++ iconImage f ++ ".svg")%string
   <-> value (hazardType s) = "FLOODED_ROAD" \/ value (hazardType s) = "TREE_DOWN") /\
  (value (hazardType s) = "OTHER" ->
   markerImage s = "/flood-pin.svg" /\ iconImage f = "warning-pin").
Proof.
  intros Htype. unfold markerImage.
  destruct (iconImage_cases f) as [[Hf Hicon]|[Hf Hicon]];
    rewrite Hicon; rewrite Htype in Hf.
  - rewrite Hf. cbn. split; [|discriminate].
    split; [intros _; left; reflexivity | reflexivity].
  - destruct (String.eqb_spec (value (hazardType s)) "TREE_DOWN") as [Htree|Htree].
    + split; [|rewrite Htree; discriminate].
      split; [intros _; right; exact Htree | reflexivity].
    + split.
      * split; [discriminate|]. intros [H|H]; contradiction.
      * intros _. split; reflexivity.
Qed.

Lemma marker_matches_layer_icon_witness :
  feature_hazardType (draftFeature reportingState "2022-10-14T04:00:00Z")
  = value (hazardType reportingState) /\
  markerImage reportingState = "/flood-pin.svg" /\
  iconImage (draftFeature reportingState "2022-10-14T04:00:00Z") = "warning-pin".
Proof.
  split; [reflexivity|].
  exact (proj2 (marker_matches_layer_icon reportingState
                  (draftFeature reportingState "2022-10-14T04:00:00Z") eq_refl)
               eq_refl).
Defined.

(* ================================================================= *)
(** ** The cache callback and the render *)

(** The [mutate] callback builds a value exactly when the request resolved
    and the captured data has a [features] member; in every other case it
    ends in an error: the rejection of the request, or a type error for
    missing data or a missing [features] member. *)
Theorem mutateCallback_builds_iff (captured : option HazardData) (response : option Feature) :
  (exists d', mutateCallback captured response = inr d') <->
  (exists newHazard d fs,
     response = Some newHazard /\ captured = Some d /\ features d = Some fs).
Proof.
  unfold mutateCallback. split.
  - intros [d' Hcb].
    destruct response as [h|]; [|discriminate].
    destruct captured as [d|]; [|discriminate].
    destruct (features d) as [fs|] eqn:Hfs; [|discriminate].
    exists h, d, fs. auto.
  - intros (h & d & fs & -> & -> & Hfs). rewrite Hfs. eexists. reflexivity.
Qed.

(** A value the [mutate] callback builds cannot be rendered: it has no
    [geojson] member, so the render's [data.geojson.features] is a type
    error; and from a response of the shape the render needs, with no
    top-level [features], the callback builds nothing. *)
Theorem mutateCallback_and_render_disagree
  (captured : option HazardData) (response : option Feature) (d' : HazardData) :
  mutateCallback captured response = inr d' ->
  renderSource (Some d') = inl TypeError /\
  exists d, captured = Some d /\ features d <> None.
Proof.
  intros Hcb. split; [exact (mutateCallback_value_not_renderable _ _ _ Hcb)|].
  unfold mutateCallback in Hcb.
  destruct response as [h|]; [|discriminate].
  destruct captured as [d|]; [|discriminate].
  exists d. split; [reflexivity|].
  destruct (features d); [discriminate|discriminate].
Qed.

Lemma mutateCallback_and_render_disagree_witness :
  mutateCallback (Some flatData) (Some ballaratPin)
  = inr {| data_type := Some "FeatureCollection"; geojson := None;
           features := Some [ballaratPin; ballaratPin] |} /\
  renderSource (Some {| data_type := Some "FeatureCollection"; geojson := None;
                        features := Some [ballaratPin; ballaratPin] |})
  = inl TypeError.
Proof.
  split; [reflexivity|].
  exact (proj1 (mutateCallback_and_render_disagree (Some flatData) (Some ballaratPin)
                  _ eq_refl)).
Defined.

(* ================================================================= *)
(** ** The popup loop: results, and the numbers that are not finite *)

Section PopupResults.

Context {num : Type} `{JsNumber num}.

(** Whenever the loop ends, in the program's own arithmetic: the array
    displayed has the length and the tail of the feature's, at its first
    entry the loop condition is false, and handling a click on the array
    displayed again needs no pass and changes nothing. *)
Theorem popupCoordinates_result
  (fuel : nat) (clickLng : num) (coords out : list num) :
  popupCoordinates fuel clickLng coords = Some out ->
  List.length out = List.length coords /\
  tl out = tl coords /\
  (forall r, hd_error out = Some r -> tooFar clickLng r = false) /\
  popupCoordinates 0 clickLng out = Some out.
Proof.
  unfold popupCoordinates at 1. intros Hrun.
  destruct coords as [|c0 rest].
  - injection Hrun as <-. repeat split. intros r Hr. discriminate.
  - destruct (normalizeLng fuel clickLng c0) as [c|] eqn:Hloop; [|discriminate].
    injection Hrun as <-.
    pose proof (normalizeLng_result_near clickLng fuel c0 c Hloop) as Hnear.
    repeat split.
    + intros r Hr. injection Hr as <-. exact Hnear.
    + unfold popupCoordinates. rewrite (normalizeLng_done 0 clickLng c Hnear).
      reflexivity.
Qed.

End PopupResults.

Lemma popupCoordinates_result_witness :
  popupCoordinates 4 (-200)%float [170; (-37.5)]%float = Some [(-190); (-37.5)]%float /\
  popupCoordinates 0 (-200)%float [(-190); (-37.5)]%float = Some [(-190); (-37.5)]%float.
Proof.
  assert (Hrun : popupCoordinates 4 (-200)%float [170; (-37.5)]%float
                 = Some [(-190); (-37.5)]%float) by (vm_compute; reflexivity).
  split; [exact Hrun|].
  destruct (popupCoordinates_result 4 (-200)%float [170; (-37.5)]%float
              [(-190); (-37.5)]%float Hrun) as (_ & _ & _ & Hagain).
  exact Hagain.
Defined.

(** On binary64 numbers of magnitude at most 2^53, the loop condition is
    false exactly when the click and the feature are at most 180 + 2^-46
    apart, and then the feature is displayed where it is, whatever the
    budget. *)
Theorem popupCoordinates_near_unchanged
  (L F : float) (qL qF : Q) (rest : list float) (fuel : nat) :
  PrimFloat.leb (PrimFloat.abs L) 9007199254740992 = true ->
  PrimFloat.leb (PrimFloat.abs F) 9007199254740992 = true ->
  exactValue L = Some qL ->
  exactValue F = Some qF ->
  (tooFar L F = false <-> (Qabs (qL - qF) <= 180 + (1 # 70368744177664))%Q) /\
  ((Qabs (qL - qF) <= 180 + (1 # 70368744177664))%Q ->
   popupCoordinates fuel L (F :: rest) = Some (F :: rest)).
Proof.
  intros HLb HFb HqL HqF.
  destruct (bounded_hasUnits L HLb) as (l & HL & Hl).
  destruct (bounded_hasUnits F HFb) as (g & HF & Hg).
  assert (Hg' : (Z.abs g <= degrees 18014398509481984)%Z).
  { unfold degrees in *. lia. }
  pose proof (tooFar_binary64_exact L F l g qL qF HL Hl HF Hg' HqL HqF) as Hiff.
  assert (Hnear : tooFar L F = false <-> (Qabs (qL - qF) <= 180 + (1 # 70368744177664))%Q).
  { split.
    - intros Hfalse. apply Qnot_lt_le. intros Hlt. apply Hiff in Hlt. congruence.
    - intros Hle. destruct (tooFar L F) eqn:Hfar; [|reflexivity].
      exfalso. apply (Qle_not_lt _ _ Hle). apply Hiff. reflexivity. }
  split; [exact Hnear|].
  intros Hle. unfold popupCoordinates.
  rewrite (normalizeLng_done fuel L F (proj2 Hnear Hle)). reflexivity.
Qed.

Lemma popupCoordinates_near_unchanged_witness :
  PrimFloat.leb (PrimFloat.abs 0.1) 9007199254740992 = true /\
  PrimFloat.leb (PrimFloat.abs (-179.9)) 9007199254740992 = true /\
  exists qL qF : Q,
    exactValue 0.1 = Some qL /\
    exactValue (-179.9) = Some qF /\
    (180 < Qabs (qL - qF))%Q /\
    (Qabs (qL - qF) <= 180 + (1 # 70368744177664))%Q /\
    tooFar 0.1%float (-179.9)%float = false /\
    popupCoordinates 0 0.1%float [(-179.9); (-37.5)]%float
    = Some [(-179.9); (-37.5)]%float.
Proof.
  assert (HL : PrimFloat.leb (PrimFloat.abs 0.1) 9007199254740992 = true)
    by (vm_compute; reflexivity).
  assert (HF : PrimFloat.leb (PrimFloat.abs (-179.9)) 9007199254740992 = true)
    by (vm_compute; reflexivity).
  split; [exact HL|]. split; [exact HF|].
  destruct (exactValue 0.1) as [qL|] eqn:HqL; [|vm_compute in HqL; discriminate].
  destruct (exactValue (-179.9)) as [qF|] eqn:HqF; [|vm_compute in HqF; discriminate].
  destruct (popupCoordinates_near_unchanged 0.1%float (-179.9)%float qL qF
              [(-37.5)%float] 0 HL HF HqL HqF) as [Hiff Hsame].
  vm_compute in HqL. injection HqL as <-.
  vm_compute in HqF. injection HqF as <-.
  assert (Hle : (Qabs ((3602879701896397 # 36028797018963968)
                       - (- 6329668538780877 # 35184372088832))
                 <= 180 + (1 # 70368744177664))%Q) by (vm_compute; discriminate).
  eexists. eexists.
  split; [reflexivity|]. split; [reflexivity|].
  split; [vm_compute; reflexivity|]. split; [exact Hle|].
  split; [exact (proj2 Hiff Hle) | exact (Hsame Hle)].
Defined.
(** On binary64 numbers, for a click at a whole-degree longitude between
    -540 and 540 and a feature at a whole-degree longitude between -180 and
    180, four passes end the loop; the longitude displayed is the feature's
    plus a whole multiple of 360, with no rounding, and within 180 of the
    click. *)
Theorem float_whole_degrees_normalized (zl zf : Z) :
  (-540 <= zl <= 540)%Z -> (-180 <= zf <= 180)%Z ->
  exists (r : float) (k : Z),
    normalizeLng 4 (floatOfZ zl) (floatOfZ zf) = Some r /\
    PrimFloat.eqb r (floatOfZ (zf + 360 * k)) = true /\
    (Z.abs (zl - (zf + 360 * k)) <= 180)%Z.
Proof.
  intros Hl Hf.
  destruct (float_agrees_with_exact zl zf Hl Hf) as (r & q & Hfloat & Hexact & Hden & Heq).
  assert (Hgap : (Qabs (inject_Z zl - inject_Z zf)
                  <= 180 + 360 * inject_Z (Z.of_nat 4))%Q).
  { apply Qabs_Qle_condition. unfold Qminus.
    rewrite <- inject_Z_opp, <- inject_Z_plus.
    change (180 + 360 * inject_Z (Z.of_nat 4))%Q with (inject_Z 1620).
    change (- inject_Z 1620)%Q with (inject_Z (-1620)).
    rewrite <- !Zle_Qle. lia. }
  destruct (normalizeLng_exact_run (inject_Z zl) 4 (inject_Z zf) Hgap)
    as (q' & k & Hrun & Hq & Hnear).
  rewrite Hexact in Hrun. injection Hrun as <-.
  assert (Hz : (q == inject_Z (zf + 360 * k))%Q).
  { rewrite Hq, inject_Z_plus, inject_Z_mult. change (inject_Z 360) with 360%Q.
    ring. }
  assert (Hnum : Qnum q = (zf + 360 * k)%Z).
  { clear - Hz Hden. destruct q as [qn qd]. cbn in Hden. subst qd.
    unfold Qeq in Hz. cbn [Qnum Qden inject_Z] in *. lia. }
  exists r, k. split; [exact Hfloat|]. split; [rewrite <- Hnum; exact Heq|].
  rewrite Hz in Hnear. apply Qabs_Qle_condition in Hnear.
  unfold Qminus in Hnear. rewrite <- inject_Z_opp, <- inject_Z_plus in Hnear.
  change 180%Q with (inject_Z 180) in Hnear.
  change (- inject_Z 180)%Q with (inject_Z (-180)) in Hnear.
  rewrite <- !Zle_Qle in Hnear. lia.
Qed.

Lemma float_whole_degrees_normalized_witness :
  (-540 <= 200 <= 540)%Z /\ (-180 <= -170 <= 180)%Z /\
  exists (r : float) (k : Z),
    normalizeLng 4 (floatOfZ 200) (floatOfZ (-170)) = Some r /\
    PrimFloat.eqb r (floatOfZ (-170 + 360 * k)) = true /\
    (Z.abs (200 - (-170 + 360 * k)) <= 180)%Z.
Proof.
  assert (Hl : (-540 <= 200 <= 540)%Z) by lia.
  assert (Hf : (-180 <= -170 <= 180)%Z) by lia.
  split; [exact Hl|]. split; [exact Hf|].
  exact (float_whole_degrees_normalized 200 (-170) Hl Hf).
Defined.

(** When the click longitude or the feature longitude is NaN, as for a
    feature with no coordinates, the loop condition is false: the loop body
    never runs and the array displayed is the feature's. *)
Theorem nan_skips_loop (c : float) (rest : list float) (fuel : nat) :
  tooFar PrimFloat.nan c = false /\
  tooFar c PrimFloat.nan = false /\
  popupCoordinates fuel PrimFloat.nan (c :: rest) = Some (c :: rest) /\
  popupCoordinates fuel c (PrimFloat.nan :: rest) = Some (PrimFloat.nan :: rest).
Proof.
  assert (Hclick : tooFar PrimFloat.nan c = false).
  { rewrite tooFar_float_spec.
    change (Prim2SF PrimFloat.nan) with S754_nan. reflexivity. }
  assert (Hfeature : tooFar c PrimFloat.nan = false).
  { rewrite tooFar_float_spec.
    change (Prim2SF PrimFloat.nan) with S754_nan.
    destruct (Prim2SF c); reflexivity. }
  split; [exact Hclick|]. split; [exact Hfeature|].
  unfold popupCoordinates.
  rewrite (normalizeLng_done fuel _ _ Hclick), (normalizeLng_done fuel _ _ Hfeature).
  split; reflexivity.
Qed.

Lemma finite_float_cases (L : float) :
  PrimFloat.is_finite L = true ->
  (exists s, Prim2SF L = S754_zero s) \/ (exists s m e, Prim2SF L = S754_finite s m e).
Proof.
  unfold PrimFloat.is_finite, PrimFloat.is_nan, PrimFloat.is_infinity.
  rewrite !FloatAxioms.eqb_spec, FloatAxioms.abs_spec.
  change (Prim2SF PrimFloat.infinity) with (S754_infinity false).
  destruct (Prim2SF L) as [s| s | |s m e]; cbn; intros Hfin.
  - left. exists s. reflexivity.
  - destruct s; discriminate.
  - discriminate.
  - right. exists s, m, e. reflexivity.
Qed.

(** A feature longitude of plus or minus infinity, which a JSON number
    beyond the binary64 range parses to, never leaves the loop for any
    finite click longitude: the gap is infinite and adding or subtracting
    360 changes nothing, so no budget is enough. *)
Theorem infinite_feature_never_ends (L : float) (fuel : nat) :
  PrimFloat.is_finite L = true ->
  normalizeLng fuel L PrimFloat.infinity = None /\
  normalizeLng fuel L PrimFloat.neg_infinity = None.
Proof.
  intros Hfin.
  assert (Hup : PrimFloat.ltb PrimFloat.infinity L = false).
  { rewrite FloatAxioms.ltb_spec. change (Prim2SF PrimFloat.infinity) with (S754_infinity false).
    destruct (finite_float_cases L Hfin) as [[s ->]|(s & m & e & ->)]; reflexivity. }
  assert (Hdown : PrimFloat.ltb PrimFloat.neg_infinity L = true).
  { rewrite FloatAxioms.ltb_spec. change (Prim2SF PrimFloat.neg_infinity) with (S754_infinity true).
    destruct (finite_float_cases L Hfin) as [[s ->]|(s & m & e & ->)]; reflexivity. }
  split.
  - apply normalizeLng_stuck.
    + rewrite tooFar_float_spec.
      change (Prim2SF PrimFloat.infinity) with (S754_infinity false).
      destruct (finite_float_cases L Hfin) as [[s ->]|(s & m & e & ->)]; reflexivity.
    + unfold shiftLng. cbn [ngt nadd numOfZ float_JsNumber]. rewrite Hup.
      vm_compute. reflexivity.
  - apply normalizeLng_stuck.
    + rewrite tooFar_float_spec.
      change (Prim2SF PrimFloat.neg_infinity) with (S754_infinity true).
      destruct (finite_float_cases L Hfin) as [[s ->]|(s & m & e & ->)]; reflexivity.
    + unfold shiftLng. cbn [ngt nadd numOfZ float_JsNumber]. rewrite Hdown.
      vm_compute. reflexivity.
Qed.

Lemma infinite_feature_never_ends_witness :
  PrimFloat.is_finite 10%float = true /\
  normalizeLng 1000 10%float PrimFloat.infinity = None.
Proof.
  assert (Hfin : PrimFloat.is_finite 10%float = true) by (vm_compute; reflexivity).
  split; [exact Hfin|].
  exact (proj1 (infinite_feature_never_ends 10%float 1000 Hfin)).
Defined.
